(** * sq_cache: a sharded LRU cache with TTL sweep and telemetry

    A shallow embedding of the Go package [sq_cache] (files
    [lru_cache.go], the shard, the recency list and its nodes,
    [telemetry.go], [utils.go], [config.go]) and the properties of it
    that the specification states.

    Go pointers are addresses into an explicit store, [nil] is [None];
    a Go panic (nil dereference, index out of range, division by zero,
    failed type assertion) is the failure of the state-and-error monad
    the operations run in. *)

From Stdlib Require Import ZArith Lia.
From stdpp Require Import base functions option list numbers strings gmap fin_maps.

Local Open Scope Z_scope.

(** ** crypto/sha1 and encoding/binary (Go standard library)

    The default routing function hashes the key with SHA-1.  The digest
    is FIPS 180-4's, on bytes held as [Z] in [0, 256) and 32-bit words
    held as [Z] with the wrap-around written out. *)
Module Sha1.

Definition w32 (x : Z) : Z := x mod 2 ^ 32.

Definition rotl (n x : Z) : Z :=
  w32 (Z.lor (Z.shiftl x n) (Z.shiftr x (32 - n))).

Definition lnot32 (x : Z) : Z := Z.lxor x (2 ^ 32 - 1).

(** Big-endian encoding of [x] on [n] bytes. *)
Fixpoint be_bytes (n : nat) (x : Z) : list Z :=
  match n with
  | O => []
  | S n' => (Z.shiftr x (8 * Z.of_nat n')) mod 256 :: be_bytes n' x
  end.

(** Big-endian decoding. *)
Definition be_value (bs : list Z) : Z :=
  fold_left (fun acc b => acc * 256 + b) bs 0.

Definition pad (msg : list Z) : list Z :=
  let len := Z.of_nat (length msg) in
  msg ++ [128] ++ repeat 0 (Z.to_nat ((55 - len) mod 64)) ++ be_bytes 8 (8 * len).

Fixpoint words (n : nat) (bs : list Z) : list Z :=
  match n with
  | O => []
  | S n' => be_value (take 4 bs) :: words n' (drop 4 bs)
  end.

(** The message schedule, most recent word first. *)
Fixpoint extend (n : nat) (w : list Z) : list Z :=
  match n with
  | O => w
  | S n' =>
      let x := Z.lxor (Z.lxor (nth 2 w 0) (nth 7 w 0))
                      (Z.lxor (nth 13 w 0) (nth 15 w 0)) in
      extend n' (rotl 1 x :: w)
  end.

Definition schedule (chunk : list Z) : list Z :=
  rev (extend 64 (rev (words 16 chunk))).

Record digest := Digest { h0 : Z; h1 : Z; h2 : Z; h3 : Z; h4 : Z }.

Definition init : digest :=
  Digest 0x67452301 0xEFCDAB89 0x98BADCFE 0x10325476 0xC3D2E1F0.

Definition round (i : Z) (st : digest) (wi : Z) : digest :=
  let '(Digest a b c d e) := st in
  let '(f, k) :=
    if i <? 20 then (Z.lor (Z.land b c) (Z.land (lnot32 b) d), 0x5A827999)
    else if i <? 40 then (Z.lxor (Z.lxor b c) d, 0x6ED9EBA1)
    else if i <? 60 then
      (Z.lor (Z.lor (Z.land b c) (Z.land b d)) (Z.land c d), 0x8F1BBCDC)
    else (Z.lxor (Z.lxor b c) d, 0xCA62C1D6) in
  Digest (w32 (rotl 5 a + f + e + k + wi)) a (rotl 30 b) c d.

Fixpoint rounds (i : Z) (ws : list Z) (st : digest) : digest :=
  match ws with
  | [] => st
  | wi :: ws' => rounds (i + 1) ws' (round i st wi)
  end.

Definition block (st : digest) (chunk : list Z) : digest :=
  let r := rounds 0 (schedule chunk) st in
  Digest (w32 (h0 st + h0 r)) (w32 (h1 st + h1 r)) (w32 (h2 st + h2 r))
         (w32 (h3 st + h3 r)) (w32 (h4 st + h4 r)).

Fixpoint blocks (n : nat) (bs : list Z) (st : digest) : digest :=
  match n with
  | O => st
  | S n' => blocks n' (drop 64 bs) (block st (take 64 bs))
  end.

(** [h.Write(msg); h.Sum(nil)]: the 20 bytes of the digest. *)
Definition sum (msg : list Z) : list Z :=
  let p := pad msg in
  let d := blocks (length p / 64)%nat p init in
  be_bytes 4 (h0 d) ++ be_bytes 4 (h1 d) ++ be_bytes 4 (h2 d)
    ++ be_bytes 4 (h3 d) ++ be_bytes 4 (h4 d).

(** [binary.BigEndian.Uint64]: the first eight bytes; fewer is a panic. *)
Definition Uint64 (bs : list Z) : option Z :=
  if decide (8 ≤ length bs)%nat then Some (be_value (take 8 bs)) else None.

End Sha1.

(** [[]byte(s)] for a Go string: its bytes. *)
Definition bytes_of_string (s : string) : list Z :=
  (fun c => Z.of_N (Ascii.N_of_ascii c)) <$> String.list_ascii_of_string s.

(** ** The state-and-panic monad

    [M S A]: a computation on a state [S] that returns an [A] or
    panics ([None]). *)
Definition M (S A : Type) : Type := S → option (A * S).

Global Instance M_ret {S} : MRet (M S) := λ A a s, Some (a, s).
Global Instance M_bind {S} : MBind (M S) := λ A B f m s,
  match m s with
  | Some (a, s') => f a s'
  | None => None
  end.

Global Instance M_fmap {S} : FMap (M S) := λ A B f m s,
  match m s with
  | Some (a, s') => Some (f a, s')
  | None => None
  end.

Definition panic {S A} : M S A := λ _, None.
Definition gets {S A} (f : S → A) : M S A := λ s, Some (f s, s).
Definition modify {S} (f : S → S) : M S unit := λ s, Some ((), f s).
(** A Go operation that panics when its operand is absent. *)
Definition must {S A} (o : option A) : M S A :=
  match o with Some a => mret a | None => panic end.
(** Run a computation on a component of the state. *)
Definition zoom {S T A} (proj : S → T) (upd : T → S → S) (m : M T A) : M S A :=
  λ s, match m (proj s) with
       | Some (a, t) => Some (a, upd t s)
       | None => None
       end.

(** ** Store: list nodes and lists (part_000 head, telemetry.go tail) *)

(** Addresses. *)
Abbreviation loc := N (only parsing).
(** A Go pointer: [nil] or an address. *)
Abbreviation ptr := (option N) (only parsing).

(** [time.Time] as the nanoseconds elapsed since the zero instant:
    [IsZero] is [t = 0], [Before] is [<]. *)
Abbreviation Time := Z (only parsing).
Definition Time_IsZero (t : Time) : bool := bool_decide (t = 0).
Definition Time_Before (t u : Time) : bool := bool_decide (t < u).

(** The key and value types: [string] keys (compared with [""]),
    [[]byte] values ([nil] is the empty slice). *)
Abbreviation K := string (only parsing).
Abbreviation V := (list Z) (only parsing).

Record lruListNode := mkNode {
  node_next : ptr;
  node_prev : ptr;
  node_list : ptr;
  node_Key : K;
  node_Value : V;
  node_TTL : Time
}.

Record lruList := mkList {
  ll_root : ptr;
  ll_len : Z
}.

Record heap := mkHeap {
  nodeAt : gmap loc lruListNode;
  listAt : gmap loc lruList
}.

Definition zeroNode : lruListNode := mkNode None None None "" [] 0.

Definition with_next (v : ptr) (n : lruListNode) : lruListNode :=
  mkNode v (node_prev n) (node_list n) (node_Key n) (node_Value n) (node_TTL n).
Definition with_prev (v : ptr) (n : lruListNode) : lruListNode :=
  mkNode (node_next n) v (node_list n) (node_Key n) (node_Value n) (node_TTL n).
Definition with_list (v : ptr) (n : lruListNode) : lruListNode :=
  mkNode (node_next n) (node_prev n) v (node_Key n) (node_Value n) (node_TTL n).
Definition with_Key (v : K) (n : lruListNode) : lruListNode :=
  mkNode (node_next n) (node_prev n) (node_list n) v (node_Value n) (node_TTL n).
Definition with_Value (v : V) (n : lruListNode) : lruListNode :=
  mkNode (node_next n) (node_prev n) (node_list n) (node_Key n) v (node_TTL n).
Definition with_TTL (v : Time) (n : lruListNode) : lruListNode :=
  mkNode (node_next n) (node_prev n) (node_list n) (node_Key n) (node_Value n) v.
Definition with_len (v : Z) (l : lruList) : lruList := mkList (ll_root l) v.

(** [*p] for a node pointer: a nil or dangling [p] panics. *)
Definition loadNode (p : ptr) : M heap lruListNode := λ h,
  match p with
  | Some a => match nodeAt h !! a with Some n => Some (n, h) | None => None end
  | None => None
  end.

(** [p.f = v] as an update [f] of the node at [p]. *)
Definition updNode (p : ptr) (f : lruListNode → lruListNode) : M heap unit := λ h,
  match p with
  | Some a =>
      match nodeAt h !! a with
      | Some n => Some ((), mkHeap (<[a := f n]> (nodeAt h)) (listAt h))
      | None => None
      end
  | None => None
  end.

Definition loadList (p : ptr) : M heap lruList := λ h,
  match p with
  | Some a => match listAt h !! a with Some l => Some (l, h) | None => None end
  | None => None
  end.

Definition updList (p : ptr) (f : lruList → lruList) : M heap unit := λ h,
  match p with
  | Some a =>
      match listAt h !! a with
      | Some l => Some ((), mkHeap (nodeAt h) (<[a := f l]> (listAt h)))
      | None => None
      end
  | None => None
  end.

(** [&lruListNode{}]: a fresh address holding the zero node. *)
Definition allocNode (n : lruListNode) : M heap ptr := λ h,
  let a := fresh (dom (nodeAt h)) in
  Some (Some a, mkHeap (<[a := n]> (nodeAt h)) (listAt h)).

Definition allocList (l : lruList) : M heap ptr := λ h,
  let a := fresh (dom (listAt h)) in
  Some (Some a, mkHeap (nodeAt h) (<[a := l]> (listAt h))).

Definition newLRUListNode : M heap ptr := allocNode zeroNode.

Definition newLRUList : M heap ptr :=
  r ← newLRUListNode;
  ll ← allocList (mkList r 0);
  r1 ← ll_root <$> loadList ll;
  r2 ← ll_root <$> loadList ll;
  updNode r1 (with_next r2);;
  r1 ← ll_root <$> loadList ll;
  r2 ← ll_root <$> loadList ll;
  updNode r1 (with_prev r2);;
  updList ll (with_len 0);;
  mret ll.

(** [lln.Next()]. *)
Definition lruListNode_Next (lln : ptr) : M heap ptr :=
  p ← node_next <$> loadNode lln;
  l ← node_list <$> loadNode lln;
  if decide (l ≠ None) then
    r ← ll_root <$> loadList l;
    if decide (p ≠ r) then mret p else mret None
  else mret None.

(** [lln.Prev()]. *)
Definition lruListNode_Prev (lln : ptr) : M heap ptr :=
  p ← node_prev <$> loadNode lln;
  l ← node_list <$> loadNode lln;
  if decide (l ≠ None) then
    r ← ll_root <$> loadList l;
    if decide (p ≠ r) then mret p else mret None
  else mret None.

(** [ll.insert(lln, at)]: link [lln] after [at]. *)
Definition lruList_insert (ll lln at_ : ptr) : M heap ptr :=
  updNode lln (with_prev at_);;
  n ← node_next <$> loadNode at_;
  updNode lln (with_next n);;
  p ← node_prev <$> loadNode lln;
  updNode p (with_next lln);;
  n ← node_next <$> loadNode lln;
  updNode n (with_prev lln);;
  updNode lln (with_list ll);;
  updList ll (λ l, with_len (ll_len l + 1) l);;
  mret lln.

(** [ll.remove(lln)]: unlink [lln] and clear its links. *)
Definition lruList_remove (ll lln : ptr) : M heap unit :=
  p ← node_prev <$> loadNode lln;
  n ← node_next <$> loadNode lln;
  updNode p (with_next n);;
  n ← node_next <$> loadNode lln;
  p ← node_prev <$> loadNode lln;
  updNode n (with_prev p);;
  updNode lln (with_next None);;
  updNode lln (with_prev None);;
  updNode lln (with_list None);;
  updList ll (λ l, with_len (ll_len l - 1) l).

(** [ll.move(lln, at)]: unlink [lln] and link it again after [at]. *)
Definition lruList_move (ll lln at_ : ptr) : M heap unit :=
  if decide (lln = at_) then mret ()
  else
    p ← node_prev <$> loadNode lln;
    n ← node_next <$> loadNode lln;
    updNode p (with_next n);;
    n ← node_next <$> loadNode lln;
    p ← node_prev <$> loadNode lln;
    updNode n (with_prev p);;
    updNode lln (with_prev at_);;
    n ← node_next <$> loadNode at_;
    updNode lln (with_next n);;
    p ← node_prev <$> loadNode lln;
    updNode p (with_next lln);;
    n ← node_next <$> loadNode lln;
    updNode n (with_prev lln).

Definition lruList_Len (ll : ptr) : M heap Z := ll_len <$> loadList ll.

Definition lruList_Front (ll : ptr) : M heap ptr :=
  n ← ll_len <$> loadList ll;
  if decide (n = 0) then mret None
  else
    r ← ll_root <$> loadList ll;
    node_next <$> loadNode r.

Definition lruList_Back (ll : ptr) : M heap ptr :=
  n ← ll_len <$> loadList ll;
  if decide (n = 0) then mret None
  else
    r ← ll_root <$> loadList ll;
    node_prev <$> loadNode r.

Definition lruList_Remove (ll lln : ptr) : M heap ptr :=
  l ← node_list <$> loadNode lln;
  (if decide (l = ll) then lruList_remove ll lln else mret ());;
  mret lln.

Definition lruList_PushFront (ll lln : ptr) : M heap ptr :=
  r ← ll_root <$> loadList ll;
  lruList_insert ll lln r.

Definition lruList_MoveToFront (ll lln : ptr) : M heap unit :=
  l ← node_list <$> loadNode lln;
  if decide (l ≠ ll) then mret ()
  else
    r ← ll_root <$> loadList ll;
    f ← node_next <$> loadNode r;
    if decide (f = lln) then mret ()
    else
      r ← ll_root <$> loadList ll;
      lruList_move ll lln r.

(** The nodes of the list in order, front to back, read the way a
    caller iterates: [for e := ll.Front(); e != nil; e = e.Next()].
    [fuel] bounds the walk. *)
Fixpoint walk (fuel : nat) (e : ptr) (h : heap) : list loc :=
  match fuel, e with
  | S fuel', Some a =>
      match lruListNode_Next e h with
      | Some (e', _) => a :: walk fuel' e' h
      | None => [a]
      end
  | _, _ => []
  end.

Definition lruList_elements (ll : ptr) (h : heap) : list loc :=
  match lruList_Front ll h with
  | Some (e, _) => walk (size (nodeAt h)) e h
  | None => []
  end.

(** ** Telemetry counters (telemetry.go) *)

Inductive counterMode := Add | Update | Hit | Miss | Evict.

Record telemetry := mkTelemetry {
  t_Add : Z;
  t_Update : Z;
  t_Hit : Z;
  t_Miss : Z;
  t_Evict : Z
}.

Definition newTelemetry : telemetry := mkTelemetry 0 0 0 0 0.

(** A [*telemetry] is [nil] or the counters it points to; reading or
    storing a counter through a nil pointer panics. *)
Definition telemetry_getCounter (t : option telemetry) (mode : counterMode) : option Z :=
  t' ← t;
  Some match mode with
       | Add => t_Add t'
       | Update => t_Update t'
       | Hit => t_Hit t'
       | Miss => t_Miss t'
       | Evict => t_Evict t'
       end.

Definition telemetry_setCounter (mode : counterMode) (value : Z) : M (option telemetry) unit :=
  λ t, t' ← t;
  Some ((), Some match mode with
       | Add => mkTelemetry value (t_Update t') (t_Hit t') (t_Miss t') (t_Evict t')
       | Update => mkTelemetry (t_Add t') value (t_Hit t') (t_Miss t') (t_Evict t')
       | Hit => mkTelemetry (t_Add t') (t_Update t') value (t_Miss t') (t_Evict t')
       | Miss => mkTelemetry (t_Add t') (t_Update t') (t_Hit t') value (t_Evict t')
       | Evict => mkTelemetry (t_Add t') (t_Update t') (t_Hit t') (t_Miss t') value
       end).

Definition GetAddCounter t := telemetry_getCounter t Add.
Definition GetUpdateCounter t := telemetry_getCounter t Update.
Definition GetHitCounter t := telemetry_getCounter t Hit.
Definition GetMissCounter t := telemetry_getCounter t Miss.
Definition GetEvictCounter t := telemetry_getCounter t Evict.
Definition SetAddCounter := telemetry_setCounter Add.
Definition SetUpdateCounter := telemetry_setCounter Update.
Definition SetHitCounter := telemetry_setCounter Hit.
Definition SetMissCounter := telemetry_setCounter Miss.
Definition SetEvictCounter := telemetry_setCounter Evict.

(** ** The shard (part_000 tail) *)

(** A call of one of the five configured hooks, with its arguments.
    The hooks only observe: the shard records each call it makes. *)
Inductive hookCall :=
| CallOnAdd (loggingOn : bool) (node : ptr)
| CallOnUpdate (loggingOn : bool) (node : ptr)
| CallOnHit (loggingOn : bool) (node : ptr)
| CallOnMiss (loggingOn : bool) (key : K)
| CallOnEvict (loggingOn : bool) (node : ptr).

Record lruCacheShard := mkShard {
  shard_id : Z;
  shard_maxItems : Z;
  shard_loggingOn : bool;
  shard_telemetryOn : bool;
  shard_list : ptr;
  (** [generic_syncpool.Pool]: the nodes put back and not yet reused. *)
  shard_nodesPool : list ptr;
  shard_nodes : gmap K ptr;
  shard_telemetry : option telemetry;
  (** The hook calls made so far, oldest first. *)
  shard_calls : list hookCall;
  (** The nodes and lists this shard has allocated. *)
  shard_mem : heap
}.

Definition set_mem (h : heap) (s : lruCacheShard) : lruCacheShard :=
  mkShard (shard_id s) (shard_maxItems s) (shard_loggingOn s) (shard_telemetryOn s)
    (shard_list s) (shard_nodesPool s) (shard_nodes s) (shard_telemetry s)
    (shard_calls s) h.
Definition set_list (l : ptr) (s : lruCacheShard) : lruCacheShard :=
  mkShard (shard_id s) (shard_maxItems s) (shard_loggingOn s) (shard_telemetryOn s)
    l (shard_nodesPool s) (shard_nodes s) (shard_telemetry s)
    (shard_calls s) (shard_mem s).
Definition set_nodesPool (p : list ptr) (s : lruCacheShard) : lruCacheShard :=
  mkShard (shard_id s) (shard_maxItems s) (shard_loggingOn s) (shard_telemetryOn s)
    (shard_list s) p (shard_nodes s) (shard_telemetry s)
    (shard_calls s) (shard_mem s).
Definition set_nodes (m : gmap K ptr) (s : lruCacheShard) : lruCacheShard :=
  mkShard (shard_id s) (shard_maxItems s) (shard_loggingOn s) (shard_telemetryOn s)
    (shard_list s) (shard_nodesPool s) m (shard_telemetry s)
    (shard_calls s) (shard_mem s).
Definition set_telemetry (t : option telemetry) (s : lruCacheShard) : lruCacheShard :=
  mkShard (shard_id s) (shard_maxItems s) (shard_loggingOn s) (shard_telemetryOn s)
    (shard_list s) (shard_nodesPool s) (shard_nodes s) t
    (shard_calls s) (shard_mem s).
Definition set_calls (c : list hookCall) (s : lruCacheShard) : lruCacheShard :=
  mkShard (shard_id s) (shard_maxItems s) (shard_loggingOn s) (shard_telemetryOn s)
    (shard_list s) (shard_nodesPool s) (shard_nodes s) (shard_telemetry s)
    c (shard_mem s).

(** A list or node operation run on the shard's store. *)
Definition inMem {A} (m : M heap A) : M lruCacheShard A := zoom shard_mem set_mem m.

(** [if shard.telemetryOn { shard.onX(shard.loggingOn, arg) }]. *)
Definition call (c : bool → hookCall) : M lruCacheShard unit :=
  modify (λ s,
    if shard_telemetryOn s
    then set_calls (shard_calls s ++ [c (shard_loggingOn s)]) s
    else s).

(** [generic_syncpool.New], [Get] and [Put]: [Get] hands out a node
    that was put back, or a new zero node when there is none. *)
Definition Pool_New : list ptr := [].

Definition Pool_Get : M lruCacheShard ptr :=
  pool ← gets shard_nodesPool;
  match pool with
  | item :: rest => modify (set_nodesPool rest);; mret item
  | [] => inMem (allocNode zeroNode)
  end.

Definition Pool_Put (item : ptr) : M lruCacheShard unit :=
  modify (λ s, set_nodesPool (item :: shard_nodesPool s) s).

(** The resolved configuration (config.go).  The five hooks [OnAdd],
    [OnUpdate], [OnHit], [OnMiss], [OnEvict] are observers; a call of
    one is recorded in [shard_calls].  A routing or key function that
    panics returns [None]. *)
Record Config := mkConfig {
  cfg_LoggingOn : bool;
  cfg_TelemetryOn : bool;
  cfg_MaxShards : Z;
  cfg_MaxItems : Z;
  cfg_ExpiryDurationInSeconds : Z;
  cfg_CleanupDurationInSeconds : Z;
  cfg_GenerateKey : V → option K;
  cfg_GenerateShardId : K → Z → option Z
}.

Definition emptyHeap : heap := mkHeap ∅ ∅.

(** [newLRUCacheShard(config, id)]; each shard allocates in a store of
    its own, shards share no node. *)
Definition newLRUCacheShard (config : Config) (id : Z) : option lruCacheShard :=
  '(l, h) ← newLRUList emptyHeap;
  Some (mkShard id (cfg_MaxItems config) (cfg_LoggingOn config)
          (cfg_TelemetryOn config) l Pool_New ∅ (Some newTelemetry) [] h).

Definition getItemFromPool (key : K) (value : V) (ttl : Time) : M lruCacheShard ptr :=
  item ← Pool_Get;
  inMem (updNode item (with_Key key));;
  inMem (updNode item (with_Value value));;
  inMem (updNode item (with_TTL ttl));;
  mret item.

Definition putItemInPool (item : ptr) : M lruCacheShard unit :=
  inMem (updNode item (with_Key ""));;
  inMem (updNode item (with_Value []));;
  inMem (updNode item (with_TTL 0));;
  Pool_Put item.

Definition removeItem (item : ptr) : M lruCacheShard unit :=
  ll ← gets shard_list;
  inMem (lruList_Remove ll item);;
  k ← inMem (node_Key <$> loadNode item);
  modify (λ s, set_nodes (delete k (shard_nodes s)) s);;
  call (λ lg, CallOnEvict lg item).

Definition removeItemOldest : M lruCacheShard unit :=
  ll ← gets shard_list;
  item ← inMem (lruList_Back ll);
  if decide (item ≠ None) then removeItem item else mret ().

(** The loop of [CleanupShard]: [range shard.nodes] visits the keys in
    an order [order] the runtime chooses, and skips a key deleted
    before it is reached. *)
Fixpoint CleanupShard_loop (now : Time) (order : list K) (evictCount : Z)
    : M lruCacheShard Z :=
  match order with
  | [] => mret evictCount
  | k :: rest =>
      cur ← gets (λ s, shard_nodes s !! k);
      match cur with
      | None => CleanupShard_loop now rest evictCount
      | Some item =>
          ttl ← inMem (node_TTL <$> loadNode item);
          if Time_Before ttl now && negb (Time_IsZero ttl) then
            removeItem item;;
            CleanupShard_loop now rest (evictCount + 1)
          else CleanupShard_loop now rest evictCount
      end
  end.

(** [shard.CleanupShard()] when [time.Now()] reads [now], with the
    keys visited in the order [order]. *)
Definition CleanupShard_in (order : list K) (now : Time) : M lruCacheShard Z :=
  CleanupShard_loop now order 0.

Definition lruCacheShard_CleanupShard (now : Time) : M lruCacheShard Z :=
  order ← gets (λ s, (map_to_list (shard_nodes s)).*1);
  CleanupShard_in order now.

Definition lruCacheShard_Set (cacheLen : Z) (key : K) (value : V) (ttl : Time)
    : M lruCacheShard (bool * bool) :=
  newItem ← getItemFromPool key value ttl;
  cur ← gets (λ s, shard_nodes s !! key);
  match cur with
  | Some item =>
      ll ← gets shard_list;
      inMem (lruList_MoveToFront ll item);;
      inMem (updNode item (with_Value value));;
      inMem (updNode item (with_TTL ttl));;
      call (λ lg, CallOnUpdate lg item);;
      mret (false, false)
  | None =>
      ll ← gets shard_list;
      item ← inMem (lruList_PushFront ll newItem);
      modify (λ s, set_nodes (<[key := item]> (shard_nodes s)) s);;
      call (λ lg, CallOnAdd lg item);;
      maxItems ← gets shard_maxItems;
      if (cacheLen >=? maxItems)%Z then
        removeItemOldest;;
        mret (true, false)
      else mret (false, true)
  end.

Definition lruCacheShard_Get (key : K) : M lruCacheShard (V * bool) :=
  cur ← gets (λ s, shard_nodes s !! key);
  match cur with
  | Some item =>
      ll ← gets shard_list;
      inMem (lruList_MoveToFront ll item);;
      call (λ lg, CallOnHit lg item);;
      v ← inMem (node_Value <$> loadNode item);
      mret (v, true)
  | None =>
      call (λ lg, CallOnMiss lg key);;
      mret ([] : V, false)
  end.

Definition lruCacheShard_Contains (key : K) : M lruCacheShard bool :=
  cur ← gets (λ s, shard_nodes s !! key);
  match cur with
  | Some item =>
      call (λ lg, CallOnHit lg item);;
      mret true
  | None =>
      call (λ lg, CallOnMiss lg key);;
      mret false
  end.

Definition lruCacheShard_Peek (key : K) : M lruCacheShard (V * bool) :=
  cur ← gets (λ s, shard_nodes s !! key);
  match cur with
  | Some item =>
      call (λ lg, CallOnHit lg item);;
      v ← inMem (node_Value <$> loadNode item);
      mret (v, true)
  | None =>
      call (λ lg, CallOnMiss lg key);;
      mret ([] : V, false)
  end.

Definition lruCacheShard_Remove (key : K) : M lruCacheShard bool :=
  cur ← gets (λ s, shard_nodes s !! key);
  match cur with
  | Some item => removeItem item;; mret true
  | None =>
      call (λ lg, CallOnMiss lg key);;
      mret false
  end.

Definition lruCacheShard_Purge : M lruCacheShard unit :=
  l ← inMem newLRUList;
  modify (set_list l);;
  modify (set_nodesPool Pool_New);;
  modify (set_nodes ∅).

Definition lruCacheShard_Telemetry : M lruCacheShard (option telemetry) :=
  gets shard_telemetry.

Definition lruCacheShard_TelemetryReset : M lruCacheShard unit :=
  modify (set_telemetry (Some newTelemetry)).

(** ** Default key and routing functions (utils.go) *)

(** [int64(x)] and [uint64(x)]: two's complement on 64 bits. *)
Definition int64 (x : Z) : Z := (x + 2 ^ 63) mod 2 ^ 64 - 2 ^ 63.
Definition uint64 (x : Z) : Z := x mod 2 ^ 64.

(** [generateKey]: the digest is a [[]byte], and the type assertion
    [any(k).(K)] to the string type [K] panics on it. *)
Definition generateKey (value : V) : option K :=
  let k := Sha1.sum value in
  None.

(** [generateShardId]: the first eight bytes of the digest, modulo
    [uint64(maxItems)]; a zero modulus is a division panic. *)
Definition generateShardId (key : K) (maxItems : Z) : option Z :=
  let v := Sha1.sum (bytes_of_string key) in
  u ← Sha1.Uint64 v;
  if decide (uint64 maxItems = 0) then None
  else Some (int64 (u mod uint64 maxItems)).

(** ** The cache (lru_cache.go) *)

Inductive CacheStatus := Opened | Started | Stopped | Closed.

(** A Go [error]: [nil] or a message. *)
Definition error := option string.

Record LRUCache := mkCache {
  cache_maxShards : Z;
  cache_maxItems : Z;
  (** [atomic.Int64] *)
  cache_len : Z;
  cache_loggingOn : bool;
  cache_telemetryOn : bool;
  cache_expiryDurationInSeconds : Z;
  cache_cleanupDurationInSeconds : Z;
  cache_generateKey : V → option K;
  cache_generateShardId : K → Z → option Z;
  cache_status : CacheStatus;
  cache_isCleanupTickerActive : bool;
  cache_shards : list lruCacheShard
}.

Definition set_len (n : Z) (c : LRUCache) : LRUCache :=
  mkCache (cache_maxShards c) (cache_maxItems c) n (cache_loggingOn c)
    (cache_telemetryOn c) (cache_expiryDurationInSeconds c)
    (cache_cleanupDurationInSeconds c) (cache_generateKey c)
    (cache_generateShardId c) (cache_status c) (cache_isCleanupTickerActive c)
    (cache_shards c).
Definition set_status (st : CacheStatus) (c : LRUCache) : LRUCache :=
  mkCache (cache_maxShards c) (cache_maxItems c) (cache_len c) (cache_loggingOn c)
    (cache_telemetryOn c) (cache_expiryDurationInSeconds c)
    (cache_cleanupDurationInSeconds c) (cache_generateKey c)
    (cache_generateShardId c) st (cache_isCleanupTickerActive c)
    (cache_shards c).
Definition set_isCleanupTickerActive (b : bool) (c : LRUCache) : LRUCache :=
  mkCache (cache_maxShards c) (cache_maxItems c) (cache_len c) (cache_loggingOn c)
    (cache_telemetryOn c) (cache_expiryDurationInSeconds c)
    (cache_cleanupDurationInSeconds c) (cache_generateKey c)
    (cache_generateShardId c) (cache_status c) b
    (cache_shards c).
Definition set_shards (l : list lruCacheShard) (c : LRUCache) : LRUCache :=
  mkCache (cache_maxShards c) (cache_maxItems c) (cache_len c) (cache_loggingOn c)
    (cache_telemetryOn c) (cache_expiryDurationInSeconds c)
    (cache_cleanupDurationInSeconds c) (cache_generateKey c)
    (cache_generateShardId c) (cache_status c) (cache_isCleanupTickerActive c)
    l.

(** [cache.len.Add(delta)], wrapping on 64 bits. *)
Definition len_Add (delta : Z) : M LRUCache unit :=
  modify (λ c, set_len (int64 (cache_len c + delta)) c).

(** [cache.shards[shardId].m(...)]: an index outside the slice panics. *)
Definition onShard {A} (shardId : Z) (m : M lruCacheShard A) : M LRUCache A := λ c,
  if decide (0 ≤ shardId) then
    match cache_shards c !! Z.to_nat shardId with
    | Some sh =>
        match m sh with
        | Some (a, sh') =>
            Some (a, set_shards (<[Z.to_nat shardId := sh']> (cache_shards c)) c)
        | None => None
        end
    | None => None
    end
  else None.

(** The shards [newLRUCacheShard(config, 0)], ..., [(config, n-1)]. *)
Definition newShards (config : Config) (n : nat) : option (list lruCacheShard) :=
  mapM (λ i : nat, newLRUCacheShard config (Z.of_nat i)) (seq 0 n).

(** [NewLRUCache] on the resolved configuration.  The struct literal
    sets no [telemetryOn], which keeps its zero value; allocating a
    slice of negative length panics. *)
Definition NewLRUCache (config : Config) : option LRUCache :=
  if decide (cfg_MaxShards config < 0) then None
  else
    shards ← newShards config (Z.to_nat (cfg_MaxShards config));
    Some (mkCache (cfg_MaxShards config) (cfg_MaxItems config) 0
            (cfg_LoggingOn config) false
            (cfg_ExpiryDurationInSeconds config)
            (cfg_CleanupDurationInSeconds config)
            (cfg_GenerateKey config) (cfg_GenerateShardId config)
            Started true shards).

(** The defaults [NewLRUCache] starts from. *)
Definition defaultConfig : Config :=
  mkConfig true true 256 1000000 (60 * 60 * 24) (60 * 5) generateKey generateShardId.

Definition LRUCache_Status : M LRUCache CacheStatus := gets cache_status.
Definition LRUCache_Start : M LRUCache unit := modify (set_status Started).
Definition LRUCache_Stop : M LRUCache unit := modify (set_status Stopped).
Definition LRUCache_MaxShards : M LRUCache Z := gets cache_maxShards.
Definition LRUCache_MaxItems : M LRUCache Z := gets cache_maxItems.
Definition LRUCache_Len : M LRUCache Z := gets cache_len.

(** [cleanupShards]: one sweep per shard; [clock i] is what
    [time.Now()] reads in the sweep of shard [i]. *)
Fixpoint cleanupShards_from (clock : nat → Time) (i n : nat) : M LRUCache unit :=
  match n with
  | O => mret ()
  | S n' =>
      evictCount ← onShard (Z.of_nat i) (lruCacheShard_CleanupShard (clock i));
      len_Add evictCount;;
      cleanupShards_from clock (S i) n'
  end.

Definition cleanupShards (clock : nat → Time) : M LRUCache unit :=
  n ← gets (λ c, length (cache_shards c));
  cleanupShards_from clock 0 n.

(** One firing of the ticker in [cleanupTicker]. *)
Definition cleanupTick (clock : nat → Time) : M LRUCache unit :=
  active ← gets cache_isCleanupTickerActive;
  if active : bool then cleanupShards clock else mret ().

Definition cleanupStart : M LRUCache unit := modify (set_isCleanupTickerActive true).
Definition cleanupStop : M LRUCache unit := modify (set_isCleanupTickerActive false).

(** The lifecycle gate of [Set], [SetWithTTL], [Get], [Contains],
    [Peek] and [Remove]: [switch cache.Status()] with an error for
    [Closed] and one for [Stopped]. *)
Definition gate (method : string) (st : CacheStatus) : error :=
  match st with
  | Closed => Some "cache is closed"
  | Stopped =>
      Some ("cache is stopped, must be started before calling method " +:+ method +:+ "()")
  | _ => None
  end.

(** The tail that [Set] and [SetWithTTL] share. *)
Definition setEntry (key : K) (value : V) (ttl : Time) : M LRUCache (K * error) :=
  genShard ← gets cache_generateShardId;
  maxItems ← gets cache_maxItems;
  shardId ← must (genShard key maxItems);
  cacheLen ← gets cache_len;
  r ← onShard shardId (lruCacheShard_Set cacheLen key value ttl);
  (if r.1 : bool then len_Add (-1) else mret ());;
  len_Add 1;;
  mret (key, None).

Definition LRUCache_Set (key : K) (value : V) : M LRUCache (K * error) :=
  st ← LRUCache_Status;
  match gate "Set" st with
  | Some e => mret ("", Some e)
  | None =>
      genKey ← gets cache_generateKey;
      key ← (if decide (key = "") then must (genKey value) else mret key);
      setEntry key value 0
  end.

(** [SetWithTTL] when [time.Now()] reads [now]; [duration] is a
    [uint], a [time.Duration] counts nanoseconds on 64 bits. *)
Definition LRUCache_SetWithTTL (now : Time) (key : K) (value : V) (duration : Z)
    : M LRUCache (K * error) :=
  st ← LRUCache_Status;
  match gate "SetWithTTL" st with
  | Some e => mret ("", Some e)
  | None =>
      genKey ← gets cache_generateKey;
      key ← (if decide (key = "") then must (genKey value) else mret key);
      expiry ← gets cache_expiryDurationInSeconds;
      let ttl :=
        if decide (duration > 0)
        then now + int64 (int64 duration * 1000000000)
        else now + int64 (int64 expiry * 1000000000) in
      setEntry key value ttl
  end.

Definition LRUCache_Get (key : K) : M LRUCache (V * error) :=
  st ← LRUCache_Status;
  match gate "Get" st with
  | Some e => mret ([] : V, Some e)
  | None =>
      genShard ← gets cache_generateShardId;
      maxItems ← gets cache_maxItems;
      shardId ← must (genShard key maxItems);
      r ← onShard shardId (lruCacheShard_Get key);
      mret (r.1, None)
  end.

Definition LRUCache_Contains (key : K) : M LRUCache (bool * error) :=
  st ← LRUCache_Status;
  match gate "Contains" st with
  | Some e => mret (false, Some e)
  | None =>
      genShard ← gets cache_generateShardId;
      maxItems ← gets cache_maxItems;
      shardId ← must (genShard key maxItems);
      found ← onShard shardId (lruCacheShard_Contains key);
      mret (found, None)
  end.

Definition LRUCache_Peek (key : K) : M LRUCache (V * error) :=
  st ← LRUCache_Status;
  match gate "Peek" st with
  | Some e => mret ([] : V, Some e)
  | None =>
      genShard ← gets cache_generateShardId;
      maxItems ← gets cache_maxItems;
      shardId ← must (genShard key maxItems);
      r ← onShard shardId (lruCacheShard_Peek key);
      mret (r.1, None)
  end.

Definition LRUCache_Remove (key : K) : M LRUCache (bool * error) :=
  st ← LRUCache_Status;
  match gate "Remove" st with
  | Some e => mret (false, Some e)
  | None =>
      genShard ← gets cache_generateShardId;
      maxItems ← gets cache_maxItems;
      shardId ← must (genShard key maxItems);
      removed ← onShard shardId (lruCacheShard_Remove key);
      len_Add (-1);;
      mret (removed, None)
  end.

Fixpoint forShards {A} (m : M lruCacheShard A) (i n : nat) : M LRUCache unit :=
  match n with
  | O => mret ()
  | S n' => onShard (Z.of_nat i) m;; forShards m (S i) n'
  end.

Definition LRUCache_Purge : M LRUCache error :=
  st ← LRUCache_Status;
  match st with
  | Closed => mret (Some "cache is closed")
  | Started =>
      mret (Some "cache is started, must be stopped before calling method Purge()")
  | _ =>
      n ← gets (λ c, length (cache_shards c));
      forShards lruCacheShard_Purge 0 n;;
      mret None
  end.

(** The body of the loop of [Telemetry]: the five counters of one
    shard stored through the result pointer [telemetry]. *)
Definition storeShardTelemetry (shardTelemetry : option telemetry)
    : M (option telemetry) unit :=
  (v ← must (GetHitCounter shardTelemetry); SetHitCounter v);;
  (v ← must (GetMissCounter shardTelemetry); SetMissCounter v);;
  (v ← must (GetAddCounter shardTelemetry); SetAddCounter v);;
  (v ← must (GetUpdateCounter shardTelemetry); SetUpdateCounter v);;
  (v ← must (GetEvictCounter shardTelemetry); SetEvictCounter v).

Fixpoint Telemetry_loop (shards : list lruCacheShard) : M (option telemetry) unit :=
  match shards with
  | [] => mret ()
  | sh :: rest =>
      storeShardTelemetry (shard_telemetry sh);;
      Telemetry_loop rest
  end.

(** [Telemetry]: the named result [telemetry] starts as [nil]. *)
Definition LRUCache_Telemetry : M LRUCache (option telemetry * error) :=
  st ← LRUCache_Status;
  match st with
  | Closed => mret (None, Some "cache is closed")
  | _ =>
      tOn ← gets cache_telemetryOn;
      if negb tOn then mret (None, Some "cache telemetry is disabled")
      else
        shards ← gets cache_shards;
        r ← must (Telemetry_loop shards None);
        mret (r.2, None)
  end.

Definition LRUCache_TelemetryReset : M LRUCache error :=
  st ← LRUCache_Status;
  match st with
  | Closed => mret (Some "cache is closed")
  | _ =>
      tOn ← gets cache_telemetryOn;
      if negb tOn then mret (Some "cache telemetry is disabled")
      else
        n ← gets (λ c, length (cache_shards c));
        forShards lruCacheShard_TelemetryReset 0 n;;
        mret None
  end.

Definition LRUCache_Close : M LRUCache unit :=
  LRUCache_Stop;;
  modify (set_shards []);;
  modify (set_status Closed).

(** * Specification-level definitions

    The recency list seen as a sequence of nodes, the shard seen as a
    sequence of entries, and the executions the properties range over. *)

(** ** Fields of the node at an address *)

Definition nxt (h : heap) (a : loc) : ptr := n ← nodeAt h !! a; node_next n.
Definition prv (h : heap) (a : loc) : ptr := n ← nodeAt h !! a; node_prev n.
Definition own (h : heap) (a : loc) : ptr := n ← nodeAt h !! a; node_list n.
Definition data (h : heap) (a : loc) : option (K * V * Time) :=
  (λ n, (node_Key n, node_Value n, node_TTL n)) <$> nodeAt h !! a.

(** [path f a l z]: following the pointer field [f] from [a] goes
    through the nodes [l], in order, and then reaches [z]. *)
Fixpoint path (f : loc → ptr) (a : loc) (l : list loc) (z : loc) : Prop :=
  match l with
  | [] => f a = Some z
  | b :: l' => f a = Some b ∧ path f b l' z
  end.

(** The list at [ll], with sentinel [r], links exactly the nodes [l],
    front to back: [next] runs through them from the sentinel back to
    the sentinel, [prev] runs the other way, and each node names [ll]
    as its list. *)
Record dll (h : heap) (ll r : loc) (l : list loc) : Prop := mkDll {
  dll_list : listAt h !! ll = Some (mkList (Some r) (Z.of_nat (length l)));
  dll_next : path (nxt h) r l r;
  dll_prev : path (prv h) r (reverse l) r;
  dll_nodup : NoDup (r :: l);
  dll_own : ∀ a, a ∈ l → own h a = Some ll
}.

(** ** The shard as a sequence of entries *)

Definition entry : Type := K * V * Time.
Definition entry_key (e : entry) : K := e.1.1.
Definition entry_value (e : entry) : V := e.1.2.
Definition entry_ttl (e : entry) : Time := e.2.

(** The shard [s] holds the entries [al], most recent first, each at
    its address: the list links these addresses, the map sends each
    key to the address of its entry and has no other key, and the pool
    is empty (no operation puts a node back). *)
Record shard_repr (s : lruCacheShard) (ll r : loc) (al : list (loc * entry)) : Prop :=
  mkRepr {
  repr_list : shard_list s = Some ll;
  repr_pool : shard_nodesPool s = [];
  repr_dll : dll (shard_mem s) ll r (al.*1);
  repr_data : ∀ a e, (a, e) ∈ al → data (shard_mem s) a = Some e;
  repr_nodes : ∀ k p, shard_nodes s !! k = Some p ↔
                      ∃ a e, (a, e) ∈ al ∧ entry_key e = k ∧ p = Some a
}.

(** What no shard operation changes. *)
Definition same_cfg (s s' : lruCacheShard) : Prop :=
  shard_id s' = shard_id s ∧ shard_maxItems s' = shard_maxItems s ∧
  shard_loggingOn s' = shard_loggingOn s ∧
  shard_telemetryOn s' = shard_telemetryOn s ∧
  shard_telemetry s' = shard_telemetry s.

(** The hook calls one [if shard.telemetryOn { shard.onX(...) }] makes. *)
Definition emitted (s : lruCacheShard) (c : bool → hookCall) : list hookCall :=
  if shard_telemetryOn s then [c (shard_loggingOn s)] else [].

Definition is_evict (c : hookCall) : Prop :=
  match c with CallOnEvict _ _ => True | _ => False end.

(** The test of [CleanupShard] on an entry:
    [item.TTL.Before(now) && !item.TTL.IsZero()]. *)
Definition expired (now : Time) (e : entry) : bool :=
  Time_Before (entry_ttl e) now && negb (Time_IsZero (entry_ttl e)).

(** An entry the sweep removes when it visits the keys [order]. *)
Definition swept (now : Time) (order : list K) (p : loc * entry) : Prop :=
  expired now p.2 = true ∧ entry_key p.2 ∈ order.

Global Instance swept_dec now order p : Decision (swept now order p).
Proof. unfold swept. apply _. Defined.

(** An expiry that is set and strictly before [now]. *)
Definition past_expiry (now : Time) (e : entry) : Prop :=
  entry_ttl e ≠ 0 ∧ entry_ttl e < now.

Global Instance past_expiry_dec now e : Decision (past_expiry now e).
Proof. unfold past_expiry. apply _. Defined.

(** The nodes linked in the shard's list, and the entries they hold,
    front to back, read from the store. *)
Definition shard_elements (s : lruCacheShard) : list loc :=
  lruList_elements (shard_list s) (shard_mem s).

Definition shard_entries (s : lruCacheShard) : list entry :=
  omap (data (shard_mem s)) (shard_elements s).

(** ** Sequences of shard operations *)

Inductive shardOp :=
| OpSet (cacheLen : Z) (key : K) (value : V) (ttl : Time)
| OpGet (key : K)
| OpPeek (key : K)
| OpContains (key : K)
| OpRemove (key : K)
| OpCleanupShard (order : list K) (now : Time)
| OpPurge.

Definition runOp (op : shardOp) : M lruCacheShard unit :=
  match op with
  | OpSet cacheLen key value ttl => lruCacheShard_Set cacheLen key value ttl;; mret ()
  | OpGet key => lruCacheShard_Get key;; mret ()
  | OpPeek key => lruCacheShard_Peek key;; mret ()
  | OpContains key => lruCacheShard_Contains key;; mret ()
  | OpRemove key => lruCacheShard_Remove key;; mret ()
  | OpCleanupShard order now => CleanupShard_in order now;; mret ()
  | OpPurge => lruCacheShard_Purge
  end.

(** A sweep visits the keys of the map in some order. *)
Definition sweep_order (s : lruCacheShard) (order : list K) : Prop :=
  order ≡ₚ (map_to_list (shard_nodes s)).*1.

Definition op_enabled (s : lruCacheShard) (op : shardOp) : Prop :=
  match op with
  | OpCleanupShard order _ => sweep_order s order
  | _ => True
  end.

(** The shards a sequence of operations leads to from a new shard. *)
Inductive reachable : lruCacheShard → Prop :=
| reach_new config id s :
    newLRUCacheShard config id = Some s → reachable s
| reach_step s op s' :
    reachable s → op_enabled s op → runOp op s = Some ((), s') → reachable s'.

(** Map and list agree: as many keys as linked nodes (which is also
    what [ll.Len()] returns), every key of the map is that of a linked
    node it maps to, every linked node is what the map holds for its
    key. *)
Definition shard_consistent (s : lruCacheShard) : Prop :=
  let els := shard_elements s in
  size (shard_nodes s) = length els ∧
  lruList_Len (shard_list s) (shard_mem s) = Some (Z.of_nat (length els), shard_mem s) ∧
  (∀ k p, shard_nodes s !! k = Some p →
     ∃ a n, p = Some a ∧ a ∈ els ∧ nodeAt (shard_mem s) !! a = Some n ∧ node_Key n = k) ∧
  (∀ a, a ∈ els →
     ∃ n, nodeAt (shard_mem s) !! a = Some n ∧
          shard_nodes s !! node_Key n = Some (Some a)).

(** ** Concrete runs *)

(** The number of entries the shards hold. *)
Definition cache_size (c : LRUCache) : Z :=
  foldr (λ sh acc, Z.of_nat (size (shard_nodes sh)) + acc) 0 (cache_shards c).

(** A small configuration with the default routing: four shards and a
    threshold of four, so that every routed index is in range. *)
Definition smallConfig : Config :=
  mkConfig false true 4 4 (60 * 60 * 24) (60 * 5) generateKey generateShardId.

(** One shard, a threshold of two, telemetry and logging on. *)
Definition demoConfig : Config :=
  mkConfig true true 1 2 (60 * 60 * 24) (60 * 5) generateKey (λ _ _, Some 0).

(** The result of a computation on a new cache, with the counter
    [cache.len] and the number of entries it leaves. *)
Definition onNewCache {A} (config : Config) (m : M LRUCache A) : option (A * Z * Z) :=
  c ← NewLRUCache config;
  '(a, c') ← m c;
  Some (a, cache_len c', cache_size c').

(** The result of a computation on a new shard. *)
Definition onNewShard {A} (config : Config) (m : M lruCacheShard A) : option A :=
  s ← newLRUCacheShard config 0;
  fst <$> m s.

(** The shard a computation leaves, from a new shard. *)
Definition shardAfter {A} (config : Config) (m : M lruCacheShard A) : option lruCacheShard :=
  s ← newLRUCacheShard config 0;
  snd <$> m s.

(** The zero value of the shard struct, and the shard that the
    operations [ops] leave from a new shard of [demoConfig]. *)
Definition zeroShard : lruCacheShard :=
  mkShard 0 0 false false None [] ∅ None [] emptyHeap.

Definition runOps (ops : list shardOp) : M lruCacheShard unit :=
  foldr (λ op m, runOp op;; m) (mret ()) ops.

Definition demoShard (ops : list shardOp) : lruCacheShard :=
  default zeroShard (shardAfter demoConfig (runOps ops)).

(** * The rest of the interface, and the cache over its life *)

(** ** The rest of the list interface (telemetry.go tail) *)

Definition lruList_PushBack (ll lln : ptr) : M heap ptr :=
  r ← ll_root <$> loadList ll;
  b ← node_prev <$> loadNode r;
  lruList_insert ll lln b.

Definition lruList_InsertBefore (ll lln mark : ptr) : M heap ptr :=
  l ← node_list <$> loadNode mark;
  if decide (l ≠ ll) then mret None
  else
    p ← node_prev <$> loadNode mark;
    lruList_insert ll lln p.

Definition lruList_InsertAfter (ll lln mark : ptr) : M heap ptr :=
  l ← node_list <$> loadNode mark;
  if decide (l ≠ ll) then mret None
  else lruList_insert ll lln mark.

Definition lruList_MoveToBack (ll lln : ptr) : M heap unit :=
  l ← node_list <$> loadNode lln;
  if decide (l ≠ ll) then mret ()
  else
    r ← ll_root <$> loadList ll;
    b ← node_prev <$> loadNode r;
    if decide (b = lln) then mret ()
    else
      r ← ll_root <$> loadList ll;
      b ← node_prev <$> loadNode r;
      lruList_move ll lln b.

Definition lruList_MoveBefore (ll lln mark : ptr) : M heap unit :=
  l ← node_list <$> loadNode lln;
  if decide (l ≠ ll) then mret ()
  else if decide (lln = mark) then mret ()
  else
    lm ← node_list <$> loadNode mark;
    if decide (lm ≠ ll) then mret ()
    else
      p ← node_prev <$> loadNode mark;
      lruList_move ll lln p.

Definition lruList_MoveAfter (ll lln mark : ptr) : M heap unit :=
  l ← node_list <$> loadNode lln;
  if decide (l ≠ ll) then mret ()
  else if decide (lln = mark) then mret ()
  else
    lm ← node_list <$> loadNode mark;
    if decide (lm ≠ ll) then mret ()
    else lruList_move ll lln mark.

(** The loop of [PushBackList]:
    [for i, lln := other.Len(), other.Front(); i > 0; i, lln = i-1, lln.Next()],
    with [i] iterations left. *)
Fixpoint PushBackList_loop (ll : ptr) (i : nat) (lln : ptr) : M heap unit :=
  match i with
  | O => mret ()
  | S i' =>
      r ← ll_root <$> loadList ll;
      b ← node_prev <$> loadNode r;
      lruList_insert ll lln b;;
      lln' ← lruListNode_Next lln;
      PushBackList_loop ll i' lln'
  end.

Definition lruList_PushBackList (ll other : ptr) : M heap unit :=
  i ← lruList_Len other;
  lln ← lruList_Front other;
  PushBackList_loop ll (Z.to_nat i) lln.

(** The loop of [PushFrontList], from [other.Back()] along [Prev()]. *)
Fixpoint PushFrontList_loop (ll : ptr) (i : nat) (lln : ptr) : M heap unit :=
  match i with
  | O => mret ()
  | S i' =>
      r ← ll_root <$> loadList ll;
      lruList_insert ll lln r;;
      lln' ← lruListNode_Prev lln;
      PushFrontList_loop ll i' lln'
  end.

Definition lruList_PushFrontList (ll other : ptr) : M heap unit :=
  i ← lruList_Len other;
  lln ← lruList_Back other;
  PushFrontList_loop ll (Z.to_nat i) lln.

(** The nodes of the list back to front, read the way a caller
    iterates: [for e := ll.Back(); e != nil; e = e.Prev()]. *)
Fixpoint walk_back (fuel : nat) (e : ptr) (h : heap) : list loc :=
  match fuel, e with
  | S fuel', Some a =>
      match lruListNode_Prev e h with
      | Some (e', _) => a :: walk_back fuel' e' h
      | None => [a]
      end
  | _, _ => []
  end.

Definition lruList_elements_back (ll : ptr) (h : heap) : list loc :=
  match lruList_Back ll h with
  | Some (e, _) => walk_back (size (nodeAt h)) e h
  | None => []
  end.

(** ** Stores that differ in their links *)

(** [h'] is [h] but for the [next] and [prev] fields, which read [N]
    and [P]. *)
Definition relinked (h h' : heap) (N P : loc → ptr) : Prop :=
  (∀ y, nxt h' y = N y) ∧ (∀ y, prv h' y = P y) ∧
  (∀ y, own h' y = own h y) ∧ (∀ y, data h' y = data h y) ∧
  listAt h' = listAt h ∧
  (∀ y, is_Some (nodeAt h' !! y) ↔ is_Some (nodeAt h !! y)).

Global Instance lruList_eq_dec : EqDecision lruList.
Proof. solve_decision. Defined.

Global Instance path_dec f a l z : Decision (path f a l z).
Proof. revert a. induction l as [|b l IH]; intros a; simpl; apply _. Defined.

Global Instance dll_dec h ll r l : Decision (dll h ll r l).
Proof.
  refine (cast_if (decide (listAt h !! ll = Some (mkList (Some r) (Z.of_nat (length l))) ∧
                           path (nxt h) r l r ∧ path (prv h) r (reverse l) r ∧
                           NoDup (r :: l) ∧ Forall (λ a, own h a = Some ll) l)));
    abstract (rewrite Forall_forall in *; first [by split; intuition | by intros []; intuition]).
Defined.

(** ** A store for examples

    The list at address 0, with its sentinel at 0, links the nodes 1, 2
    and 3; the node 4 is in no list; the list at address 1, with its
    sentinel at 5, links the nodes 6 and 7. *)
Definition demoStore : heap :=
  default emptyHeap (snd <$>
    (ll ← newLRUList;
     a ← newLRUListNode; b ← newLRUListNode; c ← newLRUListNode; d ← newLRUListNode;
     lruList_PushFront ll c;; lruList_PushFront ll b;; lruList_PushFront ll a;;
     other ← newLRUList;
     e ← newLRUListNode; f ← newLRUListNode;
     lruList_PushFront other f;; lruList_PushFront other e) emptyHeap).

(** ** The cache over its life *)

(** The status in which the keyed operations go through. *)
Definition cache_open (c : LRUCache) : Prop :=
  cache_status c = Opened ∨ cache_status c = Started.

(** The routing function sends [key] to the shard [sh] at index [i]. *)
Definition routed (c : LRUCache) (key : K) (i : nat) (sh : lruCacheShard) : Prop :=
  cache_generateShardId c key (cache_maxItems c) = Some (Z.of_nat i) ∧
  cache_shards c !! i = Some sh.

(** A cache whose shards were all built by the shard operations, whose
    routing function sends every key to one of them, and whose
    telemetry switch is off (as [NewLRUCache] leaves it). *)
Definition cache_safe (c : LRUCache) : Prop :=
  Forall reachable (cache_shards c) ∧
  (∀ key, ∃ i, cache_generateShardId c key (cache_maxItems c) = Some (Z.of_nat i) ∧
               (i < length (cache_shards c))%nat) ∧
  cache_telemetryOn c = false.

(** The operations of the cache but [Close]; [COTick] is one firing of
    the cleanup ticker. *)
Inductive cacheOp :=
| COSet (key : K) (value : V)
| COSetWithTTL (now : Time) (key : K) (value : V) (duration : Z)
| COGet (key : K)
| COContains (key : K)
| COPeek (key : K)
| CORemove (key : K)
| COPurge
| COStart
| COStop
| COTick (clock : nat → Time)
| COTelemetry
| COTelemetryReset.

Definition runCacheOp (op : cacheOp) : M LRUCache unit :=
  match op with
  | COSet key value => LRUCache_Set key value;; mret ()
  | COSetWithTTL now key value duration => LRUCache_SetWithTTL now key value duration;; mret ()
  | COGet key => LRUCache_Get key;; mret ()
  | COContains key => LRUCache_Contains key;; mret ()
  | COPeek key => LRUCache_Peek key;; mret ()
  | CORemove key => LRUCache_Remove key;; mret ()
  | COPurge => LRUCache_Purge;; mret ()
  | COStart => LRUCache_Start
  | COStop => LRUCache_Stop
  | COTick clock => cleanupTick clock
  | COTelemetry => LRUCache_Telemetry;; mret ()
  | COTelemetryReset => LRUCache_TelemetryReset;; mret ()
  end.

Definition runCacheOps (ops : list cacheOp) : M LRUCache unit :=
  foldr (λ op m, runCacheOp op;; m) (mret ()) ops.



(** The zero value of the cache struct, and a new cache of [demoConfig]:
    one shard, to which every key is routed, and a threshold of two. *)
Definition zeroCache : LRUCache :=
  mkCache 0 0 0 false false 0 0 (λ _, None) (λ _ _, None) Opened false [].

Definition demoCache : LRUCache := default zeroCache (NewLRUCache demoConfig).

(** The operations that take no entry out of a shard one by one: all
    but [Remove] and the sweep. *)
Definition never_removes (op : cacheOp) : Prop :=
  match op with
  | CORemove _ | COTick _ => False
  | COSet key _ | COSetWithTTL _ key _ _ => key ≠ ""
  | _ => True
  end.

(** The shards have the threshold [m], the cache holds at most [m]
    entries and no more than its counter says, and the counter is [k]
    increments away from the end of the [int64] range. *)
Definition within_capacity (m k : Z) (c : LRUCache) : Prop :=
  cache_safe c ∧ Forall (λ sh, shard_maxItems sh = m) (cache_shards c) ∧
  cache_size c ≤ cache_len c ∧ cache_size c ≤ Z.max 0 m ∧
  cache_len c + k < 2 ^ 63 - 1.

(** * Proofs *)

(** ** The SHA-1 model on the standard test vectors *)

Example sha1_empty :
  Sha1.sum (bytes_of_string "") =
  Sha1.be_bytes 20 0xda39a3ee5e6b4b0d3255bfef95601890afd80709.
Proof. vm_compute. reflexivity. Qed.

Example sha1_abc :
  Sha1.sum (bytes_of_string "abc") =
  Sha1.be_bytes 20 0xa9993e364706816aba3e25717850c26c9cd0d89d.
Proof. vm_compute. reflexivity. Qed.

Example sha1_two_blocks :
  Sha1.sum (bytes_of_string
    "abcdbcdecdefdefgefghfghighijhijkijkljklmklmnlmnomnopnopq") =
  Sha1.be_bytes 20 0x84983e441c3bd26ebaae4aa1f95129e5e54670f1.
Proof. vm_compute. reflexivity. Qed.

(** ** Running the monad *)

Lemma bind_run {S A B} (m : M S A) (f : A → M S B) s a s' :
  m s = Some (a, s') → (m ≫= f) s = f a s'.
Proof. intros H. unfold mbind, M_bind. by rewrite H. Qed.

Lemma fmap_run {S A B} (m : M S A) (f : A → B) s a s' :
  m s = Some (a, s') → (f <$> m) s = Some (f a, s').
Proof. intros H. unfold fmap, M_fmap. by rewrite H. Qed.

Lemma loadNode_run h a n : nodeAt h !! a = Some n → loadNode (Some a) h = Some (n, h).
Proof. intros H. unfold loadNode. by rewrite H. Qed.

Lemma updNode_run h a n f :
  nodeAt h !! a = Some n →
  updNode (Some a) f h = Some ((), mkHeap (<[a := f n]> (nodeAt h)) (listAt h)).
Proof. intros H. unfold updNode. by rewrite H. Qed.

Ltac unfold_m :=
  unfold mbind, M_bind, fmap, M_fmap, mret, M_ret, loadNode, updNode, loadList, updList.
Ltac exec := unfold_m; repeat (progress (cbn; simplify_map_eq)).
Ltac views :=
  unfold nxt, prv, own, data; cbn; intros;
  rewrite ?lookup_insert; repeat case_decide; simplify_map_eq; try done.

Lemma insert_run h ll x r nx nr b lst :
  x ≠ r → b ≠ x →
  nodeAt h !! x = Some nx → nodeAt h !! r = Some nr → node_next nr = Some b →
  is_Some (nodeAt h !! b) → listAt h !! ll = Some lst →
  ∃ h', lruList_insert (Some ll) (Some x) (Some r) h = Some (Some x, h') ∧
    nxt h' x = Some b ∧ prv h' x = Some r ∧ own h' x = Some ll ∧
    nxt h' r = Some x ∧ prv h' b = Some x ∧
    (∀ y, y ≠ x → y ≠ r → nxt h' y = nxt h y) ∧
    (∀ y, y ≠ x → y ≠ b → prv h' y = prv h y) ∧
    (∀ y, y ≠ x → own h' y = own h y) ∧
    (∀ y, data h' y = data h y) ∧
    listAt h' = <[ll := with_len (ll_len lst + 1) lst]> (listAt h).
Proof.
  intros Hxr Hbx Hx Hr Hnb [nb Hb] Hl.
  unfold lruList_insert. destruct nx, nr, nb; simplify_eq/=.
  destruct (decide (b = r)) as [->|Hbr].
  - exec. eexists; split; [done|]. repeat split; views.
  - exec. eexists; split; [done|]. repeat split; views.
Qed.

Lemma remove_run h ll x nx p n lst :
  p ≠ x → n ≠ x →
  nodeAt h !! x = Some nx → node_prev nx = Some p → node_next nx = Some n →
  is_Some (nodeAt h !! p) → is_Some (nodeAt h !! n) → listAt h !! ll = Some lst →
  ∃ h', lruList_remove (Some ll) (Some x) h = Some ((), h') ∧
    nxt h' p = Some n ∧ prv h' n = Some p ∧
    nxt h' x = None ∧ prv h' x = None ∧ own h' x = None ∧
    (∀ y, y ≠ x → y ≠ p → nxt h' y = nxt h y) ∧
    (∀ y, y ≠ x → y ≠ n → prv h' y = prv h y) ∧
    (∀ y, y ≠ x → own h' y = own h y) ∧
    (∀ y, data h' y = data h y) ∧
    listAt h' = <[ll := with_len (ll_len lst - 1) lst]> (listAt h).
Proof.
  intros Hpx Hnx Hx Hp Hn [np Hnp] [nn Hnn] Hl.
  unfold lruList_remove. destruct nx, np, nn; simplify_eq/=.
  destruct (decide (p = n)) as [->|Hpn];
    exec; (eexists; split; [done|]); repeat split; views.
Qed.

Lemma move_run h ll x nx p n r nr b :
  x ≠ r → p ≠ x → n ≠ x → p ≠ r → n ≠ b → b ≠ x → b ≠ r → p ≠ n →
  nodeAt h !! x = Some nx → node_prev nx = Some p → node_next nx = Some n →
  nodeAt h !! r = Some nr → node_next nr = Some b →
  is_Some (nodeAt h !! p) → is_Some (nodeAt h !! n) → is_Some (nodeAt h !! b) →
  ∃ h', lruList_move (Some ll) (Some x) (Some r) h = Some ((), h') ∧
    nxt h' p = Some n ∧ prv h' n = Some p ∧
    nxt h' x = Some b ∧ prv h' x = Some r ∧
    nxt h' r = Some x ∧ prv h' b = Some x ∧
    (∀ y, y ≠ x → y ≠ p → y ≠ r → nxt h' y = nxt h y) ∧
    (∀ y, y ≠ x → y ≠ n → y ≠ b → prv h' y = prv h y) ∧
    (∀ y, own h' y = own h y) ∧
    (∀ y, data h' y = data h y) ∧
    listAt h' = listAt h.
Proof.
  intros Hxr Hpx Hnx Hpr Hnb Hbx Hbr Hpn Hx Hp Hn Hr Hb [np Hnp] [nn Hnn] [nb Hnb'].
  unfold lruList_move. rewrite decide_False by congruence.
  destruct nx, nr, np, nn, nb; simplify_eq/=.
  destruct (decide (n = r)); destruct (decide (p = b)); simplify_eq;
    exec; (eexists; split; [done|]); repeat split; views.
Qed.

(** ** Paths of pointers *)

Lemma snoc_view {A} (l : list A) : l = [] ∨ ∃ l' c, l = l' ++ [c].
Proof. induction l as [|c l _] using rev_ind; eauto. Qed.

Section path_lemmas.
Context (f : loc → ptr).

Lemma path_app a l1 b l2 z :
  path f a (l1 ++ b :: l2) z ↔ path f a l1 b ∧ path f b l2 z.
Proof.
  revert a. induction l1 as [|c l1 IH]; intros a; simpl; [done|].
  rewrite IH. tauto.
Qed.

Lemma path_first a l z : path f a l z → f a = Some (default z (head l)).
Proof. destruct l; simpl; tauto. Qed.

Lemma path_last a l z : path f a l z → f (default a (last l)) = Some z.
Proof.
  revert a. induction l as [|b l IH]; intros a; simpl; [done|].
  intros [_ H]. apply IH in H. rewrite last_cons. by destruct (last l).
Qed.

Lemma path_at a l1 x l2 z :
  path f a (l1 ++ x :: l2) z →
  f (default a (last l1)) = Some x ∧ f x = Some (default z (head l2)).
Proof.
  rewrite path_app. intros [H1 H2]. split; [by apply path_last|by apply path_first].
Qed.

Lemma path_alloc a l z y : path f a l z → y ∈ a :: l → is_Some (f y).
Proof.
  revert a. induction l as [|b l IH]; intros a; simpl.
  - intros H Hy. apply list_elem_of_singleton in Hy. subst y. eauto.
  - intros [H1 H2] Hy. apply elem_of_cons in Hy as [Hy|Hy]; [subst y|]; eauto.
Qed.

End path_lemmas.

Lemma path_frame f f' a l z :
  path f a l z → (∀ y, y ∈ a :: l → f' y = f y) → path f' a l z.
Proof.
  revert a. induction l as [|b l IH]; intros a Hp Hfr; simpl in *.
  - rewrite Hfr; [done|set_solver].
  - destruct Hp as [Hab Hp]. split; [rewrite Hfr; [done|set_solver]|].
    apply IH; [done|]. intros; apply Hfr; set_solver.
Qed.

(** Unlinking [x]: its predecessor now points past it. *)
Lemma path_remove f f' a l1 x l2 z :
  path f a (l1 ++ x :: l2) z →
  NoDup (a :: l1 ++ l2) →
  f' (default a (last l1)) = Some (default z (head l2)) →
  (∀ y, y ∈ a :: l1 ++ l2 → y ≠ default a (last l1) → f' y = f y) →
  path f' a (l1 ++ l2) z.
Proof.
  intros Hp Hnd Hp' Hfr.
  assert (∀ p, path f x l2 z → f' p = Some (default z (head l2)) →
            (∀ y, y ∈ l2 → f' y = f y) → path f' p l2 z) as Htail.
  { intros p Hx Hpn Hf2. destruct l2 as [|n l2]; simpl in *; [done|].
    split; [done|]. destruct Hx as [_ Hx]. eapply path_frame; [done|]. done. }
  destruct (snoc_view l1) as [->|(l1' & c & ->)].
  - simpl in *. destruct Hp as [_ Hp]. apply Htail; [done..|].
    intros y Hy. apply Hfr; [set_solver|]. intros ->.
    apply NoDup_cons in Hnd as [? _]. done.
  - rewrite last_snoc in *. simpl in *.
    rewrite <-app_assoc in Hp, Hnd. rewrite <-app_assoc. simpl in *.
    apply path_app in Hp as [Hp1 [_ Hp2]]. apply path_app. split.
    + eapply path_frame; [done|]. intros y Hy. apply Hfr; [set_solver|].
      intros ->. rewrite app_comm_cons in Hnd.
      apply NoDup_app in Hnd as [_ [Hnd _]]. apply (Hnd c); set_solver.
    + apply Htail; [done..|]. intros y Hy. apply Hfr; [set_solver|].
      intros ->. rewrite app_comm_cons in Hnd.
      apply NoDup_app in Hnd as [_ [_ Hnd]]. apply NoDup_cons in Hnd as [? _]. done.
Qed.

(** Linking [x] first. *)
Lemma path_push_front f f' a x l z :
  path f a l z →
  f' a = Some x → f' x = f a → (∀ y, y ∈ l → f' y = f y) →
  path f' a (x :: l) z.
Proof.
  intros Hp Ha Hx Hfr. simpl. split; [done|].
  destruct l as [|b l]; simpl in *; [congruence|].
  destruct Hp as [Hab Hp]. split; [congruence|].
  eapply path_frame; [done|]. intros; apply Hfr. set_solver.
Qed.

(** Linking [x] last. *)
Lemma path_push_back f f' a x l z :
  path f a l z →
  f' (default a (last l)) = Some x → f' x = Some z →
  (∀ y, y ∈ a :: l → y ≠ default a (last l) → f' y = f y) →
  NoDup (a :: l) →
  path f' a (l ++ [x]) z.
Proof.
  intros Hp Hb Hx Hfr Hnd.
  destruct (snoc_view l) as [->|(l' & c & ->)]; simpl in *; [done|].
  rewrite last_snoc in *. simpl in *. rewrite <-app_assoc. simpl.
  apply path_app in Hp as [Hp1 Hp2]. apply path_app. split; [|done].
  eapply path_frame; [done|]. intros y Hy. apply Hfr; [set_solver|].
  intros ->. rewrite app_comm_cons in Hnd.
  apply NoDup_app in Hnd as [_ [Hnd _]]. apply (Hnd c); set_solver.
Qed.

Lemma nxt_Some h a b :
  nxt h a = Some b → ∃ n, nodeAt h !! a = Some n ∧ node_next n = Some b.
Proof. unfold nxt. destruct (nodeAt h !! a); naive_solver. Qed.

Lemma prv_Some h a b :
  prv h a = Some b → ∃ n, nodeAt h !! a = Some n ∧ node_prev n = Some b.
Proof. unfold prv. destruct (nodeAt h !! a); naive_solver. Qed.

Lemma own_Some h a b :
  own h a = Some b → ∃ n, nodeAt h !! a = Some n ∧ node_list n = Some b.
Proof. unfold own. destruct (nodeAt h !! a); naive_solver. Qed.

Lemma nxt_alloc h a : is_Some (nxt h a) → is_Some (nodeAt h !! a).
Proof. unfold nxt. destruct (nodeAt h !! a); [eauto|]. by intros [? ?]. Qed.

Lemma dll_alloc h ll r l y : dll h ll r l → y ∈ r :: l → is_Some (nodeAt h !! y).
Proof. intros [] Hy. eapply nxt_alloc, path_alloc; eauto. Qed.

Lemma NoDup_reverse_cons (r : loc) l : NoDup (r :: l) → NoDup (r :: reverse l).
Proof.
  by rewrite reverse_Permutation.
Qed.

Lemma dll_frame h h' ll r l :
  dll h ll r l →
  listAt h' !! ll = listAt h !! ll →
  (∀ y, y ∈ r :: l → nxt h' y = nxt h y ∧ prv h' y = prv h y ∧ own h' y = own h y) →
  dll h' ll r l.
Proof.
  intros [Hl Hn Hp Hnd Ho] Hll Hfr. split; [congruence| | |done|].
  - eapply path_frame; [done|]. intros; by apply Hfr.
  - eapply path_frame; [done|]. intros y Hy. apply Hfr.
    rewrite elem_of_cons, elem_of_reverse in Hy. set_solver.
  - intros a Ha. destruct (Hfr a) as (_ & _ & ->); [set_solver|]. by apply Ho.
Qed.

Lemma dll_PushFront h ll r l x :
  dll h ll r l → x ∉ r :: l → is_Some (nodeAt h !! x) →
  ∃ h', lruList_PushFront (Some ll) (Some x) h = Some (Some x, h') ∧
        dll h' ll r (x :: l) ∧ (∀ y, data h' y = data h y).
Proof.
  intros [Hl Hn Hp Hnd Ho] Hx [nx Hnx].
  pose proof Hnd as [Hrl Hndl]%NoDup_cons.
  apply not_elem_of_cons in Hx as [Hxr Hxl].
  pose proof (path_first _ _ _ _ Hn) as Hb.
  set (b := default r (head l)) in *.
  assert (b ∈ r :: l) as Hbin.
  { unfold b. destruct l; simpl; set_solver. }
  destruct (nxt_Some _ _ _ Hb) as (nr & Hr & Hnr).
  assert (b ≠ x) as Hbx by (intros ->; set_solver).
  destruct (insert_run h ll x r nx nr b _ Hxr Hbx
              Hnx Hr Hnr ltac:(eapply nxt_alloc, path_alloc; eauto) Hl)
    as (h' & Hrun & Hxn & Hxp & Hxo & Hrn & Hbp & Fn & Fp & Fo & Fd & Fl).
  exists h'. split; [|split; [split|done]].
  - unfold lruList_PushFront. erewrite bind_run; [|by apply fmap_run; unfold loadList; rewrite Hl].
    done.
  - rewrite Fl, lookup_insert_eq. simpl. unfold with_len. simpl. f_equal. f_equal. lia.
  - eapply path_push_front; [done|done|congruence|].
    intros y Hy. apply Fn; intros ->; done.
  - rewrite reverse_cons. eapply path_push_back; [done| |done| |].
    + by rewrite last_reverse.
    + rewrite last_reverse. intros y Hy Hne. apply Fp; [|done].
      rewrite elem_of_cons, elem_of_reverse in Hy. intros ->. set_solver.
    + by apply NoDup_reverse_cons.
  - apply NoDup_cons. split; [set_solver|]. apply NoDup_cons. split; [set_solver|done].
  - intros a [->|Ha]%elem_of_cons; [done|]. rewrite Fo; [by apply Ho|]. intros ->; done.
Qed.

Lemma reverse_middle (l1 l2 : list loc) x :
  reverse (l1 ++ x :: l2) = reverse l2 ++ x :: reverse l1.
Proof. by rewrite reverse_app, reverse_cons, <-app_assoc. Qed.

Lemma default_last_in (r : loc) l : default r (last l) ∈ r :: l.
Proof.
  destruct (last l) as [p|] eqn:E; simpl; [|set_solver].
  apply last_Some_elem_of in E. set_solver.
Qed.

Lemma default_head_in (r : loc) l : default r (head l) ∈ l ++ [r].
Proof. destruct l; simpl; set_solver. Qed.

Lemma NoDup_middle (r : loc) l1 x l2 :
  NoDup (r :: l1 ++ x :: l2) →
  NoDup (r :: l1 ++ l2) ∧ (x ≠ r) ∧ (x ∉ l1) ∧ (x ∉ l2) ∧ (r ∉ l1) ∧ (r ∉ l2) ∧
  (∀ y, y ∈ l1 → y ∉ l2).
Proof.
  rewrite !NoDup_cons, !NoDup_app, !NoDup_cons. set_solver.
Qed.

(** The node [x] of the list and its two neighbours. *)
Lemma dll_neighbours h ll r l1 x l2 :
  dll h ll r (l1 ++ x :: l2) →
  ∃ nx, nodeAt h !! x = Some nx ∧
        node_prev nx = Some (default r (last l1)) ∧
        node_next nx = Some (default r (head l2)) ∧
        node_list nx = Some ll.
Proof.
  intros [Hl Hn Hp Hnd Ho].
  apply path_at in Hn as [_ Hn]. rewrite reverse_middle in Hp.
  apply path_at in Hp as [_ Hp]. rewrite head_reverse in Hp.
  specialize (Ho x ltac:(set_solver)).
  unfold nxt, prv, own in *. destruct (nodeAt h !! x) as [nx|]; [|done].
  exists nx. done.
Qed.

Lemma dll_Remove h ll r l1 x l2 :
  dll h ll r (l1 ++ x :: l2) →
  ∃ h', lruList_Remove (Some ll) (Some x) h = Some (Some x, h') ∧
        dll h' ll r (l1 ++ l2) ∧ (∀ y, data h' y = data h y) ∧
        (∀ y, is_Some (nodeAt h' !! y) ↔ is_Some (nodeAt h !! y)) ∧
        nxt h' x = None ∧ prv h' x = None ∧ own h' x = None.
Proof.
  intros Hd. destruct (dll_neighbours _ _ _ _ _ _ Hd) as (nx & Hx & Hxp & Hxn & Hxo).
  pose proof Hd as [Hl Hn Hp Hnd Ho].
  destruct (NoDup_middle _ _ _ _ Hnd) as (Hnd' & Hxr & Hx1 & Hx2 & Hr1 & Hr2 & H12).
  set (p := default r (last l1)) in *. set (n := default r (head l2)) in *.
  pose proof (default_last_in r l1) as Hpin. pose proof (default_head_in r l2) as Hnin.
  fold p in Hpin. fold n in Hnin.
  assert (p ≠ x) as Hpx by (intros ->; set_solver).
  assert (n ≠ x) as Hnx by (intros ->; set_solver).
  destruct (remove_run h ll x nx p n _ Hpx Hnx Hx Hxp Hxn
              ltac:(eapply dll_alloc; [done|set_solver])
              ltac:(eapply dll_alloc; [done|set_solver]) Hl)
    as (h' & Hrun & Hpn & Hnp & Ux & Upx & Uox & Fn & Fp & Fo & Fd & Fl).
  exists h'. split; [|split; [split|split; [done|split; [|done]]]].
  - unfold lruList_Remove.
    erewrite bind_run; [|by apply fmap_run, loadNode_run].
    rewrite Hxo, decide_True by done.
    erewrite bind_run; [|done]. done.
  - rewrite Fl, lookup_insert_eq. unfold with_len; simpl. do 2 f_equal.
    rewrite !length_app. simpl. lia.
  - eapply path_remove; [done|done|done|].
    intros y Hy Hne. apply Fn; [|done]. intros ->. set_solver.
  - rewrite reverse_app. rewrite reverse_middle in Hp.
    eapply path_remove; [done| | |].
    + rewrite <-reverse_app. by apply NoDup_reverse_cons.
    + by rewrite last_reverse, head_reverse.
    + rewrite last_reverse. intros y Hy Hne. apply Fp; [|done]. intros ->.
      rewrite <-reverse_app, elem_of_cons, elem_of_reverse in Hy. set_solver.
  - done.
  - intros a Ha. rewrite Fo; [apply Ho; set_solver|]. intros ->. set_solver.
  - intros y. specialize (Fd y). unfold data in Fd.
    destruct (nodeAt h' !! y), (nodeAt h !! y); simpl in *; try done; split; eauto.
Qed.

Lemma dll_MoveToFront h ll r l1 x l2 :
  dll h ll r (l1 ++ x :: l2) →
  ∃ h', lruList_MoveToFront (Some ll) (Some x) h = Some ((), h') ∧
        dll h' ll r (x :: l1 ++ l2) ∧ (∀ y, data h' y = data h y) ∧
        (∀ y, is_Some (nodeAt h' !! y) ↔ is_Some (nodeAt h !! y)).
Proof.
  intros Hd. destruct (dll_neighbours _ _ _ _ _ _ Hd) as (nx & Hx & Hxp & Hxn & Hxo).
  pose proof Hd as [Hl Hn Hp Hnd Ho].
  destruct (NoDup_middle _ _ _ _ Hnd) as (Hnd' & Hxr & Hx1 & Hx2 & Hr1 & Hr2 & H12).
  pose proof (path_first _ _ _ _ Hn) as Hb.
  destruct (nxt_Some _ _ _ Hb) as (nr & Hr & Hnr).
  unfold lruList_MoveToFront.
  erewrite bind_run; [|by apply fmap_run, loadNode_run].
  rewrite Hxo, decide_False by (intros ?; done).
  erewrite bind_run; [|by apply fmap_run; unfold loadList; rewrite Hl].
  erewrite bind_run; [|by apply fmap_run, loadNode_run].
  rewrite Hnr.
  destruct l1 as [|b l1]; simpl in Hnr |- *.
  { rewrite decide_True by done. exists h. done. }
  rewrite decide_False by (intros [= ->]; set_solver).
  erewrite bind_run; [|by apply fmap_run; unfold loadList; rewrite Hl].
  simpl in Hb.
  pose proof (default_head_in r l2) as Hnin.
  assert (default r (last (b :: l1)) ∈ b :: l1) as Hpin.
  { destruct (last (b :: l1)) eqn:E; simpl.
    - by apply last_Some_elem_of.
    - by apply last_None in E. }
  remember (default r (last (b :: l1))) as p eqn:Ep.
  remember (default r (head l2)) as n eqn:En.
  apply elem_of_app in Hnin. rewrite list_elem_of_singleton in Hnin.
  assert (b ∈ b :: l1) as Hbin by apply list_elem_of_here.
  assert (p ≠ x) as Hpx by (intros ->; done).
  assert (n ≠ x) as Hnx by (intros ->; destruct Hnin; [done|by subst]).
  assert (p ≠ r) as Hpr by (intros ->; done).
  assert (∀ y, y ∈ b :: l1 → n ≠ y) as Hn1.
  { intros y Hy ->. destruct Hnin as [?|E]; [by eapply H12|]. apply Hr1. by rewrite <-E. }
  assert (n ≠ b) as Hnb by auto.
  assert (b ≠ x) as Hbx by (intros ->; done).
  assert (b ≠ r) as Hbr by (intros ->; done).
  assert (p ≠ n) as Hpn by (intros E; exact (Hn1 p Hpin (eq_sym E))).
  assert (∀ y, y ∈ b :: l1 → y ∈ r :: (b :: l1) ++ x :: l2) as In1.
  { intros y Hy. apply elem_of_cons; right. apply elem_of_app; by left. }
  assert (n ∈ r :: (b :: l1) ++ x :: l2) as Hnin'.
  { destruct Hnin as [?| ->]; [|by left]. apply elem_of_cons; right.
    apply elem_of_app; right. by right. }
  simpl ll_root.
  destruct (move_run h ll x nx p n r nr b Hxr Hpx Hnx Hpr Hnb Hbx Hbr Hpn
              Hx Hxp Hxn Hr Hnr
              (dll_alloc _ _ _ _ _ Hd (In1 _ Hpin))
              (dll_alloc _ _ _ _ _ Hd Hnin')
              (dll_alloc _ _ _ _ _ Hd (In1 _ Hbin)))
    as (h' & Hrun & Hpn' & Hnp' & Hxb & Hxr' & Hrx & Hbx' & Fn & Fp & Fo & Fd & Fl).
  exists h'. split; [done|]. split; [split|split; [done|]].
  - rewrite Fl, Hl. do 3 f_equal. simpl. rewrite !length_app. simpl. lia.
  - set (f1 := λ y, if decide (y = p) then Some n else nxt h y).
    assert (path f1 r ((b :: l1) ++ l2) r) as H1.
    { eapply path_remove; [exact Hn|done| |].
      - rewrite <-Ep, <-En. unfold f1. by rewrite decide_True.
      - rewrite <-Ep. intros y Hy Hne. unfold f1. by rewrite decide_False. }
    eapply (path_push_front f1); [exact H1|done| |].
    + unfold f1. rewrite decide_False by done. congruence.
    + intros y Hy. unfold f1. case_decide as E; [by subst|].
      change (y ∈ (b :: l1) ++ l2) in Hy.
      apply Fn; [|done|]; intros ->.
      * apply elem_of_app in Hy as [?|?]; done.
      * apply elem_of_app in Hy as [?|?]; done.
  - set (g1 := λ y, if decide (y = n) then Some p else prv h y).
    rewrite reverse_middle in Hp.
    assert (path g1 r (reverse l2 ++ reverse (b :: l1)) r) as H1.
    { eapply path_remove; [exact Hp| | |].
      - rewrite <-reverse_app. by apply NoDup_reverse_cons.
      - rewrite last_reverse, head_reverse, <-Ep, <-En. unfold g1. by rewrite decide_True.
      - rewrite last_reverse, <-En. intros y Hy Hne. unfold g1. by rewrite decide_False. }
    rewrite <-reverse_app in H1.
    change (x :: b :: l1 ++ l2) with (x :: (b :: l1) ++ l2). rewrite reverse_cons.
    eapply (path_push_back g1); [exact H1| |done| |].
    + rewrite last_reverse. simpl. done.
    + rewrite last_reverse. simpl. intros y Hy Hne. unfold g1.
      rewrite elem_of_cons, elem_of_reverse in Hy.
      case_decide as E; [by subst|]. apply Fp; [|done|done]. intros ->.
      destruct Hy as [?|Hy]; [done|]. change (x ∈ (b :: l1) ++ l2) in Hy.
      apply elem_of_app in Hy as [?|?]; done.
    + by apply NoDup_reverse_cons.
  - apply NoDup_cons in Hnd' as [Hr' Hnd']. apply NoDup_cons; split.
    + intros [?|Hin]%elem_of_cons; [done|]. apply Hr'.
      change (r ∈ (b :: l1) ++ l2) in Hin. done.
    + apply NoDup_cons; split; [|done].
      change (x ∉ (b :: l1) ++ l2). intros [?|?]%elem_of_app; done.
  - intros a Ha. rewrite Fo. apply Ho.
    change (a ∈ x :: (b :: l1) ++ l2) in Ha.
    apply elem_of_cons in Ha as [->|[?|?]%elem_of_app].
    + apply elem_of_app; right; by left.
    + apply elem_of_app; by left.
    + apply elem_of_app; right; by right.
  - intros y. specialize (Fd y). unfold data in Fd.
    destruct (nodeAt h' !! y), (nodeAt h !! y); simpl in *; try done; split; eauto.
Qed.

Lemma dll_Back h ll r l :
  dll h ll r l → lruList_Back (Some ll) h = Some (last l, h).
Proof.
  intros [Hl Hn Hp Hnd Ho]. unfold lruList_Back.
  erewrite bind_run; [|by apply fmap_run; unfold loadList; rewrite Hl].
  simpl. apply path_first in Hp. rewrite head_reverse in Hp.
  destruct (prv_Some _ _ _ Hp) as (nr & Hr & Hnr).
  destruct l as [|a l].
  - by rewrite decide_True.
  - rewrite decide_False by (simpl; lia).
    erewrite bind_run; [|by apply fmap_run; unfold loadList; rewrite Hl].
    simpl ll_root. erewrite fmap_run; [|by apply loadNode_run].
    rewrite Hnr. destruct (last (a :: l)) eqn:E; [done|]. by apply last_None in E.
Qed.

Lemma walk_nil fuel h : walk fuel None h = [].
Proof. by destruct fuel. Qed.

Lemma walk_path h ll r fuel a l :
  (∃ lst, listAt h !! ll = Some lst ∧ ll_root lst = Some r) →
  path (nxt h) a l r →
  (∀ y, y ∈ a :: l → own h y = Some ll) →
  r ∉ l →
  (length l < fuel)%nat →
  walk fuel (Some a) h = a :: l.
Proof.
  intros (lst & Hl & Hroot).
  revert fuel a. induction l as [|c l IH]; intros fuel a Hp Ho Hr Hf.
  - destruct fuel as [|fuel]; [simpl in Hf; lia|]. simpl in Hp.
    destruct (nxt_Some _ _ _ Hp) as (na & Ha & Hna).
    destruct (own_Some _ _ _ (Ho a ltac:(left))) as (na' & Ha' & Hoa).
    assert (na' = na) as -> by congruence.
    simpl. unfold lruListNode_Next.
    erewrite bind_run; [|by apply fmap_run, loadNode_run].
    erewrite bind_run; [|by apply fmap_run, loadNode_run].
    rewrite Hoa, decide_True by done.
    erewrite bind_run; [|by apply fmap_run; unfold loadList; rewrite Hl].
    rewrite Hna, Hroot, decide_False by (intros ?; done).
    simpl. by rewrite walk_nil.
  - destruct fuel as [|fuel]; [simpl in Hf; lia|]. simpl in Hp. destruct Hp as [Hac Hp].
    destruct (nxt_Some _ _ _ Hac) as (na & Ha & Hna).
    destruct (own_Some _ _ _ (Ho a ltac:(left))) as (na' & Ha' & Hoa).
    assert (na' = na) as -> by congruence.
    simpl. unfold lruListNode_Next.
    erewrite bind_run; [|by apply fmap_run, loadNode_run].
    erewrite bind_run; [|by apply fmap_run, loadNode_run].
    rewrite Hoa, decide_True by done.
    erewrite bind_run; [|by apply fmap_run; unfold loadList; rewrite Hl].
    rewrite Hna, Hroot.
    rewrite decide_True by (intros [= ->]; apply Hr; left).
    simpl. f_equal. apply IH; [done| | |simpl in Hf; lia].
    + intros y Hy. apply Ho. by right.
    + intros ?. apply Hr. by right.
Qed.

Lemma NoDup_alloc_length (m : gmap loc lruListNode) (xs : list loc) :
  NoDup xs → (∀ y, y ∈ xs → is_Some (m !! y)) → (length xs ≤ size m)%nat.
Proof.
  intros Hnd Hin. rewrite <-(size_dom (D:=gset loc)).
  change (size (dom m)) with (length (elements (dom m))).
  apply submseteq_length, NoDup_submseteq; [done|].
  intros y Hy. apply elem_of_elements, elem_of_dom. by apply Hin.
Qed.

Lemma dll_elements h ll r l :
  dll h ll r l → lruList_elements (Some ll) h = l.
Proof.
  intros Hd. pose proof Hd as [Hl Hn Hp Hnd Ho].
  unfold lruList_elements, lruList_Front.
  erewrite bind_run; [|by apply fmap_run; unfold loadList; rewrite Hl].
  simpl ll_len. destruct l as [|a l].
  - rewrite decide_True by done. cbn. apply walk_nil.
  - rewrite decide_False by (simpl; lia).
    erewrite bind_run; [|by apply fmap_run; unfold loadList; rewrite Hl].
    simpl ll_root. simpl in Hn. destruct Hn as [Hra Hn].
    destruct (nxt_Some _ _ _ Hra) as (nr & Hr & Hnr).
    erewrite fmap_run; [|by apply loadNode_run]. rewrite Hnr.
    apply NoDup_cons in Hnd as [Hr' Hnd].
    eapply walk_path; [eauto|done|done| |].
    + intros ?. apply Hr'. by right.
    + pose proof (NoDup_alloc_length (nodeAt h) (r :: a :: l)) as Hlen.
      simpl in Hlen |- *. apply Nat.lt_le_trans with (S (S (length l))); [lia|].
      apply Hlen.
      * apply NoDup_cons; done.
      * intros y Hy. eapply dll_alloc; done.
Qed.

Lemma allocNode_run h n :
  let a := fresh (dom (nodeAt h)) in
  allocNode n h = Some (Some a, mkHeap (<[a := n]> (nodeAt h)) (listAt h)) ∧
  nodeAt h !! a = None.
Proof. split; [done|]. apply not_elem_of_dom, is_fresh. Qed.

Lemma newLRUList_run h :
  ∃ ll r h', newLRUList h = Some (Some ll, h') ∧ dll h' ll r [] ∧
    nodeAt h !! r = None ∧
    (∀ y, y ≠ r → nodeAt h' !! y = nodeAt h !! y).
Proof.
  destruct (allocNode_run h zeroNode) as [Ha Hr].
  set (r := fresh (dom (nodeAt h))) in *. set (ll := fresh (dom (listAt h))).
  exists ll, r. unfold newLRUList, newLRUListNode.
  erewrite bind_run; [|exact Ha].
  erewrite bind_run; [|unfold allocList; cbn; fold ll; reflexivity].
  clearbody r ll. clear Ha.
  exec. eexists. split; [done|]. split; [split|split; [done|]]; cbn.
  - by rewrite lookup_insert_eq.
  - unfold nxt; cbn. by rewrite lookup_insert_eq.
  - unfold prv; cbn. by rewrite lookup_insert_eq.
  - apply NoDup_cons; split; [apply not_elem_of_nil|apply NoDup_nil_2].
  - intros a Ha. by apply elem_of_nil in Ha.
  - intros y Hy. by rewrite !lookup_insert_ne.
Qed.

(** ** The shard operations on the sequence of entries *)

Lemma same_cfg_refl s : same_cfg s s.
Proof. by repeat split. Qed.

Lemma same_cfg_trans s1 s2 s3 : same_cfg s1 s2 → same_cfg s2 s3 → same_cfg s1 s3.
Proof. unfold same_cfg. intros (?&?&?&?&?) (?&?&?&?&?). repeat split; congruence. Qed.

Lemma inMem_run {A} (m : M heap A) s a h' :
  m (shard_mem s) = Some (a, h') → inMem m s = Some (a, set_mem h' s).
Proof. intros H. unfold inMem, zoom. by rewrite H. Qed.

Lemma data_Some h a e :
  data h a = Some e ↔
  ∃ n, nodeAt h !! a = Some n ∧ (node_Key n, node_Value n, node_TTL n) = e.
Proof. unfold data. destruct (nodeAt h !! a); simpl; naive_solver. Qed.

Lemma repr_locs_nodup s ll r al : shard_repr s ll r al → NoDup (al.*1).
Proof. intros [_ _ [_ _ _ Hnd _] _ _]. by apply NoDup_cons in Hnd as [_ ?]. Qed.

Lemma repr_key_inj s ll r al a e a' e' :
  shard_repr s ll r al → (a, e) ∈ al → (a', e') ∈ al →
  entry_key e = entry_key e' → a = a' ∧ e = e'.
Proof.
  intros Hs H1 H2 Hk. pose proof Hs as [_ _ _ Hd Hn].
  assert (shard_nodes s !! entry_key e = Some (Some a)) as E1 by (apply Hn; eauto).
  assert (shard_nodes s !! entry_key e = Some (Some a')) as E2 by (apply Hn; eauto).
  assert (a = a') as <- by congruence. split; [done|].
  apply Hd in H1, H2. congruence.
Qed.

Lemma repr_hit s ll r al k p :
  shard_repr s ll r al → shard_nodes s !! k = Some p →
  ∃ al1 a e al2, al = al1 ++ (a, e) :: al2 ∧ p = Some a ∧ entry_key e = k.
Proof.
  intros [_ _ _ _ Hn] Hk. apply Hn in Hk as (a & e & Hin & Hk & ->).
  apply list_elem_of_split in Hin as (al1 & al2 & ->). eauto 10.
Qed.

Lemma repr_miss s ll r al k :
  shard_repr s ll r al → shard_nodes s !! k = None → k ∉ entry_key <$> al.*2.
Proof.
  intros [_ _ _ _ Hn] Hk Hin.
  apply list_elem_of_fmap in Hin as (e & -> & Hin).
  apply list_elem_of_fmap in Hin as ([a e'] & -> & Hin).
  change ((a, e').2) with e' in Hk.
  assert (shard_nodes s !! entry_key e' = Some (Some a)) as E by (apply Hn; eauto).
  congruence.
Qed.

Lemma fst_middle (al1 al2 : list (loc * entry)) a e :
  (al1 ++ (a, e) :: al2).*1 = al1.*1 ++ a :: al2.*1.
Proof. by rewrite fmap_app. Qed.

Lemma removeItem_run s ll r al1 a e al2 :
  shard_repr s ll r (al1 ++ (a, e) :: al2) →
  ∃ s', removeItem (Some a) s = Some ((), s') ∧
        shard_repr s' ll r (al1 ++ al2) ∧
        shard_calls s' = shard_calls s ++ emitted s (λ lg, CallOnEvict lg (Some a)) ∧
        same_cfg s s' ∧
        shard_nodes s' = delete (entry_key e) (shard_nodes s) ∧
        (∀ y, data (shard_mem s') y = data (shard_mem s) y) ∧
        nodeAt (shard_mem s') !! a =
          Some (mkNode None None None (entry_key e) (entry_value e) (entry_ttl e)).
Proof.
  intros Hs. pose proof Hs as [Hl Hpool Hd Hdata Hn].
  pose proof (repr_locs_nodup _ _ _ _ Hs) as Hnd.
  rewrite fst_middle in Hd, Hnd.
  destruct (dll_Remove _ _ _ _ _ _ Hd) as (h' & Hrun & Hd' & Fd & Fa & Ux & Up & Uo).
  assert (data (shard_mem s) a = Some e) as Ha by (apply Hdata; set_solver).
  pose proof Ha as Ha'. rewrite <-Fd in Ha'.
  apply data_Some in Ha' as (n & Hn' & He).
  unfold removeItem.
  erewrite bind_run; [|reflexivity]. rewrite Hl.
  erewrite bind_run; [|by apply inMem_run].
  erewrite bind_run; [|by apply inMem_run, fmap_run, loadNode_run].
  erewrite bind_run; [|reflexivity].
  unfold call, modify. eexists. split; [reflexivity|].
  assert (node_Key n = entry_key e) as -> by (by subst e).
  split; [|split; [|split; [|split; [|split]]]].
  - destruct (shard_telemetryOn s) eqn:Eon; cbn; rewrite ?Eon; cbn;
      (split; cbn; [done|done|by rewrite fmap_app| |]).
    all: try (intros a' e' Hin; rewrite Fd; apply Hdata;
              apply elem_of_app in Hin as [?|?]; apply elem_of_app; [by left|right; by right]).
    all: intros k p; rewrite lookup_delete; case_decide as Ek.
    all: try (split; [done|]; intros (a' & e' & Hin & Hk & ->); exfalso;
      destruct (repr_key_inj _ _ _ _ a e a' e' Hs) as [<- <-];
        [apply elem_of_app; right; by left
        |apply elem_of_app in Hin as [?|?]; apply elem_of_app; [by left|right; by right]
        |congruence|];
      apply NoDup_app in Hnd as (_ & Hnd1 & Hnd2); apply NoDup_cons in Hnd2 as [Hnd2 _];
      apply elem_of_app in Hin as [Hin|Hin];
        [apply (Hnd1 a); [apply list_elem_of_fmap; by exists (a, e)|by left]
        |apply Hnd2; apply list_elem_of_fmap; by exists (a, e)]).
    all: rewrite Hn; split; intros (a' & e' & Hin & Hk & ->); exists a', e';
      (split; [|done]).
    all: try (apply elem_of_app in Hin as [?|[[= -> ->]|?]%elem_of_cons];
              [apply elem_of_app; by left|done|apply elem_of_app; by right]).
    all: apply elem_of_app in Hin as [?|?]; apply elem_of_app; [by left|right; by right].
  - unfold emitted. destruct (shard_telemetryOn s) eqn:Eon; cbn; rewrite ?Eon; cbn; [done|].
    by rewrite app_nil_r.
  - destruct (shard_telemetryOn s) eqn:Eon; cbn; rewrite ?Eon; cbn; by repeat split.
  - destruct (shard_telemetryOn s) eqn:Eon; cbn; rewrite ?Eon; cbn; done.
  - destruct (shard_telemetryOn s) eqn:Eon; cbn; rewrite ?Eon; cbn; done.
  - assert (nodeAt h' !! a = Some (mkNode None None None (entry_key e) (entry_value e)
                                     (entry_ttl e))) as Hfin.
    { unfold nxt, prv, own in Ux, Up, Uo. rewrite Hn' in Ux, Up, Uo. cbn in Ux, Up, Uo.
      rewrite Hn'. destruct n; cbn in *. subst. done. }
    destruct (shard_telemetryOn s) eqn:Eon; cbn; rewrite ?Eon; cbn; done.
Qed.

Lemma getItemFromPool_run s key value ttl :
  shard_nodesPool s = [] →
  let h := shard_mem s in
  let x := fresh (dom (nodeAt h)) in
  getItemFromPool key value ttl s =
    Some (Some x, set_mem (mkHeap (<[x := mkNode None None None key value ttl]> (nodeAt h))
                                  (listAt h)) s) ∧
  nodeAt h !! x = None.
Proof.
  intros Hpool h x. destruct (allocNode_run h zeroNode) as [Ha Hx]. fold x in Ha, Hx.
  split; [|done]. unfold getItemFromPool, Pool_Get.
  erewrite bind_run.
  2:{ erewrite bind_run. 2:{ reflexivity. } cbn beta. rewrite Hpool. apply inMem_run. exact Ha. }
  clearbody x. unfold inMem, zoom, mbind, M_bind, updNode, mret, M_ret. cbn.
  repeat (rewrite ?lookup_insert_eq, ?insert_insert_eq; cbn). done.
Qed.

(** Allocating a node leaves the list as it is. *)
Lemma dll_alloc_frame h ll r l x n :
  dll h ll r l → nodeAt h !! x = None →
  dll (mkHeap (<[x := n]> (nodeAt h)) (listAt h)) ll r l ∧ x ∉ r :: l.
Proof.
  intros Hd Hx.
  assert (x ∉ r :: l) as Hnin.
  { intros Hin. destruct (dll_alloc _ _ _ _ _ Hd Hin) as [? ?]. congruence. }
  split; [|done]. eapply dll_frame; [done|done|].
  intros y Hy. assert (y ≠ x) by (intros ->; done).
  unfold nxt, prv, own. cbn. by rewrite lookup_insert_ne.
Qed.

Lemma data_alloc h x n y :
  data (mkHeap (<[x := n]> (nodeAt h)) (listAt h)) y =
  if decide (y = x) then Some (node_Key n, node_Value n, node_TTL n) else data h y.
Proof.
  unfold data. cbn. case_decide as E.
  - subst. by rewrite lookup_insert_eq.
  - by rewrite lookup_insert_ne.
Qed.

Lemma last_snoc_split {A} (x : A) l : ∃ l' y, x :: l = l' ++ [y] ∧ last (x :: l) = Some y.
Proof.
  destruct (snoc_view (x :: l)) as [?|(l' & y & E)]; [done|].
  exists l', y. split; [done|]. rewrite E. apply last_snoc.
Qed.

Lemma shard_repr_ext s s' ll r al :
  shard_repr s ll r al →
  shard_list s' = shard_list s → shard_nodesPool s' = shard_nodesPool s →
  shard_mem s' = shard_mem s → shard_nodes s' = shard_nodes s →
  shard_repr s' ll r al.
Proof. intros [] E1 E2 E3 E4. split; rewrite ?E1, ?E2, ?E3, ?E4; done. Qed.

Lemma call_run s c :
  ∃ s', call c s = Some ((), s') ∧
    shard_list s' = shard_list s ∧ shard_nodesPool s' = shard_nodesPool s ∧
    shard_mem s' = shard_mem s ∧ shard_nodes s' = shard_nodes s ∧
    same_cfg s s' ∧ shard_calls s' = shard_calls s ++ emitted s c.
Proof.
  unfold call, modify, emitted. eexists. split; [done|].
  destruct (shard_telemetryOn s) eqn:E; cbn; rewrite ?E, ?app_nil_r; by repeat split.
Qed.

Lemma Set_new_run s ll r al cacheLen key value ttl :
  shard_repr s ll r al → shard_nodes s !! key = None →
  let x := fresh (dom (nodeAt (shard_mem s))) in
  let e : entry := (key, value, ttl) in
  ∃ s' al', lruCacheShard_Set cacheLen key value ttl s =
              Some ((bool_decide (shard_maxItems s ≤ cacheLen),
                     bool_decide (cacheLen < shard_maxItems s)), s') ∧
    shard_repr s' ll r al' ∧ same_cfg s s' ∧
    if bool_decide (shard_maxItems s ≤ cacheLen) then
      ∃ a e', (x, e) :: al = al' ++ [(a, e')] ∧
        shard_calls s' = shard_calls s ++ emitted s (λ lg, CallOnAdd lg (Some x))
                           ++ emitted s (λ lg, CallOnEvict lg (Some a)) ∧
        shard_nodes s' = delete (entry_key e') (<[key := Some x]> (shard_nodes s)) ∧
        nodeAt (shard_mem s') !! a =
          Some (mkNode None None None (entry_key e') (entry_value e') (entry_ttl e'))
    else
      al' = (x, e) :: al ∧
      shard_calls s' = shard_calls s ++ emitted s (λ lg, CallOnAdd lg (Some x)).
Proof.
  intros Hs Hk x e. pose proof Hs as [Hl Hpool Hd Hdata Hn].
  destruct (getItemFromPool_run s key value ttl Hpool) as [Hget Hx]. fold x in Hget, Hx.
  set (h1 := mkHeap _ _) in Hget.
  destruct (dll_alloc_frame _ _ _ _ x (mkNode None None None key value ttl) Hd Hx)
    as [Hd1 Hxnin]. fold h1 in Hd1.
  destruct (dll_PushFront h1 ll r _ x Hd1 Hxnin) as (h2 & Hpush & Hd2 & Fd2).
  { unfold h1; cbn. rewrite lookup_insert_eq. eauto. }
  unfold lruCacheShard_Set.
  erewrite bind_run; [|exact Hget].
  erewrite bind_run; [|reflexivity]. cbn [shard_nodes set_mem]. rewrite Hk.
  erewrite bind_run; [|reflexivity]. cbn [shard_list set_mem]. rewrite Hl.
  erewrite bind_run; [|by apply inMem_run].
  erewrite bind_run; [|reflexivity].
  match goal with |- context [call ?c] =>
    match goal with |- context [(_ ≫= _) ?s0] =>
      destruct (call_run s0 c) as (s2 & Hcall & E1 & E2 & E3 & E4 & Hc2 & Hcalls2);
      set (s1 := s0) in *
    end end.
  erewrite bind_run; [|exact Hcall].
  assert (shard_repr s1 ll r ((x, e) :: al)) as Hs1.
  { unfold s1. split; cbn.
    - done.
    - done.
    - done.
    - intros a' e' [[= -> ->]|Hin]%elem_of_cons; rewrite Fd2; unfold h1; rewrite data_alloc.
      + by rewrite decide_True.
      + rewrite decide_False; [by apply Hdata|]. intros ->. apply Hxnin. right.
        apply list_elem_of_fmap. by exists (x, e').
    - intros k p. rewrite lookup_insert. case_decide as Ek.
      + subst k. split.
        * intros [= <-]. exists x, e. split; [by left|done].
        * intros (a' & e' & [[= -> ->]|Hin]%elem_of_cons & Hk' & ->); [done|].
          exfalso. eapply (repr_miss _ _ _ _ key Hs Hk).
          apply list_elem_of_fmap. exists e'. split; [done|].
          apply list_elem_of_fmap. by exists (a', e').
      + rewrite Hn. split; intros (a' & e' & Hin & Hk' & ->); exists a', e'.
        * split; [by right|done].
        * apply elem_of_cons in Hin as [[= -> ->]|Hin]; [done|]. done. }
  assert (shard_repr s2 ll r ((x, e) :: al)) as Hs2 by (by eapply shard_repr_ext).
  assert (same_cfg s s1) as Hc1 by (by repeat split).
  assert (same_cfg s s2) as Hc by (by eapply same_cfg_trans).
  assert (emitted s1 = emitted s) as Hem.
  { unfold emitted. destruct Hc1 as (_ & _ & -> & -> & _). done. }
  assert (shard_calls s1 = shard_calls s) as Hcalls1 by done.
  assert (shard_nodes s1 = <[key := Some x]> (shard_nodes s)) as Hnodes1 by done.
  rewrite Hem, Hcalls1 in Hcalls2.
  assert (shard_maxItems s2 = shard_maxItems s) as Hmax by apply Hc.
  clearbody s1. clear Hcall. 
  erewrite bind_run; [|reflexivity]. rewrite Hmax.
  destruct (Z.geb_spec cacheLen (shard_maxItems s)) as [Hge|Hlt].
  - rewrite bool_decide_true by lia. rewrite (bool_decide_false (cacheLen < _)) by lia.
    destruct (last_snoc_split (x, e) al) as (al' & [a e'] & Eal & Hlast).
    rewrite Eal in Hs2.
    pose proof (removeItem_run s2 ll r al' a e' []) as Hrm. rewrite app_nil_r in Hrm.
    destruct (Hrm Hs2) as (s' & Hrun & Hs' & Hcalls & Hc' & Hdel & _ & Hfin).
    exists s', al'. split; [|split; [done|split; [by eapply same_cfg_trans|]]].
    + assert (removeItemOldest s2 = Some ((), s')) as Hold.
      { unfold removeItemOldest.
        erewrite bind_run; [|reflexivity]. rewrite (repr_list _ _ _ _ Hs2).
        erewrite bind_run; [|eapply inMem_run, dll_Back, (repr_dll _ _ _ _ Hs2)].
        rewrite fmap_app. cbn [fmap list_fmap fst]. rewrite last_snoc.
        rewrite decide_True by done.
        replace (set_mem (shard_mem s2) s2) with s2 by (by destruct s2). exact Hrun. }
      erewrite bind_run; [|exact Hold]. done.
    + exists a, e'. split; [done|]. split; [|split; [|done]].
      * rewrite Hcalls, Hcalls2, <-app_assoc. f_equal. f_equal.
        unfold emitted. destruct Hc as (_ & _ & -> & -> & _). done.
      * by rewrite Hdel, E4, Hnodes1.
  - rewrite bool_decide_false by lia. rewrite (bool_decide_true (cacheLen < _)) by lia.
    exists s2, ((x, e) :: al). done.
Qed.

(** Storing a value and an expiry in a node of the list. *)
Lemma updNode_payload h ll r l a n f :
  dll h ll r l → nodeAt h !! a = Some n →
  node_next (f n) = node_next n → node_prev (f n) = node_prev n →
  node_list (f n) = node_list n →
  let h' := mkHeap (<[a := f n]> (nodeAt h)) (listAt h) in
  updNode (Some a) f h = Some ((), h') ∧ dll h' ll r l ∧
  (∀ y, data h' y =
        if decide (y = a) then Some (node_Key (f n), node_Value (f n), node_TTL (f n))
        else data h y).
Proof.
  intros Hd Ha E1 E2 E3 h'. split; [by apply updNode_run|]. split.
  - eapply dll_frame; [done|done|]. intros y _. unfold nxt, prv, own, h'. cbn.
    destruct (decide (y = a)) as [->|?].
    + rewrite lookup_insert_eq, Ha. cbn. by rewrite E1, E2, E3.
    + by rewrite lookup_insert_ne.
  - intros y. unfold h'. by rewrite data_alloc.
Qed.

Lemma set_mem_id s : set_mem (shard_mem s) s = s.
Proof. by destruct s. Qed.

Lemma in_middle {A} (x : A) l1 l2 : x ∈ l1 ++ x :: l2.
Proof. apply elem_of_app. right. by left. Qed.

Lemma in_middle_inv {A} (y x : A) l1 l2 : y ∈ l1 ++ x :: l2 ↔ y = x ∨ y ∈ l1 ++ l2.
Proof. rewrite !elem_of_app, elem_of_cons. tauto. Qed.

(** Moving an entry to the front keeps the map and the data. *)
Lemma repr_move_front s s' ll r al1 a e al2 :
  shard_repr s ll r (al1 ++ (a, e) :: al2) →
  shard_list s' = shard_list s → shard_nodesPool s' = shard_nodesPool s →
  shard_nodes s' = shard_nodes s →
  dll (shard_mem s') ll r (a :: al1.*1 ++ al2.*1) →
  (∀ y, y ∈ (al1 ++ (a, e) :: al2).*1 → data (shard_mem s') y = data (shard_mem s) y) →
  shard_repr s' ll r ((a, e) :: al1 ++ al2).
Proof.
  intros [Hl Hpool Hd Hdata Hn] E1 E2 E4 Hd' Fd. split.
  - congruence.
  - congruence.
  - by rewrite fmap_cons, fmap_app.
  - intros a' e' Hin. rewrite Fd.
    + apply Hdata. apply in_middle_inv. by apply elem_of_cons in Hin as [[= -> ->]|?]; eauto.
    + apply list_elem_of_fmap. exists (a', e'). split; [done|].
      apply in_middle_inv. by apply elem_of_cons in Hin as [[= -> ->]|?]; eauto.
  - intros k p. rewrite E4, Hn. split; intros (a' & e' & Hin & Hk & ->); exists a', e'.
    + split; [|done]. apply in_middle_inv in Hin as [[= -> ->]|?]; [by left|by right].
    + split; [|done]. apply in_middle_inv. apply elem_of_cons in Hin as [[= -> ->]|?]; eauto.
Qed.

Lemma Get_hit_run s ll r al1 a e al2 :
  shard_repr s ll r (al1 ++ (a, e) :: al2) →
  ∃ s', lruCacheShard_Get (entry_key e) s = Some ((entry_value e, true), s') ∧
    shard_repr s' ll r ((a, e) :: al1 ++ al2) ∧ same_cfg s s' ∧
    shard_calls s' = shard_calls s ++ emitted s (λ lg, CallOnHit lg (Some a)).
Proof.
  intros Hs. pose proof Hs as [Hl Hpool Hd Hdata Hn].
  rewrite fst_middle in Hd.
  destruct (dll_MoveToFront _ _ _ _ _ _ Hd) as (h' & Hrun & Hd' & Fd & Fa).
  assert (shard_nodes s !! entry_key e = Some (Some a)) as Hk.
  { apply Hn. exists a, e. split; [apply in_middle|done]. }
  unfold lruCacheShard_Get.
  erewrite bind_run; [|reflexivity]. cbn beta. rewrite Hk.
  erewrite bind_run; [|reflexivity]. rewrite Hl.
  erewrite bind_run; [|by apply inMem_run].
  destruct (call_run (set_mem h' s) (λ lg, CallOnHit lg (Some a)))
    as (s2 & Hcall & E1 & E2 & E3 & E4 & Hc2 & Hcalls2).
  erewrite bind_run; [|exact Hcall].
  assert (data (shard_mem s2) a = Some e) as Ha.
  { rewrite E3. cbn. rewrite Fd. apply Hdata, in_middle. }
  apply data_Some in Ha as (n & Hn' & He).
  erewrite bind_run; [|by apply inMem_run, fmap_run, loadNode_run].
  rewrite set_mem_id. exists s2. split; [by subst e|]. split; [|split].
  - eapply repr_move_front; [exact Hs|done|done|done|by rewrite E3|].
    intros y _. rewrite E3. apply Fd.
  - eapply same_cfg_trans; [|exact Hc2]. by repeat split.
  - rewrite Hcalls2. done.
Qed.

Lemma miss_run s ll r al c :
  shard_repr s ll r al →
  ∃ s', call c s = Some ((), s') ∧ shard_repr s' ll r al ∧ same_cfg s s' ∧
    shard_calls s' = shard_calls s ++ emitted s c ∧
    shard_nodes s' = shard_nodes s ∧ shard_mem s' = shard_mem s ∧
    shard_list s' = shard_list s.
Proof.
  intros Hs. destruct (call_run s c) as (s' & Hcall & E1 & E2 & E3 & E4 & Hc & Hcalls).
  exists s'. split; [done|]. split; [by eapply shard_repr_ext|]. done.
Qed.

Lemma Get_miss_run s ll r al key :
  shard_repr s ll r al → shard_nodes s !! key = None →
  ∃ s', lruCacheShard_Get key s = Some (([], false), s') ∧
    shard_repr s' ll r al ∧ same_cfg s s' ∧
    shard_calls s' = shard_calls s ++ emitted s (λ lg, CallOnMiss lg key).
Proof.
  intros Hs Hk.
  destruct (miss_run s ll r al (λ lg, CallOnMiss lg key) Hs) as (s' & Hc & ? & ? & ? & _).
  exists s'. split; [|done]. unfold lruCacheShard_Get.
  erewrite bind_run; [|reflexivity]. cbn beta. rewrite Hk.
  erewrite bind_run; [|exact Hc]. done.
Qed.

Lemma Peek_hit_run s ll r al a e :
  shard_repr s ll r al → (a, e) ∈ al →
  ∃ s', lruCacheShard_Peek (entry_key e) s = Some ((entry_value e, true), s') ∧
    shard_repr s' ll r al ∧ same_cfg s s' ∧
    shard_calls s' = shard_calls s ++ emitted s (λ lg, CallOnHit lg (Some a)).
Proof.
  intros Hs Hin. pose proof Hs as [Hl Hpool Hd Hdata Hn].
  assert (shard_nodes s !! entry_key e = Some (Some a)) as Hk by (apply Hn; eauto).
  destruct (miss_run s ll r al (λ lg, CallOnHit lg (Some a)) Hs)
    as (s' & Hc & ? & ? & ? & _ & E3 & _).
  assert (data (shard_mem s') a = Some e) as Ha by (rewrite E3; by apply Hdata).
  apply data_Some in Ha as (n & Hn' & He).
  exists s'. split; [|done]. unfold lruCacheShard_Peek.
  erewrite bind_run; [|reflexivity]. cbn beta. rewrite Hk.
  erewrite bind_run; [|exact Hc].
  erewrite bind_run; [|by apply inMem_run, fmap_run, loadNode_run].
  rewrite set_mem_id. by subst e.
Qed.

Lemma Peek_miss_run s ll r al key :
  shard_repr s ll r al → shard_nodes s !! key = None →
  ∃ s', lruCacheShard_Peek key s = Some (([], false), s') ∧
    shard_repr s' ll r al ∧ same_cfg s s' ∧
    shard_calls s' = shard_calls s ++ emitted s (λ lg, CallOnMiss lg key).
Proof.
  intros Hs Hk.
  destruct (miss_run s ll r al (λ lg, CallOnMiss lg key) Hs) as (s' & Hc & ? & ? & ? & _).
  exists s'. split; [|done]. unfold lruCacheShard_Peek.
  erewrite bind_run; [|reflexivity]. cbn beta. rewrite Hk.
  erewrite bind_run; [|exact Hc]. done.
Qed.

Lemma Contains_hit_run s ll r al a e :
  shard_repr s ll r al → (a, e) ∈ al →
  ∃ s', lruCacheShard_Contains (entry_key e) s = Some (true, s') ∧
    shard_repr s' ll r al ∧ same_cfg s s' ∧
    shard_calls s' = shard_calls s ++ emitted s (λ lg, CallOnHit lg (Some a)).
Proof.
  intros Hs Hin. pose proof Hs as [Hl Hpool Hd Hdata Hn].
  assert (shard_nodes s !! entry_key e = Some (Some a)) as Hk by (apply Hn; eauto).
  destruct (miss_run s ll r al (λ lg, CallOnHit lg (Some a)) Hs)
    as (s' & Hc & ? & ? & ? & _).
  exists s'. split; [|done]. unfold lruCacheShard_Contains.
  erewrite bind_run; [|reflexivity]. cbn beta. rewrite Hk.
  erewrite bind_run; [|exact Hc]. done.
Qed.

Lemma Contains_miss_run s ll r al key :
  shard_repr s ll r al → shard_nodes s !! key = None →
  ∃ s', lruCacheShard_Contains key s = Some (false, s') ∧
    shard_repr s' ll r al ∧ same_cfg s s' ∧
    shard_calls s' = shard_calls s ++ emitted s (λ lg, CallOnMiss lg key).
Proof.
  intros Hs Hk.
  destruct (miss_run s ll r al (λ lg, CallOnMiss lg key) Hs) as (s' & Hc & ? & ? & ? & _).
  exists s'. split; [|done]. unfold lruCacheShard_Contains.
  erewrite bind_run; [|reflexivity]. cbn beta. rewrite Hk.
  erewrite bind_run; [|exact Hc]. done.
Qed.

Lemma Remove_hit_run s ll r al1 a e al2 :
  shard_repr s ll r (al1 ++ (a, e) :: al2) →
  ∃ s', lruCacheShard_Remove (entry_key e) s = Some (true, s') ∧
    shard_repr s' ll r (al1 ++ al2) ∧
    shard_calls s' = shard_calls s ++ emitted s (λ lg, CallOnEvict lg (Some a)) ∧
    same_cfg s s' ∧
    shard_nodes s' = delete (entry_key e) (shard_nodes s) ∧
    nodeAt (shard_mem s') !! a =
      Some (mkNode None None None (entry_key e) (entry_value e) (entry_ttl e)).
Proof.
  intros Hs. pose proof Hs as [Hl Hpool Hd Hdata Hn].
  assert (shard_nodes s !! entry_key e = Some (Some a)) as Hk.
  { apply Hn. exists a, e. split; [apply in_middle|done]. }
  destruct (removeItem_run _ _ _ _ _ _ _ Hs) as (s' & Hrun & ? & ? & ? & ? & _ & ?).
  exists s'. split; [|done]. unfold lruCacheShard_Remove.
  erewrite bind_run; [|reflexivity]. cbn beta. rewrite Hk.
  erewrite bind_run; [|exact Hrun]. done.
Qed.

Lemma Remove_miss_run s ll r al key :
  shard_repr s ll r al → shard_nodes s !! key = None →
  ∃ s', lruCacheShard_Remove key s = Some (false, s') ∧
    shard_repr s' ll r al ∧ same_cfg s s' ∧
    shard_calls s' = shard_calls s ++ emitted s (λ lg, CallOnMiss lg key) ∧
    shard_nodes s' = shard_nodes s ∧ shard_mem s' = shard_mem s ∧
    shard_list s' = shard_list s.
Proof.
  intros Hs Hk.
  destruct (miss_run s ll r al (λ lg, CallOnMiss lg key) Hs) as (s' & Hc & ?).
  exists s'. split; [|done]. unfold lruCacheShard_Remove.
  erewrite bind_run; [|reflexivity]. cbn beta. rewrite Hk.
  erewrite bind_run; [|exact Hc]. done.
Qed.

Lemma Set_upd_run s ll r al1 a e al2 cacheLen value ttl :
  shard_repr s ll r (al1 ++ (a, e) :: al2) →
  ∃ s', lruCacheShard_Set cacheLen (entry_key e) value ttl s = Some ((false, false), s') ∧
    shard_repr s' ll r ((a, (entry_key e, value, ttl)) :: al1 ++ al2) ∧ same_cfg s s' ∧
    shard_calls s' = shard_calls s ++ emitted s (λ lg, CallOnUpdate lg (Some a)).
Proof.
  intros Hs. pose proof Hs as [Hl Hpool Hd Hdata Hn].
  pose proof (repr_locs_nodup _ _ _ _ Hs) as Hnd. rewrite fst_middle in Hnd.
  destruct (getItemFromPool_run s (entry_key e) value ttl Hpool) as [Hget Hx].
  set (x := fresh _) in *. set (h1 := mkHeap _ _) in Hget.
  destruct (dll_alloc_frame _ _ _ _ x (mkNode None None None (entry_key e) value ttl) Hd Hx)
    as [Hd1 Hxnin]. fold h1 in Hd1. rewrite fst_middle in Hd1.
  destruct (dll_MoveToFront _ _ _ _ _ _ Hd1) as (h2 & Hmove & Hd2 & Fd2 & Fa2).
  assert (shard_nodes s !! entry_key e = Some (Some a)) as Hk.
  { apply Hn. exists a, e. split; [apply in_middle|done]. }
  assert (∀ y, y ∈ (al1 ++ (a, e) :: al2).*1 → data h2 y = data (shard_mem s) y) as F2.
  { intros y Hy. rewrite Fd2. unfold h1. rewrite data_alloc, decide_False; [done|].
    intros ->. apply Hxnin. by right. }
  assert (data h2 a = Some e) as Ha.
  { rewrite F2; [apply Hdata, in_middle|]. rewrite fst_middle. apply in_middle. }
  apply data_Some in Ha as (n2 & Hn2 & He).
  destruct (updNode_payload h2 ll r _ a n2 (with_Value value) Hd2 Hn2 eq_refl eq_refl eq_refl)
    as (Hu3 & Hd3 & F3).
  set (h3 := mkHeap _ _) in Hu3, Hd3, F3.
  assert (nodeAt h3 !! a = Some (with_Value value n2)) as Hn3.
  { unfold h3. cbn. by rewrite lookup_insert_eq. }
  destruct (updNode_payload h3 ll r _ a _ (with_TTL ttl) Hd3 Hn3 eq_refl eq_refl eq_refl)
    as (Hu4 & Hd4 & F4).
  set (h4 := mkHeap _ _) in Hu4, Hd4, F4.
  unfold lruCacheShard_Set.
  erewrite bind_run; [|exact Hget].
  erewrite bind_run; [|reflexivity]. cbn [shard_nodes set_mem]. rewrite Hk.
  erewrite bind_run; [|reflexivity]. cbn [shard_list set_mem]. rewrite Hl.
  erewrite bind_run; [|by apply inMem_run].
  erewrite bind_run; [|by apply inMem_run].
  erewrite bind_run; [|by apply inMem_run].
  match goal with |- context [(_ ≫= _) ?s0] => set (s1 := s0) end.
  destruct (call_run s1 (λ lg, CallOnUpdate lg (Some a)))
    as (s2 & Hcall & E1 & E2 & E3 & E4 & Hc2 & Hcalls2).
  erewrite bind_run; [|exact Hcall].
  exists s2. split; [done|]. split; [|split].
  - split.
    + by rewrite E1.
    + by rewrite E2.
    + rewrite E3, fmap_cons, fmap_app. exact Hd4.
    + intros a' e' Hin. rewrite E3. cbn [shard_mem s1 set_mem]. rewrite F4. cbn.
      apply elem_of_cons in Hin as [[= -> ->]|Hin].
      * rewrite decide_True by done. subst e. done.
      * assert (a' ≠ a) as Hne.
        { intros ->. apply NoDup_app in Hnd as (_ & H1 & H2). apply NoDup_cons in H2 as [H2 _].
          apply elem_of_app in Hin as [Hin|Hin].
          - apply (H1 a); [|by left]. apply list_elem_of_fmap. by exists (a, e').
          - apply H2. apply list_elem_of_fmap. by exists (a, e'). }
        rewrite decide_False by done. rewrite F3, decide_False by done.
        rewrite F2.
        -- apply Hdata. apply in_middle_inv. by right.
        -- apply list_elem_of_fmap. exists (a', e'). split; [done|].
           apply in_middle_inv. by right.
    + intros k p. rewrite E4. cbn [shard_nodes s1 set_mem]. rewrite Hn.
      split; intros (a' & e' & Hin & Hk' & ->).
      * apply in_middle_inv in Hin as [[= -> ->]|Hin].
        -- exists a, (entry_key e, value, ttl). split; [by left|done].
        -- exists a', e'. split; [by right|done].
      * apply elem_of_cons in Hin as [[= -> ->]|Hin].
        -- exists a, e. split; [apply in_middle|done].
        -- exists a', e'. split; [|done]. apply in_middle_inv. by right.
  - eapply same_cfg_trans; [|exact Hc2]. by repeat split.
  - rewrite Hcalls2. done.
Qed.

Lemma Purge_run s ll r al :
  shard_repr s ll r al →
  ∃ s' ll' r', lruCacheShard_Purge s = Some ((), s') ∧
    shard_repr s' ll' r' [] ∧ same_cfg s s' ∧ shard_calls s' = shard_calls s.
Proof.
  intros Hs. destruct (newLRUList_run (shard_mem s)) as (ll' & r' & h' & Hnew & Hd' & _).
  unfold lruCacheShard_Purge.
  erewrite bind_run; [|by apply inMem_run].
  exists (set_nodes ∅ (set_nodesPool Pool_New (set_list (Some ll') (set_mem h' s)))), ll', r'.
  split; [done|]. split; [|by repeat split]. split; cbn; try done.
  - intros a e Hin. by apply elem_of_nil in Hin.
  - intros k p. rewrite lookup_empty. split; [done|].
    intros (a & e & Hin & _). by apply elem_of_nil in Hin.
Qed.

Lemma newLRUCacheShard_run config id :
  ∃ s ll r, newLRUCacheShard config id = Some s ∧ shard_repr s ll r [] ∧
    shard_id s = id ∧ shard_maxItems s = cfg_MaxItems config ∧
    shard_loggingOn s = cfg_LoggingOn config ∧
    shard_telemetryOn s = cfg_TelemetryOn config ∧
    shard_telemetry s = Some newTelemetry ∧ shard_calls s = [].
Proof.
  destruct (newLRUList_run emptyHeap) as (ll & r & h & Hnew & Hd & _).
  unfold newLRUCacheShard. rewrite Hnew. cbn.
  eexists _, ll, r. split; [done|]. split; [|done]. split; cbn; try done.
  - intros a e Hin. by apply elem_of_nil in Hin.
  - intros k p. rewrite lookup_empty. split; [done|].
    intros (a & e & Hin & _). by apply elem_of_nil in Hin.
Qed.

Lemma list_filter_ext_in {A} (P1 P2 : A → Prop)
    `{!∀ x, Decision (P1 x), !∀ x, Decision (P2 x)} (l : list A) :
  (∀ x, x ∈ l → P1 x ↔ P2 x) → filter P1 l = filter P2 l.
Proof.
  induction l as [|x l IH]; intros Hext; [done|].
  rewrite !filter_cons. rewrite IH by (intros; apply Hext; by right).
  destruct (decide (P1 x)) as [H1|H1], (decide (P2 x)) as [H2|H2]; try done.
  - exfalso. apply H2, Hext; [by left|done].
  - exfalso. apply H1, Hext; [by left|done].
Qed.

Lemma list_filter_all {A} (P : A → Prop) `{!∀ x, Decision (P x)} (l : list A) :
  (∀ x, x ∈ l → P x) → filter P l = l.
Proof.
  induction l as [|x l IH]; intros Hall; [done|].
  rewrite filter_cons_True by (apply Hall; by left). f_equal. apply IH.
  intros; apply Hall. by right.
Qed.

Lemma CleanupShard_loop_run now order : ∀ s ll r al acc,
  shard_repr s ll r al →
  let al' := filter (λ p, ¬ swept now order p) al in
  let n := Z.of_nat (length al) - Z.of_nat (length al') in
  ∃ s' evs, CleanupShard_loop now order acc s = Some (acc + n, s') ∧
    shard_repr s' ll r al' ∧ same_cfg s s' ∧
    shard_calls s' = shard_calls s ++ evs ∧ Forall is_evict evs ∧
    Z.of_nat (length evs) = (if shard_telemetryOn s then n else 0).
Proof.
  induction order as [|k rest IH]; intros s ll r al acc Hs al' n.
  - assert (al' = al) as Eal.
    { apply list_filter_all. intros p _ [_ Hin]. by apply elem_of_nil in Hin. }
    exists s, []. unfold n. rewrite Eal.
    replace (Z.of_nat (length al) - Z.of_nat (length al)) with 0 by lia.
    rewrite Z.add_0_r, app_nil_r.
    split; [done|]. split; [done|]. split; [apply same_cfg_refl|].
    split; [done|]. split; [constructor|]. by destruct (shard_telemetryOn s).
  - cbn [CleanupShard_loop]. erewrite bind_run; [|reflexivity]. cbn beta.
    destruct (shard_nodes s !! k) as [item|] eqn:Hk.
    + destruct (repr_hit _ _ _ _ _ _ Hs Hk) as (al1 & a & e & al2 & -> & -> & <-).
      assert (data (shard_mem s) a = Some e) as Ha by (apply (repr_data _ _ _ _ Hs), in_middle).
      apply data_Some in Ha as (na & Hna & He).
      erewrite bind_run; [|by apply inMem_run, fmap_run, loadNode_run].
      rewrite set_mem_id.
      assert (node_TTL na = entry_ttl e) as -> by (by subst e).
      fold (expired now e).
      assert (∀ p, p ∈ al1 ++ al2 → entry_key p.2 ≠ entry_key e) as Hkeys.
      { intros [a' e'] Hin Heq. cbn in Heq.
        destruct (repr_key_inj _ _ _ _ a' e' a e Hs) as [-> ->]; [|apply in_middle|done|].
        { apply in_middle_inv. by right. }
        pose proof (repr_locs_nodup _ _ _ _ Hs) as Hnd. rewrite fst_middle in Hnd.
        apply NoDup_app in Hnd as (_ & H1 & H2). apply NoDup_cons in H2 as [H2 _].
        apply elem_of_app in Hin as [Hin|Hin].
        - apply (H1 a); [|by left]. apply list_elem_of_fmap. by exists (a, e).
        - apply H2. apply list_elem_of_fmap. by exists (a, e). }
      assert (filter (λ p, ¬ swept now (entry_key e :: rest) p) (al1 ++ al2) =
              filter (λ p, ¬ swept now rest p) (al1 ++ al2)) as Hrest.
      { apply list_filter_ext_in. intros p Hp. unfold swept.
        rewrite elem_of_cons. specialize (Hkeys p Hp). naive_solver. }
      destruct (expired now e) eqn:Hexp.
      * destruct (removeItem_run _ _ _ _ _ _ _ Hs) as (s1 & Hrun & Hs1 & Hcalls1 & Hc1 & _).
        erewrite bind_run; [|exact Hrun].
        destruct (IH s1 ll r (al1 ++ al2) (acc + 1) Hs1)
          as (s' & evs & Hloop & Hs' & Hc' & Hcalls' & Hev & Hlen).
        assert (al' = filter (λ p, ¬ swept now rest p) (al1 ++ al2)) as Eal.
        { unfold al'. rewrite filter_app, filter_cons_False.
          - by rewrite <-filter_app.
          - intros H. apply H. split; [done|by left]. }
        exists s', (emitted s (λ lg, CallOnEvict lg (Some a)) ++ evs).
        rewrite Hloop. unfold n. rewrite Eal. rewrite !length_app. cbn [length].
        split; [do 2 f_equal; lia|]. split; [done|].
        split; [by eapply same_cfg_trans|].
        split; [by rewrite Hcalls', Hcalls1, app_assoc|].
        split.
        { apply Forall_app. split; [|done]. unfold emitted.
          destruct (shard_telemetryOn s); repeat constructor. }
        rewrite ?length_app in Hlen |- *. rewrite Nat2Z.inj_add, Hlen.
        destruct Hc1 as (_ & _ & _ & -> & _). unfold emitted.
        destruct (shard_telemetryOn s); cbn [length]; rewrite ?length_app; lia.
      * destruct (IH s ll r (al1 ++ (a, e) :: al2) acc Hs)
          as (s' & evs & Hloop & Hs' & Hc' & Hcalls' & Hev & Hlen).
        assert (al' = filter (λ p, ¬ swept now rest p) (al1 ++ (a, e) :: al2)) as Eal.
        { unfold al'. apply list_filter_ext_in. intros p Hp. unfold swept. rewrite elem_of_cons.
          apply in_middle_inv in Hp as [->|Hp].
          - cbn. rewrite Hexp. naive_solver.
          - specialize (Hkeys p Hp). naive_solver. }
        exists s', evs. rewrite Hloop. unfold n. rewrite Eal. done.
    + destruct (IH s ll r al acc Hs) as (s' & evs & Hloop & Hs' & Hc' & Hcalls' & Hev & Hlen).
      assert (al' = filter (λ p, ¬ swept now rest p) al) as Eal.
      { unfold al'. apply list_filter_ext_in. intros [a e] Hp. unfold swept. rewrite elem_of_cons.
        cbn. assert (entry_key e ≠ k).
        { intros <-. assert (shard_nodes s !! entry_key e = Some (Some a)) as E.
          { apply (repr_nodes _ _ _ _ Hs). eauto. }
          congruence. }
        naive_solver. }
      exists s', evs. rewrite Hloop. unfold n. rewrite Eal. done.
Qed.

Lemma repr_elements s ll r al : shard_repr s ll r al → shard_elements s = al.*1.
Proof.
  intros [Hl _ Hd _ _]. unfold shard_elements. rewrite Hl. by apply dll_elements in Hd.
Qed.

Lemma repr_entries s ll r al : shard_repr s ll r al → shard_entries s = al.*2.
Proof.
  intros Hs. unfold shard_entries. rewrite (repr_elements _ _ _ _ Hs).
  pose proof (repr_data _ _ _ _ Hs) as Hdata. clear Hs.
  induction al as [|[a e] al IH]; [done|]. cbn.
  rewrite (Hdata a e) by (by left). cbn. f_equal. apply IH. intros; apply Hdata. by right.
Qed.

Lemma repr_map_perm s ll r al :
  shard_repr s ll r al →
  map_to_list (shard_nodes s) ≡ₚ (λ p : loc * entry, (entry_key p.2, Some p.1)) <$> al.
Proof.
  intros Hs. apply NoDup_Permutation.
  - apply NoDup_map_to_list.
  - apply (NoDup_fmap_1 (λ q : K * ptr, default 0%N q.2)).
    rewrite <-list_fmap_compose.
    replace (_ <$> al) with (al.*1); [by eapply repr_locs_nodup|].
    apply list_fmap_ext. by intros ? [? ?].
  - intros [k p]. rewrite elem_of_map_to_list, (repr_nodes _ _ _ _ Hs), list_elem_of_fmap.
    split.
    + intros (a & e & Hin & <- & ->). by exists (a, e).
    + intros ([a e] & [= -> ->] & Hin). eauto.
Qed.

Lemma repr_keys_perm s ll r al :
  shard_repr s ll r al → (map_to_list (shard_nodes s)).*1 ≡ₚ entry_key <$> al.*2.
Proof.
  intros Hs. rewrite (repr_map_perm _ _ _ _ Hs), <-!list_fmap_compose. done.
Qed.

Lemma repr_size s ll r al : shard_repr s ll r al → size (shard_nodes s) = length al.
Proof.
  intros Hs. rewrite <-length_map_to_list, (repr_map_perm _ _ _ _ Hs). apply length_fmap.
Qed.

Lemma repr_consistent s ll r al : shard_repr s ll r al → shard_consistent s.
Proof.
  intros Hs. unfold shard_consistent. rewrite (repr_elements _ _ _ _ Hs), length_fmap.
  split; [by eapply repr_size|]. split; [|split].
  - destruct Hs as [Hl _ [Hll _ _ _ _] _ _]. rewrite Hl. unfold lruList_Len.
    erewrite fmap_run; [|by unfold loadList; rewrite Hll]. cbn. by rewrite length_fmap.
  - intros k p Hk. apply (repr_nodes _ _ _ _ Hs) in Hk as (a & e & Hin & Hk & ->).
    pose proof (repr_data _ _ _ _ Hs a e Hin) as (n & Hn & He)%data_Some.
    exists a, n. split; [done|]. split; [apply list_elem_of_fmap; by exists (a, e)|].
    split; [done|]. by subst.
  - intros a ([a' e] & -> & Hin)%list_elem_of_fmap. cbn.
    pose proof (repr_data _ _ _ _ Hs a' e Hin) as (n & Hn & He)%data_Some.
    exists n. split; [done|]. apply (repr_nodes _ _ _ _ Hs). exists a', e.
    split; [done|]. by subst.
Qed.

(** Every operation runs to completion on a represented shard, and
    leaves a represented shard. *)
Lemma runOp_repr s ll r al op :
  shard_repr s ll r al →
  ∃ s' ll' r' al', runOp op s = Some ((), s') ∧ shard_repr s' ll' r' al' ∧ same_cfg s s'.
Proof.
  intros Hs. destruct op as [cacheLen key value ttl|key|key|key|key|order now|]; cbn [runOp].
  - destruct (shard_nodes s !! key) as [p|] eqn:Hk.
    + destruct (repr_hit _ _ _ _ _ _ Hs Hk) as (al1 & a & e & al2 & -> & -> & <-).
      destruct (Set_upd_run _ _ _ _ _ _ _ cacheLen value ttl Hs) as (s' & Hrun & Hs' & Hc & _).
      eexists s', ll, r, _. split; [by erewrite bind_run|split; [exact Hs'|done]].
    + destruct (Set_new_run _ _ _ _ cacheLen key value ttl Hs Hk)
        as (s' & al' & Hrun & Hs' & Hc & _).
      exists s', ll, r, al'. split; [by erewrite bind_run|done].
  - destruct (shard_nodes s !! key) as [p|] eqn:Hk.
    + destruct (repr_hit _ _ _ _ _ _ Hs Hk) as (al1 & a & e & al2 & -> & -> & <-).
      destruct (Get_hit_run _ _ _ _ _ _ _ Hs) as (s' & Hrun & Hs' & Hc & _).
      eexists s', ll, r, _. split; [by erewrite bind_run|split; [exact Hs'|done]].
    + destruct (Get_miss_run _ _ _ _ key Hs Hk) as (s' & Hrun & Hs' & Hc & _).
      exists s', ll, r, al. split; [by erewrite bind_run|done].
  - destruct (shard_nodes s !! key) as [p|] eqn:Hk.
    + destruct (repr_hit _ _ _ _ _ _ Hs Hk) as (al1 & a & e & al2 & -> & -> & <-).
      destruct (Peek_hit_run _ _ _ _ a e Hs (in_middle _ _ _)) as (s' & Hrun & Hs' & Hc & _).
      eexists s', ll, r, _. split; [by erewrite bind_run|split; [exact Hs'|done]].
    + destruct (Peek_miss_run _ _ _ _ key Hs Hk) as (s' & Hrun & Hs' & Hc & _).
      exists s', ll, r, al. split; [by erewrite bind_run|done].
  - destruct (shard_nodes s !! key) as [p|] eqn:Hk.
    + destruct (repr_hit _ _ _ _ _ _ Hs Hk) as (al1 & a & e & al2 & -> & -> & <-).
      destruct (Contains_hit_run _ _ _ _ a e Hs (in_middle _ _ _))
        as (s' & Hrun & Hs' & Hc & _).
      eexists s', ll, r, _. split; [by erewrite bind_run|split; [exact Hs'|done]].
    + destruct (Contains_miss_run _ _ _ _ key Hs Hk) as (s' & Hrun & Hs' & Hc & _).
      exists s', ll, r, al. split; [by erewrite bind_run|done].
  - destruct (shard_nodes s !! key) as [p|] eqn:Hk.
    + destruct (repr_hit _ _ _ _ _ _ Hs Hk) as (al1 & a & e & al2 & -> & -> & <-).
      destruct (Remove_hit_run _ _ _ _ _ _ _ Hs) as (s' & Hrun & Hs' & _ & Hc & _).
      eexists s', ll, r, _. split; [by erewrite bind_run|split; [exact Hs'|done]].
    + destruct (Remove_miss_run _ _ _ _ key Hs Hk) as (s' & Hrun & Hs' & Hc & _).
      exists s', ll, r, al. split; [by erewrite bind_run|done].
  - destruct (CleanupShard_loop_run now order s ll r al 0 Hs)
      as (s' & evs & Hrun & Hs' & Hc & _).
    eexists s', ll, r, _. split; [by unfold CleanupShard_in; erewrite bind_run|split; [exact Hs'|done]].
  - destruct (Purge_run _ _ _ _ Hs) as (s' & ll' & r' & Hrun & Hs' & Hc & _).
    exists s', ll', r', []. done.
Qed.

Lemma reachable_repr s : reachable s → ∃ ll r al, shard_repr s ll r al.
Proof.
  induction 1 as [config id s Hnew|s op s' _ (ll & r & al & Hs) _ Hrun].
  - destruct (newLRUCacheShard_run config id) as (s0 & ll & r & Hnew' & Hs & _).
    assert (s0 = s) as <- by congruence. eauto.
  - destruct (runOp_repr _ _ _ _ op Hs) as (s'' & ll' & r' & al' & Hrun' & Hs' & _).
    assert (s'' = s') as <- by congruence. eauto.
Qed.

Lemma expired_spec now e : expired now e = true ↔ past_expiry now e.
Proof.
  unfold expired, past_expiry, Time_Before, Time_IsZero.
  rewrite andb_true_iff, negb_true_iff, bool_decide_eq_true, bool_decide_eq_false. tauto.
Qed.

Lemma filter_fmap_snd (P : entry → Prop)
    `{!∀ e, Decision (P e)} `{!∀ p : loc * entry, Decision (P p.2)}
    (al : list (loc * entry)) :
  (filter (λ p, P p.2) al).*2 = filter P (al.*2).
Proof.
  induction al as [|[a e] al IH]; [done|].
  rewrite fmap_cons. cbn [snd]. destruct (decide (P e)) as [H1|H1].
  - rewrite (filter_cons_True (λ p, P p.2)), (filter_cons_True P) by done.
    by rewrite fmap_cons, IH.
  - rewrite (filter_cons_False (λ p, P p.2)), (filter_cons_False P) by done.
    by rewrite IH.
Qed.

Lemma length_filter_split {A} (P : A → Prop) `{!∀ x, Decision (P x)} (l : list A) :
  (length (filter P l) + length (filter (λ x, ¬ P x) l) = length l)%nat.
Proof. by rewrite <-length_app, filter_app_complement. Qed.

Lemma repr_nodes_empty s ll r al : shard_repr s ll r al → shard_nodes s = ∅ → al = [].
Proof.
  intros Hs He. apply nil_length_inv. rewrite <-(repr_size _ _ _ _ Hs), He.
  apply map_size_empty.
Qed.

Lemma repr_nodes_Some s ll r al a e :
  shard_repr s ll r al → (a, e) ∈ al → shard_nodes s !! entry_key e = Some (Some a).
Proof. intros Hs Hin. apply (repr_nodes _ _ _ _ Hs). eauto. Qed.

Lemma repr_nodes_None s ll r al k :
  shard_repr s ll r al → (∀ p, p ∈ al → entry_key p.2 ≠ k) → shard_nodes s !! k = None.
Proof.
  intros Hs Hk. destruct (shard_nodes s !! k) as [p|] eqn:E; [|done].
  apply (repr_nodes _ _ _ _ Hs) in E as (a & e & Hin & He & _).
  by destruct (Hk _ Hin).
Qed.

Lemma repr_keys_distinct s ll r al1 a e al2 p :
  shard_repr s ll r (al1 ++ (a, e) :: al2) → p ∈ al1 ++ al2 → entry_key p.2 ≠ entry_key e.
Proof.
  intros Hs Hin Heq. destruct p as [a' e']. cbn in Heq.
  destruct (repr_key_inj _ _ _ _ a' e' a e Hs) as [-> ->]; [|apply in_middle|done|].
  { apply in_middle_inv. by right. }
  pose proof (repr_locs_nodup _ _ _ _ Hs) as Hnd. rewrite fst_middle in Hnd.
  apply NoDup_app in Hnd as (_ & H1 & H2). apply NoDup_cons in H2 as [H2 _].
  apply elem_of_app in Hin as [Hin|Hin].
  - apply (H1 a); [|by left]. apply list_elem_of_fmap. by exists (a, e).
  - apply H2. apply list_elem_of_fmap. by exists (a, e).
Qed.

Lemma filter_key_middle s ll r al1 a e al2 :
  shard_repr s ll r (al1 ++ (a, e) :: al2) →
  filter (λ e', entry_key e' ≠ entry_key e) (al1 ++ (a, e) :: al2).*2 = (al1 ++ al2).*2.
Proof.
  intros Hs. rewrite <-(filter_fmap_snd (λ e', entry_key e' ≠ entry_key e)).
  f_equal. rewrite filter_app, filter_cons_False by (intros H; by apply H).
  rewrite <-filter_app. apply list_filter_all.
  intros p Hp. by eapply repr_keys_distinct.
Qed.

(** C4: after every operation of every sequence of shard operations
    (Set, Get, Peek, Contains, Remove, CleanupShard, Purge) from a new
    shard, the map has as many keys as the list has linked nodes (and
    as [Len()] returns), every key of the map resolves to a node linked
    in the list that holds this key, and every linked node is what the
    map holds for the node's key; and every operation runs to
    completion from such a shard. *)
Theorem shard_map_list_invariant s :
  reachable s →
  shard_consistent s ∧ ∀ op, ∃ s', runOp op s = Some ((), s').
Proof.
  intros (ll & r & al & Hs)%reachable_repr. split; [by eapply repr_consistent|].
  intros op. destruct (runOp_repr _ _ _ _ op Hs) as (s' & _ & _ & _ & Hrun & _). eauto.
Qed.

(** C10: when [Set] inserts a key into a shard that holds no entry while
    the cache-wide length it is given is at or above the threshold, the
    node it has just linked is the back of the list and is the one
    evicted: [Set] returns evicted = true (and added = false), the key
    is absent and the shard is empty again, the new node [x] is
    unlinked with its key, value and expiry still in it, and with
    telemetry on the add hook and then the evict hook are called on
    this same node. *)
Theorem Set_at_threshold_evicts_own_entry s cacheLen key value ttl :
  reachable s → shard_nodes s = ∅ → shard_maxItems s ≤ cacheLen →
  ∃ s' x,
    lruCacheShard_Set cacheLen key value ttl s = Some ((true, false), s') ∧
    shard_nodes s' !! key = None ∧ shard_nodes s' = ∅ ∧ shard_elements s' = [] ∧
    nodeAt (shard_mem s') !! x = Some (mkNode None None None key value ttl) ∧
    shard_calls s' = shard_calls s ++ emitted s (λ lg, CallOnAdd lg (Some x))
                       ++ emitted s (λ lg, CallOnEvict lg (Some x)) ∧
    (∃ s'', lruCacheShard_Contains key s' = Some (false, s'')).
Proof.
  intros (ll & r & al & Hs)%reachable_repr Hempty Hmax.
  pose proof (repr_nodes_empty _ _ _ _ Hs Hempty) as ->.
  assert (shard_nodes s !! key = None) as Hk by (by rewrite Hempty).
  destruct (Set_new_run _ _ _ _ cacheLen key value ttl Hs Hk)
    as (s' & al' & Hrun & Hs' & Hc & Hev).
  rewrite bool_decide_true in Hrun, Hev by done.
  rewrite bool_decide_false in Hrun by lia.
  destruct Hev as (a & e' & Eal & Hcalls & Hnodes & Hnode).
  apply (app_inj_tail []) in Eal as [<- [= <- <-]].
  assert (shard_nodes s' = ∅) as Hempty'.
  { apply map_size_empty_inv. by rewrite (repr_size _ _ _ _ Hs'). }
  destruct (Contains_miss_run _ _ _ _ key Hs') as (s'' & Hcont & _).
  { by rewrite Hempty'. }
  exists s', (fresh (dom (nodeAt (shard_mem s)))).
  split; [done|]. split; [by rewrite Hempty'|]. split; [done|].
  split; [by rewrite (repr_elements _ _ _ _ Hs')|]. split; [done|]. split; [done|]. eauto.
Qed.

(** C8: a sweep at instant [now], in whatever order it visits the keys,
    returns the number of entries whose expiry is set (non-zero) and
    strictly before [now], and leaves exactly the other entries, in
    their order, in list and map; an entry whose expiry is zero stays,
    whatever [now] is. *)
Theorem CleanupShard_removes_exactly_expired s now order :
  reachable s → sweep_order s order →
  ∃ s',
    CleanupShard_in order now s =
      Some (Z.of_nat (length (filter (past_expiry now) (shard_entries s))), s') ∧
    shard_entries s' = filter (λ e, ¬ past_expiry now e) (shard_entries s) ∧
    (∀ k p, shard_nodes s' !! k = Some p ↔
            shard_nodes s !! k = Some p ∧
            ∀ e, e ∈ shard_entries s → entry_key e = k → ¬ past_expiry now e) ∧
    (∀ e, e ∈ shard_entries s → entry_ttl e = 0 → e ∈ shard_entries s') ∧
    reachable s'.
Proof.
  intros Hreach Horder. pose proof Hreach as (ll & r & al & Hs)%reachable_repr.
  destruct (CleanupShard_loop_run now order s ll r al 0 Hs)
    as (s' & evs & Hrun & Hs' & Hc & _).
  assert (filter (λ p, ¬ swept now order p) al = filter (λ p, ¬ past_expiry now p.2) al)
    as Eal.
  { apply list_filter_ext_in. intros [a e] Hin. unfold swept. cbn. rewrite expired_spec.
    assert (entry_key e ∈ order).
    { rewrite Horder, (repr_keys_perm _ _ _ _ Hs).
      apply list_elem_of_fmap. exists e. split; [done|].
      apply list_elem_of_fmap. by exists (a, e). }
    tauto. }
  rewrite Eal in Hrun, Hs'.
  exists s'. rewrite (repr_entries _ _ _ _ Hs), (repr_entries _ _ _ _ Hs').
  split; [|split; [|split; [|split]]].
  - unfold CleanupShard_in. rewrite Hrun. do 2 f_equal.
    pose proof (length_filter_split (past_expiry now) (al.*2)) as Hlen.
    rewrite <-(filter_fmap_snd (λ e, ¬ past_expiry now e)) in Hlen.
    rewrite !length_fmap in Hlen. lia.
  - apply (filter_fmap_snd (λ e, ¬ past_expiry now e)).
  - intros k p. rewrite (repr_nodes _ _ _ _ Hs'), (repr_nodes _ _ _ _ Hs). split.
    + intros (a & e & [Hne Hin]%list_elem_of_filter & <- & ->). split; [eauto|].
      intros e' ([a' e''] & -> & Hin')%list_elem_of_fmap Hk. cbn in Hk |- *.
      destruct (repr_key_inj _ _ _ _ a e a' e'' Hs) as [_ <-]; done.
    + intros [(a & e & Hin & <- & ->) Hne]. exists a, e. split; [|done].
      apply list_elem_of_filter. split; [|done]. cbn. apply Hne; [|done].
      apply list_elem_of_fmap. by exists (a, e).
  - intros e Hin Hz. rewrite (filter_fmap_snd (λ e, ¬ past_expiry now e)).
    apply list_elem_of_filter. split; [|done]. intros [Hne _]. done.
  - eapply (reach_step s (OpCleanupShard order now)); [done|done|].
    cbn [runOp]. unfold CleanupShard_in. by erewrite bind_run.
Qed.

Lemma repr_nil_lookup s ll r k : shard_repr s ll r [] → shard_nodes s !! k = None.
Proof.
  intros Hs. eapply repr_nodes_None; [done|]. intros p Hp. by apply elem_of_nil in Hp.
Qed.

(** Inserting below the threshold. *)
Lemma Set_insert_run s ll r al cacheLen key value ttl :
  shard_repr s ll r al → shard_nodes s !! key = None → cacheLen < shard_maxItems s →
  ∃ s' x, lruCacheShard_Set cacheLen key value ttl s = Some ((false, true), s') ∧
    shard_repr s' ll r ((x, (key, value, ttl)) :: al) ∧ same_cfg s s'.
Proof.
  intros Hs Hk Hlt.
  destruct (Set_new_run _ _ _ _ cacheLen key value ttl Hs Hk) as (s' & al' & Hrun & Hs' & Hc & Hev).
  rewrite bool_decide_false in Hrun, Hev by lia.
  rewrite bool_decide_true in Hrun by lia. destruct Hev as [-> _].
  exists s', (fresh (dom (nodeAt (shard_mem s)))). done.
Qed.

(** Inserting at the threshold: the back of the list goes. *)
Lemma Set_evict_run s ll r al b cacheLen key value ttl :
  shard_repr s ll r (al ++ [b]) → shard_nodes s !! key = None → shard_maxItems s ≤ cacheLen →
  ∃ s' x, lruCacheShard_Set cacheLen key value ttl s = Some ((true, false), s') ∧
    shard_repr s' ll r ((x, (key, value, ttl)) :: al) ∧ same_cfg s s' ∧
    shard_calls s' = shard_calls s ++ emitted s (λ lg, CallOnAdd lg (Some x))
                       ++ emitted s (λ lg, CallOnEvict lg (Some b.1)).
Proof.
  intros Hs Hk Hge.
  destruct (Set_new_run _ _ _ _ cacheLen key value ttl Hs Hk) as (s' & al' & Hrun & Hs' & Hc & Hev).
  rewrite bool_decide_true in Hrun, Hev by lia.
  rewrite bool_decide_false in Hrun by lia.
  destruct Hev as (a & e' & Eal & Hcalls & _).
  rewrite app_comm_cons in Eal. apply app_inj_tail in Eal as [<- ->].
  exists s', (fresh (dom (nodeAt (shard_mem s)))). done.
Qed.

(** C5: with a threshold of 2, a new shard, three distinct keys A, B, C
    and the cache-wide count below the threshold when A and B are
    inserted and at the threshold when C is: inserting C evicts A, the
    least recently used, and leaves C and B; if A is read with [Get]
    after B is inserted and before C is, inserting C evicts B instead
    and leaves C and A. *)
Theorem lru_eviction_order config id s0 A B C vA vB vC tA tB tC c1 c2 c3 :
  newLRUCacheShard config id = Some s0 → cfg_MaxItems config = 2 →
  A ≠ B → A ≠ C → B ≠ C → c1 < 2 → c2 < 2 → 2 ≤ c3 →
  ∃ s1 s2,
    lruCacheShard_Set c1 A vA tA s0 = Some ((false, true), s1) ∧
    lruCacheShard_Set c2 B vB tB s1 = Some ((false, true), s2) ∧
    (∃ s3, lruCacheShard_Set c3 C vC tC s2 = Some ((true, false), s3) ∧
       shard_entries s3 = [(C, vC, tC); (B, vB, tB)] ∧
       shard_nodes s3 !! A = None ∧
       is_Some (shard_nodes s3 !! B) ∧ is_Some (shard_nodes s3 !! C)) ∧
    (∃ s2' s3', lruCacheShard_Get A s2 = Some ((vA, true), s2') ∧
       lruCacheShard_Set c3 C vC tC s2' = Some ((true, false), s3') ∧
       shard_entries s3' = [(C, vC, tC); (A, vA, tA)] ∧
       shard_nodes s3' !! B = None ∧
       is_Some (shard_nodes s3' !! A) ∧ is_Some (shard_nodes s3' !! C)).
Proof.
  intros Hnew Hmax HAB HAC HBC Hc1 Hc2 Hc3.
  destruct (newLRUCacheShard_run config id) as (s & ll & r & Hnew' & Hs0 & _ & Hm0 & _).
  assert (s = s0) as -> by congruence. rewrite Hmax in Hm0.
  destruct (Set_insert_run _ _ _ _ c1 A vA tA Hs0) as (s1 & x1 & Hr1 & Hs1 & Hcf1).
  { by eapply repr_nil_lookup. } { lia. }
  assert (shard_maxItems s1 = 2) as Hm1 by (destruct Hcf1 as (_ & -> & _); done).
  destruct (Set_insert_run _ _ _ _ c2 B vB tB Hs1) as (s2 & x2 & Hr2 & Hs2 & Hcf2).
  { eapply repr_nodes_None; [done|]. intros p [->|Hp%elem_of_nil]%elem_of_cons; done. }
  { lia. }
  assert (shard_maxItems s2 = 2) as Hm2 by (destruct Hcf2 as (_ & -> & _); done).
  exists s1, s2. split; [done|]. split; [done|]. split.
  - destruct (Set_evict_run s2 ll r [(x2, (B, vB, tB))] (x1, (A, vA, tA)) c3 C vC tC Hs2)
      as (s3 & x3 & Hr3 & Hs3 & _).
    { eapply repr_nodes_None; [done|].
      intros p [->|[->|Hp%elem_of_nil]%elem_of_cons]%elem_of_cons; done. }
    { lia. }
    exists s3. split; [done|]. split; [by rewrite (repr_entries _ _ _ _ Hs3)|]. split.
    + eapply repr_nodes_None; [done|].
      intros p [->|[->|Hp%elem_of_nil]%elem_of_cons]%elem_of_cons; done.
    + split.
      * eexists. apply (repr_nodes_Some _ _ _ _ x2 (B, vB, tB) Hs3). right; left.
      * eexists. apply (repr_nodes_Some _ _ _ _ x3 (C, vC, tC) Hs3). left.
  - destruct (Get_hit_run s2 ll r [(x2, (B, vB, tB))] x1 (A, vA, tA) [] Hs2)
      as (s2' & Hg & Hs2' & Hcf & _).
    assert (shard_maxItems s2' = 2) as Hm2' by (destruct Hcf as (_ & -> & _); done).
    destruct (Set_evict_run s2' ll r [(x1, (A, vA, tA))] (x2, (B, vB, tB)) c3 C vC tC Hs2')
      as (s3 & x3 & Hr3 & Hs3 & _).
    { eapply repr_nodes_None; [done|].
      intros p [->|[->|Hp%elem_of_nil]%elem_of_cons]%elem_of_cons; done. }
    { lia. }
    exists s2', s3. split; [done|]. split; [done|].
    split; [by rewrite (repr_entries _ _ _ _ Hs3)|]. split.
    + eapply repr_nodes_None; [done|].
      intros p [->|[->|Hp%elem_of_nil]%elem_of_cons]%elem_of_cons; done.
    + split.
      * eexists. apply (repr_nodes_Some _ _ _ _ x1 (A, vA, tA) Hs3). right; left.
      * eexists. apply (repr_nodes_Some _ _ _ _ x3 (C, vC, tC) Hs3). left.
Qed.

(** C7, amended: no read looks at the expiry: a key present in the map
    is a hit for [Get] and [Peek], with its value, and for [Contains],
    whatever its expiry and whatever the time; after a sweep at
    instant [now], the key is absent from [Contains] exactly when its
    expiry is set (non-zero) and strictly before [now]: a sweep run at
    the expiry instant itself, or on an entry with no expiry, keeps
    it. *)
Theorem expiry_enforced_by_sweep_only s key item n :
  reachable s → shard_nodes s !! key = Some item →
  loadNode item (shard_mem s) = Some (n, shard_mem s) →
  (∃ s1 s2 s3,
     lruCacheShard_Get key s = Some ((node_Value n, true), s1) ∧
     lruCacheShard_Peek key s = Some ((node_Value n, true), s2) ∧
     lruCacheShard_Contains key s = Some (true, s3)) ∧
  ∀ now order, sweep_order s order →
    ∃ cnt s' s'',
      CleanupShard_in order now s = Some (cnt, s') ∧
      lruCacheShard_Contains key s' =
        Some (bool_decide (node_TTL n = 0 ∨ now ≤ node_TTL n), s'').
Proof.
  intros Hreach Hk Hn. pose proof Hreach as (ll & r & al & Hs)%reachable_repr.
  destruct (repr_hit _ _ _ _ _ _ Hs Hk) as (al1 & a & e & al2 & -> & -> & <-).
  assert (data (shard_mem s) a = Some e) as Ha by (apply (repr_data _ _ _ _ Hs), in_middle).
  apply data_Some in Ha as (n' & Hn' & He).
  assert (n' = n) as ->.
  { unfold loadNode in Hn. rewrite Hn' in Hn. congruence. }
  assert (node_Value n = entry_value e) as -> by (by subst e).
  assert (node_TTL n = entry_ttl e) as -> by (by subst e).
  split.
  - destruct (Get_hit_run _ _ _ _ _ _ _ Hs) as (s1 & H1 & _).
    destruct (Peek_hit_run _ _ _ _ a e Hs (in_middle _ _ _)) as (s2 & H2 & _).
    destruct (Contains_hit_run _ _ _ _ a e Hs (in_middle _ _ _)) as (s3 & H3 & _).
    eauto 10.
  - intros now order Horder.
    destruct (CleanupShard_loop_run now order s ll r _ 0 Hs)
      as (s' & evs & Hrun & Hs' & _).
    assert (entry_key e ∈ order) as Hin.
    { rewrite Horder, (repr_keys_perm _ _ _ _ Hs).
      apply list_elem_of_fmap. exists e. split; [done|].
      apply list_elem_of_fmap. exists (a, e). split; [done|]. apply in_middle. }
    destruct (decide (past_expiry now e)) as [Hexp|Hexp].
    + rewrite bool_decide_false by (unfold past_expiry in Hexp; lia).
      destruct (Contains_miss_run _ _ _ _ (entry_key e) Hs') as (s'' & Hc & _).
      { eapply repr_nodes_None; [done|]. intros [a' e'] [Hns Hp]%list_elem_of_filter Heq.
        cbn in Heq. destruct (repr_key_inj _ _ _ _ a' e' a e Hs Hp (in_middle _ _ _) Heq)
          as [-> ->].
        apply Hns. split; [by apply expired_spec|done]. }
      unfold CleanupShard_in. eauto.
    + rewrite bool_decide_true by (unfold past_expiry in Hexp; lia).
      destruct (Contains_hit_run _ _ _ _ a e Hs') as (s'' & Hc & _).
      { apply list_elem_of_filter. split; [|apply in_middle].
        intros [Hx _]. by apply Hexp, expired_spec. }
      unfold CleanupShard_in. eauto.
Qed.

(** C9, amended: for a present key, [Remove] returns true, deletes the
    key from the map and unlinks its node from the list (the node
    keeps its key, its links are cleared), calls the evict hook once
    on this node when telemetry is on and no hook when it is off, and
    leaves the telemetry counters as they are; for an absent key,
    [Remove] returns false, leaves map and list as they are, calls the
    miss hook once on the key when telemetry is on, and leaves the
    counters as they are. *)
Theorem Remove_unlinks_and_calls_hooks s key :
  reachable s →
  match shard_nodes s !! key with
  | Some item =>
      ∃ s' a, item = Some a ∧
        lruCacheShard_Remove key s = Some (true, s') ∧
        shard_nodes s' = delete key (shard_nodes s) ∧
        shard_entries s' = filter (λ e, entry_key e ≠ key) (shard_entries s) ∧
        (∃ v t, nodeAt (shard_mem s') !! a = Some (mkNode None None None key v t)) ∧
        shard_calls s' = shard_calls s ++ emitted s (λ lg, CallOnEvict lg item) ∧
        shard_telemetry s' = shard_telemetry s
  | None =>
      ∃ s',
        lruCacheShard_Remove key s = Some (false, s') ∧
        shard_nodes s' = shard_nodes s ∧ shard_entries s' = shard_entries s ∧
        shard_calls s' = shard_calls s ++ emitted s (λ lg, CallOnMiss lg key) ∧
        shard_telemetry s' = shard_telemetry s
  end.
Proof.
  intros (ll & r & al & Hs)%reachable_repr.
  destruct (shard_nodes s !! key) as [item|] eqn:Hk.
  - destruct (repr_hit _ _ _ _ _ _ Hs Hk) as (al1 & a & e & al2 & -> & -> & <-).
    destruct (Remove_hit_run _ _ _ _ _ _ _ Hs) as (s' & Hrun & Hs' & Hcalls & Hc & Hdel & Hnode).
    exists s', a. split; [done|]. split; [done|]. split; [done|]. split.
    { rewrite (repr_entries _ _ _ _ Hs), (repr_entries _ _ _ _ Hs').
      symmetry. by eapply filter_key_middle. }
    split; [eauto|]. split; [done|]. apply Hc.
  - destruct (Remove_miss_run _ _ _ _ key Hs Hk)
      as (s' & Hrun & Hs' & Hc & Hcalls & En & Em & El).
    exists s'. split; [done|]. split; [done|]. split.
    { unfold shard_entries, shard_elements. by rewrite Em, El. }
    split; [done|]. apply Hc.
Qed.

(** * The claims on concrete runs *)

(** The routed index is below the modulus [maxItems] that
    [generateShardId] is given: it is an index into the shards only
    when there are at least [maxItems] of them. *)
Lemma sha1_sum_length msg : length (Sha1.sum msg) = 20%nat.
Proof. unfold Sha1.sum. by rewrite !length_app. Qed.

Lemma be_value_nonneg bs : Forall (λ b, 0 ≤ b) bs → 0 ≤ Sha1.be_value bs.
Proof.
  unfold Sha1.be_value. intros H.
  assert (∀ acc, 0 ≤ acc → 0 ≤ fold_left (λ acc b, acc * 256 + b) bs acc) as Hgen.
  { induction H as [|b bs Hb _ IH]; intros acc Hacc; simpl; [done|]. apply IH. lia. }
  by apply Hgen.
Qed.

Lemma be_bytes_nonneg n x : Forall (λ b, 0 ≤ b) (Sha1.be_bytes n x).
Proof.
  induction n as [|n IH]; simpl; constructor; [|done].
  apply Z.mod_pos_bound. lia.
Qed.

Lemma generateShardId_range key maxItems :
  0 < maxItems < 2 ^ 63 →
  ∃ i, generateShardId key maxItems = Some i ∧ 0 ≤ i < maxItems.
Proof.
  intros Hm. unfold generateShardId, Sha1.Uint64.
  rewrite decide_True by (rewrite sha1_sum_length; lia). cbn [mbind option_bind].
  assert (uint64 maxItems = maxItems) as ->.
  { unfold uint64. apply Z.mod_small. lia. }
  rewrite decide_False by lia.
  set (u := Sha1.be_value _).
  pose proof (Z.mod_pos_bound u maxItems ltac:(lia)) as Hu.
  eexists. split; [done|]. unfold int64.
  rewrite (Z.mod_small (_ + _)) by lia. lia.
Qed.

(** ** The cache counter under [Set] and the telemetry switch *)

(** [NewLRUCache] leaves [telemetryOn] unset whatever the configuration. *)
Lemma NewLRUCache_telemetryOn config c :
  NewLRUCache config = Some c → cache_telemetryOn c = false.
Proof.
  unfold NewLRUCache. destruct (decide _); [done|].
  destruct (newShards _ _); simpl; [|done]. by intros [= <-].
Qed.

(** With [telemetryOn] unset, [Telemetry] and [TelemetryReset] on a
    cache that is not closed return the error and change nothing. *)
Lemma LRUCache_Telemetry_disabled c :
  cache_telemetryOn c = false → cache_status c ≠ Closed →
  LRUCache_Telemetry c = Some ((None, Some "cache telemetry is disabled"), c) ∧
  LRUCache_TelemetryReset c = Some (Some "cache telemetry is disabled", c).
Proof.
  intros Ht Hst. unfold LRUCache_Telemetry, LRUCache_TelemetryReset, LRUCache_Status.
  unfold_m. cbn. by destruct (cache_status c); cbn; rewrite ?Ht.
Qed.

(** What [Set] does to the counter, from what the shard returns: the
    counter goes up by one unless the shard reports an eviction. *)
Lemma setEntry_run c key value ttl i sh r sh' :
  cache_generateShardId c key (cache_maxItems c) = Some i → 0 ≤ i →
  cache_shards c !! Z.to_nat i = Some sh →
  lruCacheShard_Set (cache_len c) key value ttl sh = Some (r, sh') →
  ∃ c', setEntry key value ttl c = Some ((key, None), c') ∧
    cache_shards c' = <[Z.to_nat i := sh']> (cache_shards c) ∧
    cache_len c' = if r.1 then int64 (int64 (cache_len c - 1) + 1)
                   else int64 (cache_len c + 1).
Proof.
  intros Hi Hpos Hsh Hset. unfold setEntry, onShard, len_Add, gets, must, modify. unfold_m.
  cbn. rewrite Hi. cbn. rewrite decide_True by done. rewrite Hsh, Hset.
  destruct r as [[] added]; cbn; eexists; (split; [reflexivity|]); cbn; done.
Qed.

(** What the shard's [Set] returns and what it does to the number of
    entries: [added] for a key that is absent below the threshold,
    [evicted] for one that is absent at the threshold, neither for a
    key that is present; the number of entries goes up by one exactly
    when [added]. *)
Lemma Set_flags s cacheLen key value ttl :
  reachable s →
  let absent := bool_decide (shard_nodes s !! key = None) in
  let full := bool_decide (shard_maxItems s ≤ cacheLen) in
  ∃ s', lruCacheShard_Set cacheLen key value ttl s
          = Some ((absent && full, absent && negb full), s') ∧
    reachable s' ∧
    Z.of_nat (size (shard_nodes s')) =
      Z.of_nat (size (shard_nodes s)) + (if absent && negb full then 1 else 0).
Proof.
  intros Hr absent full. destruct (reachable_repr s Hr) as (ll & r & al & Hs).
  assert (∀ res s', lruCacheShard_Set cacheLen key value ttl s = Some (res, s') →
            reachable s') as Hreach.
  { intros res s' Hrun. apply (reach_step s (OpSet cacheLen key value ttl)); [done|exact I|].
    simpl. unfold_m. by rewrite Hrun. }
  destruct (shard_nodes s !! key) as [p|] eqn:Hk; subst absent; simpl.
  - rewrite ?bool_decide_false by done. simpl.
    apply (repr_nodes _ _ _ _ Hs) in Hk as (a & e & Hin & <- & ->).
    apply list_elem_of_split in Hin as (al1 & al2 & ->).
    destruct (Set_upd_run _ _ _ _ _ _ _ cacheLen value ttl Hs) as (s' & Hrun & Hs' & _).
    exists s'. split; [done|]. split; [eauto|].
    rewrite (repr_size _ _ _ _ Hs), (repr_size _ _ _ _ Hs').
    rewrite !length_app; simpl; rewrite ?length_app; lia.
  - rewrite ?bool_decide_true by done. simpl.
    destruct (Set_new_run _ _ _ _ cacheLen key value ttl Hs Hk)
      as (s' & al' & Hrun & Hs' & _ & Hev).
    subst full. destruct (bool_decide (shard_maxItems s ≤ cacheLen)) eqn:Hfull.
    + apply bool_decide_eq_true in Hfull.
      rewrite bool_decide_false in Hrun by lia. simpl.
      exists s'. split; [done|]. split; [eauto|].
      destruct Hev as (a & e' & Eal & _).
      rewrite (repr_size _ _ _ _ Hs), (repr_size _ _ _ _ Hs').
      apply (f_equal length) in Eal. rewrite length_app in Eal. simpl in Eal. lia.
    + apply bool_decide_eq_false in Hfull.
      rewrite bool_decide_true in Hrun by lia. simpl.
      exists s'. split; [done|]. split; [eauto|].
      destruct Hev as [-> _].
      rewrite (repr_size _ _ _ _ Hs), (repr_size _ _ _ _ Hs'). simpl. lia.
Qed.

Lemma cache_size_insert shards i sh sh' :
  shards !! i = Some sh →
  foldr (λ sh acc, Z.of_nat (size (shard_nodes sh)) + acc) 0 (<[i := sh']> shards)
  = foldr (λ sh acc, Z.of_nat (size (shard_nodes sh)) + acc) 0 shards
    - Z.of_nat (size (shard_nodes sh)) + Z.of_nat (size (shard_nodes sh')).
Proof.
  revert i. induction shards as [|x shards IH]; intros [|i] H; simplify_eq/=; [lia|].
  rewrite (IH _ H). lia.
Qed.

(** [LRUCache.Set] on a started cache whose routing stays inside the
    shards: the number of entries goes up by one exactly for a key
    that is absent while the counter is below the threshold; the
    counter goes up by one unless an entry is evicted, so also for a
    key that is present. *)
Lemma LRUCache_Set_counts c key value i sh :
  gate "Set" (cache_status c) = None → key ≠ "" →
  cache_generateShardId c key (cache_maxItems c) = Some i → 0 ≤ i →
  cache_shards c !! Z.to_nat i = Some sh → reachable sh →
  - 2 ^ 63 < cache_len c < 2 ^ 63 - 1 →
  let absent := bool_decide (shard_nodes sh !! key = None) in
  let full := bool_decide (shard_maxItems sh ≤ cache_len c) in
  ∃ c', LRUCache_Set key value c = Some ((key, None), c') ∧
    cache_size c' = cache_size c + (if absent && negb full then 1 else 0) ∧
    cache_len c' = cache_len c + (if absent && full then 0 else 1).
Proof.
  intros Hgate Hkey Hi Hpos Hsh Hr Hlen absent full.
  destruct (Set_flags sh (cache_len c) key value 0 Hr) as (sh' & Hrun & _ & Hsize).
  destruct (setEntry_run c key value 0 i sh _ sh' Hi Hpos Hsh Hrun) as (c' & Hset & Hshards & Hl).
  exists c'. split; [|split].
  - unfold LRUCache_Set, LRUCache_Status, gets. unfold_m. cbn. rewrite Hgate. cbn.
    rewrite decide_False by done. cbn. by rewrite Hset.
  - unfold cache_size. rewrite Hshards, (cache_size_insert _ _ sh) by done.
    fold absent full in Hsize. lia.
  - rewrite Hl. simpl. fold absent full. unfold int64.
    destruct (absent && full).
    + rewrite (Z.mod_small (cache_len c - 1 + 2 ^ 63)) by lia.
      rewrite Z.mod_small by lia. lia.
    + rewrite Z.mod_small by lia. lia.
Qed.

(** C1 (code defect): under the default configuration (256 shards,
    maxItems 1000000) the key ["a"] is routed to index 370108, outside
    the 256 shards, and every keyed operation on it panics on the
    shard access. *)
Theorem default_routing_leaves_the_shards :
  generateShardId "a" (cfg_MaxItems defaultConfig) = Some 370108 ∧
  cfg_MaxShards defaultConfig = 256 ∧
  onNewCache defaultConfig (LRUCache_Set "a" [1]) = None ∧
  onNewCache defaultConfig (LRUCache_SetWithTTL 1000 "a" [1] 1) = None ∧
  onNewCache defaultConfig (LRUCache_Get "a") = None ∧
  onNewCache defaultConfig (LRUCache_Contains "a") = None ∧
  onNewCache defaultConfig (LRUCache_Peek "a") = None ∧
  onNewCache defaultConfig (LRUCache_Remove "a") = None.
Proof. vm_compute. done. Qed.

(** C2 (code defect): a second [Set] of a key already present raises
    the counter from 1 to 2 while the cache holds one entry. *)
Theorem Set_of_present_key_increments_len :
  onNewCache smallConfig (LRUCache_Set "a" [1];; LRUCache_Len) = Some (1, 1, 1) ∧
  onNewCache smallConfig (LRUCache_Set "a" [1];; LRUCache_Set "a" [2];; LRUCache_Len)
    = Some (2, 2, 1) ∧
  onNewCache smallConfig
    (LRUCache_Set "a" [1];; LRUCache_SetWithTTL 1000 "a" [2] 1;; LRUCache_Len)
    = Some (2, 2, 1).
Proof. vm_compute. done. Qed.

(** C3 (code defect): with telemetry enabled in the configuration,
    after a reset, one set, one hit and one miss, [Telemetry()]
    returns no snapshot and the error "cache telemetry is disabled";
    so does [TelemetryReset()].  Past that test, the loop of
    [Telemetry] stores through its nil result and panics. *)
Theorem Telemetry_is_disabled_whatever_the_configuration :
  cfg_TelemetryOn smallConfig = true ∧
  onNewCache smallConfig LRUCache_TelemetryReset
    = Some (Some "cache telemetry is disabled", 0, 0) ∧
  onNewCache smallConfig
    (LRUCache_Set "a" [1];; LRUCache_Get "a";; LRUCache_Get "b";; LRUCache_Telemetry)
    = Some ((None, Some "cache telemetry is disabled"), 1, 1) ∧
  (c ← NewLRUCache smallConfig; Telemetry_loop (cache_shards c) None) = None.
Proof. vm_compute. done. Qed.

(** C6 (code defect): the counter and the number of entries part:
    removing an absent key leaves -1 for 0 entries; a sweep that
    removes one expired entry leaves 2 for 0 entries; a purge leaves 1
    for 0 entries; a set of a present key leaves 2 for 1 entry. *)
Theorem len_departs_from_the_number_of_entries :
  onNewCache smallConfig (LRUCache_Remove "a") = Some ((false, None), -1, 0) ∧
  onNewCache smallConfig
    (LRUCache_SetWithTTL 1000 "a" [1] 1;; cleanupTick (λ _, 5000000000);; LRUCache_Len)
    = Some (2, 2, 0) ∧
  onNewCache smallConfig (LRUCache_Set "a" [1];; LRUCache_Stop;; LRUCache_Purge)
    = Some (None, 1, 0) ∧
  onNewCache smallConfig (LRUCache_Set "a" [1];; LRUCache_Set "a" [2];; LRUCache_Len)
    = Some (2, 2, 1).
Proof. vm_compute. done. Qed.

(** C7 as stated fails: an entry whose expiry is 5 is still present
    after a sweep run at instant 5, at its expiry. *)
Lemma sweep_at_expiry_keeps_the_entry :
  onNewShard demoConfig
    (lruCacheShard_Set 0 "k" [1] 5;; lruCacheShard_CleanupShard 5;;
     lruCacheShard_Contains "k")
  = Some true.
Proof. vm_compute. reflexivity. Qed.

(** C9 as stated fails: with telemetry on, removing a present key
    calls the evict hook. *)
Lemma Remove_calls_the_evict_hook :
  onNewShard demoConfig
    (lruCacheShard_Set 0 "k" [1] 0;; lruCacheShard_Remove "k";; gets shard_calls)
  = Some [CallOnAdd true (Some 1%N); CallOnEvict true (Some 1%N)].
Proof. vm_compute. reflexivity. Qed.

(** The scenario of C5 through the cache: threshold 2, one shard. *)
Example lru_eviction_order_through_the_cache :
  onNewCache demoConfig
    (LRUCache_Set "A" [1];; LRUCache_Set "B" [2];; LRUCache_Set "C" [3];;
     a ← LRUCache_Contains "A"; b ← LRUCache_Contains "B"; c ← LRUCache_Contains "C";
     mret (a.1, b.1, c.1))
  = Some ((false, true, true), 2, 2) ∧
  onNewCache demoConfig
    (LRUCache_Set "A" [1];; LRUCache_Set "B" [2];; LRUCache_Get "A";;
     LRUCache_Set "C" [3];;
     a ← LRUCache_Contains "A"; b ← LRUCache_Contains "B"; c ← LRUCache_Contains "C";
     mret (a.1, b.1, c.1))
  = Some ((true, false, true), 2, 2).
Proof. vm_compute. done. Qed.

(** ** The theorems at concrete inputs *)

Lemma shard_map_list_invariant_witness :
  reachable (demoShard [OpSet 0 "A" [1] 0; OpSet 1 "B" [2] 7; OpGet "A"]) ∧
  shard_consistent (demoShard [OpSet 0 "A" [1] 0; OpSet 1 "B" [2] 7; OpGet "A"]) ∧
  ∃ s', runOp OpPurge (demoShard [OpSet 0 "A" [1] 0; OpSet 1 "B" [2] 7; OpGet "A"])
        = Some ((), s').
Proof.
  assert (reachable (demoShard [OpSet 0 "A" [1] 0; OpSet 1 "B" [2] 7; OpGet "A"])) as H.
  { apply (reach_step (demoShard [OpSet 0 "A" [1] 0; OpSet 1 "B" [2] 7]) (OpGet "A"));
      [|exact I|vm_compute; reflexivity].
    apply (reach_step (demoShard [OpSet 0 "A" [1] 0]) (OpSet 1 "B" [2] 7));
      [|exact I|vm_compute; reflexivity].
    apply (reach_step (demoShard []) (OpSet 0 "A" [1] 0));
      [|exact I|vm_compute; reflexivity].
    apply (reach_new demoConfig 0). vm_compute. reflexivity. }
  split; [exact H|].
  destruct (shard_map_list_invariant _ H) as [Hc Hrun].
  split; [exact Hc|exact (Hrun OpPurge)].
Defined.

Lemma Set_at_threshold_evicts_own_entry_witness :
  reachable (demoShard []) ∧ shard_nodes (demoShard []) = ∅ ∧
  shard_maxItems (demoShard []) ≤ 2 ∧
  ∃ s' x,
    lruCacheShard_Set 2 "k" [1] 0 (demoShard []) = Some ((true, false), s') ∧
    shard_nodes s' !! "k" = None ∧ shard_nodes s' = ∅ ∧ shard_elements s' = [] ∧
    nodeAt (shard_mem s') !! x = Some (mkNode None None None "k" [1] 0) ∧
    shard_calls s' = shard_calls (demoShard [])
                       ++ emitted (demoShard []) (λ lg, CallOnAdd lg (Some x))
                       ++ emitted (demoShard []) (λ lg, CallOnEvict lg (Some x)) ∧
    (∃ s'', lruCacheShard_Contains "k" s' = Some (false, s'')).
Proof.
  assert (reachable (demoShard [])) as H.
  { apply (reach_new demoConfig 0). vm_compute. reflexivity. }
  assert (shard_nodes (demoShard []) = ∅) as He by (vm_compute; reflexivity).
  assert (shard_maxItems (demoShard []) ≤ 2) as Hm by (vm_compute; discriminate).
  split; [exact H|]. split; [exact He|]. split; [exact Hm|].
  exact (Set_at_threshold_evicts_own_entry (demoShard []) 2 "k" [1] 0 H He Hm).
Defined.

Lemma CleanupShard_removes_exactly_expired_witness :
  reachable (demoShard [OpSet 0 "A" [1] 5; OpSet 1 "B" [2] 0]) ∧
  sweep_order (demoShard [OpSet 0 "A" [1] 5; OpSet 1 "B" [2] 0]) ["B"; "A"] ∧
  ∃ s',
    CleanupShard_in ["B"; "A"] 6 (demoShard [OpSet 0 "A" [1] 5; OpSet 1 "B" [2] 0])
      = Some (1, s') ∧
    shard_entries s' = [("B", [2], 0)].
Proof.
  assert (reachable (demoShard [OpSet 0 "A" [1] 5; OpSet 1 "B" [2] 0])) as H.
  { apply (reach_step (demoShard [OpSet 0 "A" [1] 5]) (OpSet 1 "B" [2] 0));
      [|exact I|vm_compute; reflexivity].
    apply (reach_step (demoShard []) (OpSet 0 "A" [1] 5));
      [|exact I|vm_compute; reflexivity].
    apply (reach_new demoConfig 0). vm_compute. reflexivity. }
  assert (sweep_order (demoShard [OpSet 0 "A" [1] 5; OpSet 1 "B" [2] 0]) ["B"; "A"]) as Ho.
  { unfold sweep_order.
    assert ((map_to_list (shard_nodes (demoShard [OpSet 0 "A" [1] 5; OpSet 1 "B" [2] 0]))).*1
            ≡ₚ ["B"; "A"]) as ->; [|reflexivity].
    vm_compute. first [reflexivity | apply perm_swap]. }
  split; [exact H|]. split; [exact Ho|].
  destruct (CleanupShard_removes_exactly_expired _ 6 ["B"; "A"] H Ho)
    as (s' & Hrun & Hent & _).
  exists s'. split.
  - rewrite Hrun. vm_compute. reflexivity.
  - rewrite Hent. vm_compute. reflexivity.
Defined.

Lemma lru_eviction_order_witness :
  newLRUCacheShard demoConfig 0 = Some (demoShard []) ∧ cfg_MaxItems demoConfig = 2 ∧
  ∃ s1 s2,
    lruCacheShard_Set 0 "A" [1] 0 (demoShard []) = Some ((false, true), s1) ∧
    lruCacheShard_Set 1 "B" [2] 0 s1 = Some ((false, true), s2) ∧
    (∃ s3, lruCacheShard_Set 2 "C" [3] 0 s2 = Some ((true, false), s3) ∧
       shard_entries s3 = [("C", [3], 0); ("B", [2], 0)] ∧
       shard_nodes s3 !! "A" = None ∧
       is_Some (shard_nodes s3 !! "B") ∧ is_Some (shard_nodes s3 !! "C")) ∧
    (∃ s2' s3', lruCacheShard_Get "A" s2 = Some (([1], true), s2') ∧
       lruCacheShard_Set 2 "C" [3] 0 s2' = Some ((true, false), s3') ∧
       shard_entries s3' = [("C", [3], 0); ("A", [1], 0)] ∧
       shard_nodes s3' !! "B" = None ∧
       is_Some (shard_nodes s3' !! "A") ∧ is_Some (shard_nodes s3' !! "C")).
Proof.
  assert (newLRUCacheShard demoConfig 0 = Some (demoShard [])) as Hn
    by (vm_compute; reflexivity).
  split; [exact Hn|]. split; [reflexivity|].
  apply (lru_eviction_order demoConfig 0 (demoShard []) "A" "B" "C" [1] [2] [3] 0 0 0 0 1 2);
    [exact Hn|reflexivity|discriminate|discriminate|discriminate|lia|lia|lia].
Defined.

Lemma expiry_enforced_by_sweep_only_witness :
  reachable (demoShard [OpSet 0 "k" [1] 5]) ∧
  shard_nodes (demoShard [OpSet 0 "k" [1] 5]) !! "k" = Some (Some 1%N) ∧
  (∃ s1 s2 s3,
     lruCacheShard_Get "k" (demoShard [OpSet 0 "k" [1] 5]) = Some (([1], true), s1) ∧
     lruCacheShard_Peek "k" (demoShard [OpSet 0 "k" [1] 5]) = Some (([1], true), s2) ∧
     lruCacheShard_Contains "k" (demoShard [OpSet 0 "k" [1] 5]) = Some (true, s3)) ∧
  (∃ cnt s' s'',
     CleanupShard_in ["k"] 6 (demoShard [OpSet 0 "k" [1] 5]) = Some (cnt, s') ∧
     lruCacheShard_Contains "k" s' = Some (false, s'')) ∧
  (∃ cnt s' s'',
     CleanupShard_in ["k"] 5 (demoShard [OpSet 0 "k" [1] 5]) = Some (cnt, s') ∧
     lruCacheShard_Contains "k" s' = Some (true, s'')).
Proof.
  assert (reachable (demoShard [OpSet 0 "k" [1] 5])) as H.
  { apply (reach_step (demoShard []) (OpSet 0 "k" [1] 5));
      [|exact I|vm_compute; reflexivity].
    apply (reach_new demoConfig 0). vm_compute. reflexivity. }
  assert (shard_nodes (demoShard [OpSet 0 "k" [1] 5]) !! "k" = Some (Some 1%N)) as Hk
    by (vm_compute; reflexivity).
  assert (loadNode (Some 1%N) (shard_mem (demoShard [OpSet 0 "k" [1] 5]))
          = Some (mkNode (Some 0%N) (Some 0%N) (Some 0%N) "k" [1] 5,
                  shard_mem (demoShard [OpSet 0 "k" [1] 5]))) as Hn
    by (vm_compute; reflexivity).
  assert (sweep_order (demoShard [OpSet 0 "k" [1] 5]) ["k"]) as Ho.
  { unfold sweep_order.
    assert ((map_to_list (shard_nodes (demoShard [OpSet 0 "k" [1] 5]))).*1 = ["k"]) as ->
      by (vm_compute; reflexivity).
    reflexivity. }
  destruct (expiry_enforced_by_sweep_only _ "k" (Some 1%N) _ H Hk Hn) as [Hreads Hsweep].
  split; [exact H|]. split; [exact Hk|]. split; [exact Hreads|]. split.
  - exact (Hsweep 6 ["k"] Ho).
  - exact (Hsweep 5 ["k"] Ho).
Defined.

Lemma Remove_unlinks_and_calls_hooks_witness :
  reachable (demoShard [OpSet 0 "k" [1] 5]) ∧
  (∃ s' a,
     lruCacheShard_Remove "k" (demoShard [OpSet 0 "k" [1] 5]) = Some (true, s') ∧
     shard_nodes s' = delete "k" (shard_nodes (demoShard [OpSet 0 "k" [1] 5])) ∧
     shard_calls s' = shard_calls (demoShard [OpSet 0 "k" [1] 5])
                        ++ [CallOnEvict true (Some a)]) ∧
  (∃ s',
     lruCacheShard_Remove "j" (demoShard [OpSet 0 "k" [1] 5]) = Some (false, s') ∧
     shard_calls s' = shard_calls (demoShard [OpSet 0 "k" [1] 5])
                        ++ [CallOnMiss true "j"]).
Proof.
  assert (reachable (demoShard [OpSet 0 "k" [1] 5])) as H.
  { apply (reach_step (demoShard []) (OpSet 0 "k" [1] 5));
      [|exact I|vm_compute; reflexivity].
    apply (reach_new demoConfig 0). vm_compute. reflexivity. }
  split; [exact H|]. split.
  - pose proof (Remove_unlinks_and_calls_hooks _ "k" H) as Hr.
    assert (shard_nodes (demoShard [OpSet 0 "k" [1] 5]) !! "k" = Some (Some 1%N)) as Hk
      by (vm_compute; reflexivity).
    rewrite Hk in Hr. destruct Hr as (s' & a & Ha & Hrun & Hdel & _ & _ & Hcalls & _).
    exists s', a. split; [exact Hrun|]. split; [exact Hdel|].
    rewrite Hcalls, Ha. reflexivity.
  - pose proof (Remove_unlinks_and_calls_hooks _ "j" H) as Hr.
    assert (shard_nodes (demoShard [OpSet 0 "k" [1] 5]) !! "j" = None) as Hk
      by (vm_compute; reflexivity).
    rewrite Hk in Hr. destruct Hr as (s' & Hrun & _ & _ & Hcalls & _).
    exists s'. split; [exact Hrun|]. rewrite Hcalls. reflexivity.
Defined.

(** * Further properties of the code *)

(** ** Single stores to a link *)

Lemma relinked_refl h : relinked h h (nxt h) (prv h).
Proof. by repeat split. Qed.

Lemma load_next_run h a v :
  nxt h a = Some v → (node_next <$> loadNode (Some a)) h = Some (Some v, h).
Proof.
  intros (n & Hn & Hv)%nxt_Some. erewrite fmap_run; [|by apply loadNode_run]. by rewrite Hv.
Qed.

Lemma load_prev_run h a v :
  prv h a = Some v → (node_prev <$> loadNode (Some a)) h = Some (Some v, h).
Proof.
  intros (n & Hn & Hv)%prv_Some. erewrite fmap_run; [|by apply loadNode_run]. by rewrite Hv.
Qed.

Lemma load_list_run h a :
  is_Some (nodeAt h !! a) → (node_list <$> loadNode (Some a)) h = Some (own h a, h).
Proof.
  intros [n Hn]. erewrite fmap_run; [|by apply loadNode_run]. unfold own. by rewrite Hn.
Qed.

Lemma set_next_run h0 h a v N P :
  relinked h0 h N P → is_Some (nodeAt h !! a) →
  ∃ h', updNode (Some a) (with_next v) h = Some ((), h') ∧
        relinked h0 h' (<[a := v]> N) P.
Proof.
  intros (HN & HP & HO & HD & HL & HA) [n Hn]. eexists. split; [by apply updNode_run|].
  repeat split; cbn.
  - intros y. unfold nxt; cbn. destruct (decide (y = a)) as [->|Hy].
    + by rewrite lookup_insert_eq, fn_lookup_insert.
    + rewrite lookup_insert_ne, fn_lookup_insert_ne by done. apply HN.
  - intros y. rewrite <-HP. unfold prv; cbn. destruct (decide (y = a)) as [->|Hy].
    + by rewrite lookup_insert_eq, Hn.
    + by rewrite lookup_insert_ne.
  - intros y. rewrite <-HO. unfold own; cbn. destruct (decide (y = a)) as [->|Hy].
    + by rewrite lookup_insert_eq, Hn.
    + by rewrite lookup_insert_ne.
  - intros y. rewrite <-HD. unfold data; cbn. destruct (decide (y = a)) as [->|Hy].
    + by rewrite lookup_insert_eq, Hn.
    + by rewrite lookup_insert_ne.
  - done.
  - rewrite <-HA. destruct (decide (y = a)) as [->|Hy].
    + rewrite lookup_insert_eq. eauto.
    + by rewrite lookup_insert_ne.
  - rewrite <-HA. destruct (decide (y = a)) as [->|Hy].
    + rewrite lookup_insert_eq. eauto.
    + by rewrite lookup_insert_ne.
Qed.

Lemma set_prev_run h0 h a v N P :
  relinked h0 h N P → is_Some (nodeAt h !! a) →
  ∃ h', updNode (Some a) (with_prev v) h = Some ((), h') ∧
        relinked h0 h' N (<[a := v]> P).
Proof.
  intros (HN & HP & HO & HD & HL & HA) [n Hn]. eexists. split; [by apply updNode_run|].
  repeat split; cbn.
  - intros y. rewrite <-HN. unfold nxt; cbn. destruct (decide (y = a)) as [->|Hy].
    + by rewrite lookup_insert_eq, Hn.
    + by rewrite lookup_insert_ne.
  - intros y. unfold prv; cbn. destruct (decide (y = a)) as [->|Hy].
    + by rewrite lookup_insert_eq, fn_lookup_insert.
    + rewrite lookup_insert_ne, fn_lookup_insert_ne by done. apply HP.
  - intros y. rewrite <-HO. unfold own; cbn. destruct (decide (y = a)) as [->|Hy].
    + by rewrite lookup_insert_eq, Hn.
    + by rewrite lookup_insert_ne.
  - intros y. rewrite <-HD. unfold data; cbn. destruct (decide (y = a)) as [->|Hy].
    + by rewrite lookup_insert_eq, Hn.
    + by rewrite lookup_insert_ne.
  - done.
  - rewrite <-HA. destruct (decide (y = a)) as [->|Hy].
    + rewrite lookup_insert_eq. eauto.
    + by rewrite lookup_insert_ne.
  - rewrite <-HA. destruct (decide (y = a)) as [->|Hy].
    + rewrite lookup_insert_eq. eauto.
    + by rewrite lookup_insert_ne.
Qed.

(** [ll.move(lln, at)] as three stores to [next] and three to [prev]:
    [p] and [n] are the neighbours of [x], [b] is what follows [at]
    once [x] is unlinked. *)
Lemma move_relinked h ll x at_ p n b :
  x ≠ at_ → prv h x = Some p → nxt h x = Some n →
  is_Some (nodeAt h !! p) → is_Some (nodeAt h !! n) → is_Some (nodeAt h !! at_) →
  (<[p := Some n]> (nxt h)) at_ = Some b → is_Some (nodeAt h !! b) →
  ∃ h', lruList_move (Some ll) (Some x) (Some at_) h = Some ((), h') ∧
    relinked h h'
      (<[at_ := Some x]> (<[x := Some b]> (<[p := Some n]> (nxt h))))
      (<[b := Some x]> (<[x := Some at_]> (<[n := Some p]> (prv h)))).
Proof.
  intros Hxa Hp Hn Ap An Aa Hb Ab.
  assert (is_Some (nodeAt h !! x)) as Ax by (eapply nxt_alloc; eauto).
  unfold lruList_move. rewrite decide_False by congruence.
  erewrite bind_run; [|by apply load_prev_run].
  erewrite bind_run; [|by apply load_next_run].
  destruct (set_next_run h h p (Some n) _ _ (relinked_refl h) Ap) as (h1 & R1 & V1).
  erewrite bind_run; [|exact R1]. clear R1.
  pose proof V1 as (N1 & P1 & _ & _ & _ & A1).
  erewrite bind_run; [|apply load_next_run; rewrite N1;
    destruct (decide (x = p)) as [->|]; [by rewrite fn_lookup_insert|
    by rewrite fn_lookup_insert_ne]].
  erewrite bind_run; [|apply load_prev_run; by rewrite P1].
  destruct (set_prev_run h h1 n (Some p) _ _ V1 ltac:(by apply A1)) as (h2 & R2 & V2).
  erewrite bind_run; [|exact R2]. clear R2.
  pose proof V2 as (_ & _ & _ & _ & _ & A2).
  destruct (set_prev_run h h2 x (Some at_) _ _ V2 ltac:(by apply A2)) as (h3 & R3 & V3).
  erewrite bind_run; [|exact R3]. clear R3.
  pose proof V3 as (N3 & P3 & _ & _ & _ & A3).
  erewrite bind_run; [|apply load_next_run; rewrite N3; exact Hb].
  destruct (set_next_run h h3 x (Some b) _ _ V3 ltac:(by apply A3)) as (h4 & R4 & V4).
  erewrite bind_run; [|exact R4]. clear R4.
  pose proof V4 as (N4 & P4 & _ & _ & _ & A4).
  erewrite bind_run; [|apply load_prev_run; rewrite P4; by rewrite fn_lookup_insert].
  destruct (set_next_run h h4 at_ (Some x) _ _ V4 ltac:(by apply A4)) as (h5 & R5 & V5).
  erewrite bind_run; [|exact R5]. clear R5.
  pose proof V5 as (N5 & P5 & _ & _ & _ & A5).
  erewrite bind_run; [|apply load_next_run; rewrite N5;
    rewrite fn_lookup_insert_ne by done; by rewrite fn_lookup_insert].
  destruct (set_prev_run h h5 b (Some x) _ _ V5 ltac:(by apply A5)) as (h6 & R6 & V6).
  exists h6. split; [exact R6|exact V6].
Qed.

(** ** Linking a node between two others *)

Lemma path_insert f f' a k1 x k2 z :
  path f a (k1 ++ k2) z →
  NoDup (a :: k1) →
  f' (default a (last k1)) = Some x → f' x = Some (default z (head k2)) →
  (∀ y, y ∈ a :: k1 ++ k2 → y ≠ default a (last k1) → f' y = f y) →
  (∀ y, y ∈ k2 → y ≠ default a (last k1)) →
  path f' a (k1 ++ x :: k2) z.
Proof.
  intros Hp Hnd Ha Hx Hfr Hk2.
  assert (∀ q, path f q k2 z → path f' x k2 z) as Htail.
  { intros q Hq. destruct k2 as [|c k2]; simpl in *; [done|].
    split; [done|]. destruct Hq as [_ Hq]. eapply path_frame; [done|].
    intros y Hy. apply Hfr.
    - right. apply elem_of_app. by right.
    - by apply Hk2. }
  destruct (snoc_view k1) as [->|(k1' & c & ->)].
  - simpl in *. split; [done|]. by eapply Htail.
  - rewrite last_snoc in *. simpl in *.
    rewrite <-app_assoc in Hp. rewrite <-app_assoc. simpl in *.
    apply path_app in Hp as [Hp1 Hp2]. apply path_app. split.
    + eapply path_frame; [done|]. intros y Hy. apply Hfr.
      * apply elem_of_cons in Hy as [->|Hy]; [by left|right].
        apply elem_of_app. left. apply elem_of_app. by left.
      * intros ->. rewrite app_comm_cons in Hnd.
        apply NoDup_app in Hnd as [_ [Hnd _]]. apply (Hnd c); [done|by left].
    + simpl. split; [done|]. by eapply Htail.
Qed.

Lemma path_split f a k1 k2 z :
  path f a (k1 ++ k2) z → f (default a (last k1)) = Some (default z (head k2)).
Proof.
  destruct k2 as [|c k2].
  - rewrite app_nil_r. apply path_last.
  - intros H. by apply path_at in H as [H _].
Qed.

Lemma NoDup_split (r : loc) k1 k2 :
  NoDup (r :: k1 ++ k2) →
  NoDup (r :: k1) ∧ NoDup (r :: k2) ∧ (∀ y, y ∈ r :: k1 → y ∉ k2) ∧
  (∀ y, y ∈ k1 → y ≠ r).
Proof. rewrite !NoDup_cons, !NoDup_app. set_solver. Qed.

Lemma NoDup_insert_middle (r : loc) k1 x k2 :
  NoDup (r :: k1 ++ k2) → x ∉ r :: k1 ++ k2 → NoDup (r :: k1 ++ x :: k2).
Proof. rewrite !NoDup_cons, !NoDup_app, !NoDup_cons. set_solver. Qed.

Lemma at_not_after (r : loc) k1 k2 :
  NoDup (r :: k1 ++ k2) → default r (last k1) ∉ k2.
Proof.
  intros (_ & _ & H & _)%NoDup_split. apply H, default_last_in.
Qed.

Lemma follower_not_before (r : loc) k1 k2 :
  NoDup (r :: k1 ++ k2) → default r (head k2) ∉ k1.
Proof.
  intros (_ & _ & H1 & H2)%NoDup_split Hin.
  destruct k2 as [|c k2]; simpl in *.
  - by apply (H2 r).
  - apply (H1 c); [by right|by left].
Qed.

Lemma last_in_all (r : loc) k1 k2 : default r (last k1) ∈ r :: k1 ++ k2.
Proof.
  pose proof (default_last_in r k1) as [->|?]%elem_of_cons; [by left|].
  right. apply elem_of_app. by left.
Qed.

Lemma head_in_all (r : loc) k1 k2 : default r (head k2) ∈ r :: k1 ++ k2.
Proof.
  destruct k2 as [|c k2]; simpl; [by left|].
  right. apply elem_of_app. right. by left.
Qed.

Lemma elem_of_insert_middle {A} (y x : A) k1 k2 :
  y ∈ k1 ++ x :: k2 ↔ y = x ∨ y ∈ k1 ++ k2.
Proof. rewrite !elem_of_app, elem_of_cons. tauto. Qed.

(** [ll.insert(x, at)] for a node [x] outside the list and [at] the
    sentinel or a node of the list: [x] follows [at]. *)
Lemma dll_insert h ll r k1 k2 x :
  dll h ll r (k1 ++ k2) → x ∉ r :: k1 ++ k2 → is_Some (nodeAt h !! x) →
  ∃ h', lruList_insert (Some ll) (Some x) (Some (default r (last k1))) h = Some (Some x, h') ∧
        dll h' ll r (k1 ++ x :: k2) ∧ (∀ y, data h' y = data h y) ∧
        (∀ y, is_Some (nodeAt h' !! y) ↔ is_Some (nodeAt h !! y)).
Proof.
  intros [Hl Hn Hp Hnd Ho] Hx [nx Hnx].
  pose proof (NoDup_split _ _ _ Hnd) as (Hnd1 & Hnd2 & H12 & Hk1r).
  pose proof (path_split _ _ _ _ _ Hn) as Hb.
  set (a := default r (last k1)) in *. set (b := default r (head k2)) in *.
  pose proof (default_last_in r k1) as Hain. fold a in Hain.
  pose proof (default_head_in r k2) as Hbin. fold b in Hbin.
  pose proof (at_not_after _ _ _ Hnd) as Ha2. fold a in Ha2.
  pose proof (follower_not_before _ _ _ Hnd) as Hb1. fold b in Hb1.
  pose proof (last_in_all r k1 k2) as Hain'. fold a in Hain'.
  pose proof (head_in_all r k1 k2) as Hbin'. fold b in Hbin'.
  assert (x ≠ a) as Hxa by (intros ->; done).
  assert (b ≠ x) as Hbx by (intros ->; done).
  destruct (nxt_Some _ _ _ Hb) as (na & Hna & Hnab).
  destruct (insert_run h ll x a nx na b _ Hxa Hbx Hnx Hna Hnab
              ltac:(eapply nxt_alloc, path_alloc; eauto) Hl)
    as (h' & Hrun & Hxn & Hxp & Hxo & Han & Hbp & Fn & Fp & Fo & Fd & Fl).
  exists h'. split; [exact Hrun|]. split; [split|split; [exact Fd|]].
  - rewrite Fl, lookup_insert_eq. unfold with_len; simpl. do 2 f_equal.
    rewrite !length_app. simpl. lia.
  - eapply path_insert; [exact Hn|exact Hnd1|exact Han|exact Hxn| |].
    + intros y Hy Hne. apply Fn; [|exact Hne]. intros ->. done.
    + intros y Hy ->. exact (Ha2 Hy).
  - rewrite reverse_middle. rewrite reverse_app in Hp.
    eapply path_insert; [exact Hp| | | | |].
    + by apply NoDup_reverse_cons.
    + rewrite last_reverse. exact Hbp.
    + rewrite head_reverse. exact Hxp.
    + rewrite last_reverse. intros y Hy Hne. apply Fp; [|done]. intros ->.
      apply Hx. rewrite <-reverse_app, elem_of_cons, elem_of_reverse in Hy. by apply elem_of_cons.
    + rewrite last_reverse. intros y Hy ->. rewrite elem_of_reverse in Hy. exact (Hb1 Hy).
  - by apply NoDup_insert_middle.
  - intros y [->|Hy]%elem_of_insert_middle; [done|].
    rewrite Fo; [by apply Ho|]. intros ->. apply Hx. by right.
  - intros y. specialize (Fd y). unfold data in Fd.
    destruct (nodeAt h' !! y), (nodeAt h !! y); simpl in *; try done; split; eauto.
Qed.

(** [ll.move(x, at)] for a node [x] of the list and [at] the sentinel
    or another node of it: [x] leaves its place and follows [at]. *)
Lemma dll_move h ll r l1 x l2 k1 k2 :
  dll h ll r (l1 ++ x :: l2) → l1 ++ l2 = k1 ++ k2 →
  ∃ h', lruList_move (Some ll) (Some x) (Some (default r (last k1))) h = Some ((), h') ∧
        dll h' ll r (k1 ++ x :: k2) ∧ (∀ y, data h' y = data h y) ∧
        (∀ y, is_Some (nodeAt h' !! y) ↔ is_Some (nodeAt h !! y)).
Proof.
  intros Hd HL. destruct (dll_neighbours _ _ _ _ _ _ Hd) as (nx & Hx & Hxp & Hxn & Hxo).
  pose proof Hd as [Hl Hn Hp Hnd Ho].
  destruct (NoDup_middle _ _ _ _ Hnd) as (HndL & Hxr & Hx1 & Hx2 & Hr1 & Hr2 & H12).
  assert (x ∉ r :: l1 ++ l2) as HxL.
  { rewrite not_elem_of_cons, not_elem_of_app. done. }
  set (p := default r (last l1)) in *. set (n := default r (head l2)) in *.
  pose proof (default_last_in r l1) as Hpin. fold p in Hpin.
  pose proof (default_head_in r l2) as Hnin. fold n in Hnin.
  pose proof (last_in_all r l1 l2) as Hpin'. fold p in Hpin'.
  pose proof (head_in_all r l1 l2) as Hnin'. fold n in Hnin'.
  assert (∀ y, y ∈ r :: l1 ++ l2 → y ∈ r :: l1 ++ x :: l2) as Hsub.
  { intros y [->|Hy]%elem_of_cons; [by left|right]. apply elem_of_insert_middle. by right. }
  (* the list without [x] *)
  set (N1 := <[p := Some n]> (nxt h)). set (P2 := <[n := Some p]> (prv h)).
  assert (path N1 r (l1 ++ l2) r) as HN1.
  { eapply path_remove; [exact Hn|done| |].
    - unfold N1. by rewrite fn_lookup_insert.
    - intros y _ Hne. unfold N1. by rewrite fn_lookup_insert_ne. }
  assert (path P2 r (reverse l2 ++ reverse l1) r) as HP2.
  { rewrite reverse_middle in Hp. eapply path_remove; [exact Hp| | |].
    - rewrite <-reverse_app. by apply NoDup_reverse_cons.
    - rewrite last_reverse, head_reverse. unfold P2. by rewrite fn_lookup_insert.
    - rewrite last_reverse. intros y _ Hne. unfold P2. by rewrite fn_lookup_insert_ne. }
  rewrite HL in HN1, HndL, HxL. rewrite <-reverse_app, HL, reverse_app in HP2.
  pose proof (NoDup_split _ _ _ HndL) as (Hnd1 & Hnd2 & Hk12 & Hk1r).
  pose proof (path_split _ _ _ _ _ HN1) as Hb.
  set (a := default r (last k1)) in *. set (b := default r (head k2)) in *.
  pose proof (default_last_in r k1) as Hain. fold a in Hain.
  pose proof (default_head_in r k2) as Hbin. fold b in Hbin.
  pose proof (at_not_after _ _ _ HndL) as Ha2. fold a in Ha2.
  pose proof (follower_not_before _ _ _ HndL) as Hb1. fold b in Hb1.
  pose proof (last_in_all r k1 k2) as Hain'. fold a in Hain'.
  pose proof (head_in_all r k1 k2) as Hbin'. fold b in Hbin'.
  assert (x ≠ a) as Hxa by (intros ->; done).
  assert (x ≠ b) as Hxb by (intros ->; done).
  rewrite <-HL in Hain', Hbin'.
  destruct (move_relinked h ll x a p n b Hxa)
    as (h' & Hrun & HN & HP & HO & HD & HLs & HA).
  { unfold prv. by rewrite Hx. }
  { unfold nxt. by rewrite Hx. }
  { eapply dll_alloc; [exact Hd|by apply Hsub]. }
  { eapply dll_alloc; [exact Hd|by apply Hsub]. }
  { eapply dll_alloc; [exact Hd|by apply Hsub]. }
  { exact Hb. }
  { eapply dll_alloc; [exact Hd|by apply Hsub]. }
  exists h'. split; [exact Hrun|]. split; [split|split; [exact HD|exact HA]].
  - rewrite HLs, Hl. do 3 f_equal. rewrite !length_app. simpl.
    apply (f_equal length) in HL. rewrite !length_app in HL. lia.
  - eapply path_insert; [exact HN1|done| | | |].
    + rewrite HN. by rewrite fn_lookup_insert.
    + rewrite HN. rewrite fn_lookup_insert_ne by done. by rewrite fn_lookup_insert.
    + intros y Hy Hne. rewrite HN.
      rewrite fn_lookup_insert_ne by (intros E; apply Hne; symmetry; exact E).
      rewrite fn_lookup_insert_ne; [done|]. intros ->. exact (HxL Hy).
    + intros y Hy ->. exact (Ha2 Hy).
  - rewrite reverse_middle.
    eapply path_insert; [exact HP2| | | | |].
    + by apply NoDup_reverse_cons.
    + rewrite last_reverse. rewrite HP. by rewrite fn_lookup_insert.
    + rewrite head_reverse. rewrite HP. rewrite fn_lookup_insert_ne by done.
      by rewrite fn_lookup_insert.
    + rewrite last_reverse. intros y Hy Hne. rewrite HP.
      rewrite fn_lookup_insert_ne by (intros E; apply Hne; symmetry; exact E).
      rewrite fn_lookup_insert_ne; [done|]. intros ->.
      apply HxL. rewrite <-reverse_app, elem_of_cons, elem_of_reverse in Hy.
      by apply elem_of_cons.
    + rewrite last_reverse. intros y Hy ->. rewrite elem_of_reverse in Hy. exact (Hb1 Hy).
  - by apply NoDup_insert_middle.
  - intros y Hy. rewrite HO. apply Ho.
    apply elem_of_insert_middle in Hy as [->|Hy]; apply elem_of_insert_middle;
      [by left|right]. by rewrite HL.
Qed.

(** ** Reading a list *)

Lemma dll_root h ll r l : dll h ll r l → (ll_root <$> loadList (Some ll)) h = Some (Some r, h).
Proof.
  intros [Hl _ _ _ _]. erewrite fmap_run; [|unfold loadList; by rewrite Hl]. done.
Qed.

Lemma dll_root_next h ll r l : dll h ll r l → nxt h r = Some (default r (head l)).
Proof. intros [_ Hn _ _ _]. by apply path_first in Hn. Qed.

Lemma dll_root_prev h ll r l : dll h ll r l → prv h r = Some (default r (last l)).
Proof. intros [_ _ Hp _ _]. apply path_first in Hp. by rewrite head_reverse in Hp. Qed.

Lemma dll_Len h ll r l : dll h ll r l → lruList_Len (Some ll) h = Some (Z.of_nat (length l), h).
Proof.
  intros [Hl _ _ _ _]. unfold lruList_Len.
  erewrite fmap_run; [|unfold loadList; by rewrite Hl]. done.
Qed.

Lemma dll_Front h ll r l : dll h ll r l → lruList_Front (Some ll) h = Some (head l, h).
Proof.
  intros Hd. pose proof Hd as [Hl Hn Hp Hnd Ho]. unfold lruList_Front.
  erewrite bind_run; [|by apply fmap_run; unfold loadList; rewrite Hl].
  simpl. destruct l as [|a l].
  - by rewrite decide_True.
  - rewrite decide_False by (simpl; lia).
    erewrite bind_run; [|by eapply dll_root].
    apply load_next_run. by apply dll_root_next in Hd.
Qed.

Lemma dll_Next h ll r l1 x l2 :
  dll h ll r (l1 ++ x :: l2) → lruListNode_Next (Some x) h = Some (head l2, h).
Proof.
  intros Hd. destruct (dll_neighbours _ _ _ _ _ _ Hd) as (nx & Hx & Hxp & Hxn & Hxo).
  pose proof Hd as [Hl Hn Hp Hnd Ho].
  destruct (NoDup_middle _ _ _ _ Hnd) as (_ & _ & _ & _ & _ & Hr2 & _).
  unfold lruListNode_Next.
  erewrite bind_run; [|by apply fmap_run, loadNode_run].
  erewrite bind_run; [|by apply fmap_run, loadNode_run].
  rewrite Hxo, decide_True by done.
  erewrite bind_run; [|by eapply dll_root].
  rewrite Hxn. destruct l2 as [|c l2]; simpl.
  - by rewrite decide_False by (intros ?; done).
  - rewrite decide_True; [done|]. intros [= ->]. apply Hr2. by left.
Qed.

Lemma dll_Prev h ll r l1 x l2 :
  dll h ll r (l1 ++ x :: l2) → lruListNode_Prev (Some x) h = Some (last l1, h).
Proof.
  intros Hd. destruct (dll_neighbours _ _ _ _ _ _ Hd) as (nx & Hx & Hxp & Hxn & Hxo).
  pose proof Hd as [Hl Hn Hp Hnd Ho].
  destruct (NoDup_middle _ _ _ _ Hnd) as (_ & _ & _ & _ & Hr1 & _ & _).
  unfold lruListNode_Prev.
  erewrite bind_run; [|by apply fmap_run, loadNode_run].
  erewrite bind_run; [|by apply fmap_run, loadNode_run].
  rewrite Hxo, decide_True by done.
  erewrite bind_run; [|by eapply dll_root].
  rewrite Hxp. destruct (last l1) as [c|] eqn:E; simpl.
  - rewrite decide_True; [done|]. intros [= ->]. apply Hr1. by apply last_Some_elem_of.
  - by rewrite decide_False by (intros ?; done).
Qed.

Lemma walk_back_nil fuel h : walk_back fuel None h = [].
Proof. by destruct fuel. Qed.

(** Walking back from a node of the list visits what precedes it,
    nearest first. *)
Lemma dll_walk_back h ll r : ∀ l1 x l2 fuel,
  dll h ll r (l1 ++ x :: l2) → (length l1 < fuel)%nat →
  walk_back fuel (Some x) h = x :: reverse l1.
Proof.
  intros l1. induction l1 as [|c l1 IH] using rev_ind; intros x l2 fuel Hd Hf.
  - destruct fuel as [|fuel]; [simpl in Hf; lia|]. simpl.
    rewrite (dll_Prev _ _ _ _ _ _ Hd). simpl. by rewrite walk_back_nil.
  - destruct fuel as [|fuel]; [simpl in Hf; lia|]. simpl.
    rewrite (dll_Prev _ _ _ _ _ _ Hd). rewrite last_snoc, reverse_snoc. f_equal.
    rewrite <-app_assoc in Hd. simpl in Hd.
    eapply IH; [exact Hd|]. rewrite length_app in Hf. simpl in Hf. lia.
Qed.

Lemma dll_elements_back h ll r l :
  dll h ll r l → lruList_elements_back (Some ll) h = reverse l.
Proof.
  intros Hd. unfold lruList_elements_back. rewrite (dll_Back _ _ _ _ Hd).
  destruct (snoc_view l) as [->|(l' & c & ->)].
  - simpl. apply walk_back_nil.
  - rewrite last_snoc, reverse_snoc.
    eapply dll_walk_back; [exact Hd|].
    pose proof Hd as [_ _ _ Hnd _].
    pose proof (NoDup_alloc_length (nodeAt h) (r :: l' ++ [c]) Hnd) as Hlen.
    simpl in Hlen. rewrite length_app in Hlen. simpl in Hlen.
    apply Nat.lt_le_trans with (S (length l' + 1)); [lia|].
    apply Hlen. intros y Hy. eapply dll_alloc; done.
Qed.

(** ** The list interface on the sequence of nodes *)

Lemma dll_own_in h ll r l x : dll h ll r l → x ∈ l →
  (node_list <$> loadNode (Some x)) h = Some (Some ll, h).
Proof.
  intros Hd Hx. rewrite load_list_run.
  - by rewrite (dll_own _ _ _ _ Hd x Hx).
  - eapply dll_alloc; [exact Hd|by right].
Qed.

Lemma dll_PushBack h ll r l x :
  dll h ll r l → x ∉ r :: l → is_Some (nodeAt h !! x) →
  ∃ h', lruList_PushBack (Some ll) (Some x) h = Some (Some x, h') ∧
        dll h' ll r (l ++ [x]) ∧ (∀ y, data h' y = data h y) ∧
        (∀ y, is_Some (nodeAt h' !! y) ↔ is_Some (nodeAt h !! y)).
Proof.
  intros Hd Hx Ax. unfold lruList_PushBack.
  erewrite bind_run; [|by eapply dll_root].
  erewrite bind_run; [|by eapply load_prev_run, dll_root_prev].
  apply dll_insert; [by rewrite app_nil_r|by rewrite app_nil_r|done].
Qed.

Lemma dll_InsertAfter h ll r l1 mark l2 x :
  dll h ll r (l1 ++ mark :: l2) → x ∉ r :: l1 ++ mark :: l2 → is_Some (nodeAt h !! x) →
  ∃ h', lruList_InsertAfter (Some ll) (Some x) (Some mark) h = Some (Some x, h') ∧
        dll h' ll r (l1 ++ mark :: x :: l2) ∧ (∀ y, data h' y = data h y) ∧
        (∀ y, is_Some (nodeAt h' !! y) ↔ is_Some (nodeAt h !! y)).
Proof.
  intros Hd Hx Ax. unfold lruList_InsertAfter.
  erewrite bind_run; [|eapply dll_own_in; [exact Hd|apply in_middle]].
  rewrite decide_False by (intros ?; done).
  pose proof (dll_insert h ll r (l1 ++ [mark]) l2 x) as H.
  rewrite last_snoc, <-!app_assoc in H. simpl in H. by apply H.
Qed.

Lemma dll_InsertBefore h ll r l1 mark l2 x :
  dll h ll r (l1 ++ mark :: l2) → x ∉ r :: l1 ++ mark :: l2 → is_Some (nodeAt h !! x) →
  ∃ h', lruList_InsertBefore (Some ll) (Some x) (Some mark) h = Some (Some x, h') ∧
        dll h' ll r (l1 ++ x :: mark :: l2) ∧ (∀ y, data h' y = data h y) ∧
        (∀ y, is_Some (nodeAt h' !! y) ↔ is_Some (nodeAt h !! y)).
Proof.
  intros Hd Hx Ax. unfold lruList_InsertBefore.
  erewrite bind_run; [|eapply dll_own_in; [exact Hd|apply in_middle]].
  rewrite decide_False by (intros ?; done).
  destruct (dll_neighbours _ _ _ _ _ _ Hd) as (nm & Hm & Hmp & _).
  erewrite bind_run; [|apply load_prev_run; unfold prv; rewrite Hm; exact Hmp].
  by apply dll_insert.
Qed.

Lemma last_app_cons {A} (l1 : list A) x c l2 :
  last (l1 ++ x :: c :: l2) = last (l1 ++ c :: l2).
Proof.
  rewrite !last_app. change (last (x :: c :: l2)) with (last (c :: l2)). done.
Qed.

Lemma dll_MoveToBack h ll r l1 x l2 :
  dll h ll r (l1 ++ x :: l2) →
  ∃ h', lruList_MoveToBack (Some ll) (Some x) h = Some ((), h') ∧
        dll h' ll r (l1 ++ l2 ++ [x]) ∧ (∀ y, data h' y = data h y) ∧
        (∀ y, is_Some (nodeAt h' !! y) ↔ is_Some (nodeAt h !! y)).
Proof.
  intros Hd. unfold lruList_MoveToBack.
  erewrite bind_run; [|eapply dll_own_in; [exact Hd|apply in_middle]].
  rewrite decide_False by (intros ?; done).
  erewrite bind_run; [|by eapply dll_root].
  erewrite bind_run; [|by eapply load_prev_run, dll_root_prev].
  destruct l2 as [|c l2].
  - rewrite last_snoc. simpl. rewrite decide_True by done.
    exists h. done.
  - pose proof Hd as [_ _ _ Hnd _].
    destruct (NoDup_middle _ _ _ _ Hnd) as (_ & _ & _ & Hx2 & _).
    rewrite last_app_cons.
    assert (default r (last (l1 ++ c :: l2)) ≠ x) as Hne.
    { intros E. apply Hx2. rewrite last_app in E.
      destruct (last (c :: l2)) as [q|] eqn:Eq; simpl in E.
      - subst q. by apply last_Some_elem_of.
      - by apply last_None in Eq. }
    rewrite decide_False by congruence.
    erewrite bind_run; [|by eapply dll_root].
    erewrite bind_run; [|by eapply load_prev_run, dll_root_prev].
    rewrite last_app_cons.
    pose proof (dll_move h ll r l1 x (c :: l2) (l1 ++ c :: l2) [] Hd) as H.
    rewrite app_nil_r, <-app_assoc in H. by apply H.
Qed.

(** [MoveAfter] and [MoveBefore] when the mark precedes the node. *)
Lemma dll_Move_mark_first h ll r a mark b x c :
  dll h ll r (a ++ mark :: b ++ x :: c) →
  (∃ h', lruList_MoveAfter (Some ll) (Some x) (Some mark) h = Some ((), h') ∧
         dll h' ll r (a ++ mark :: x :: b ++ c) ∧ (∀ y, data h' y = data h y)) ∧
  (∃ h', lruList_MoveBefore (Some ll) (Some x) (Some mark) h = Some ((), h') ∧
         dll h' ll r (a ++ x :: mark :: b ++ c) ∧ (∀ y, data h' y = data h y)).
Proof.
  intros Hd. pose proof Hd as [_ _ _ Hnd _].
  assert (x ≠ mark) as Hxm.
  { intros ->. apply NoDup_cons in Hnd as [_ Hnd]. apply NoDup_app in Hnd as (_ & _ & Hnd).
    apply NoDup_cons in Hnd as [Hnd _]. apply Hnd, in_middle. }
  assert (x ∈ a ++ mark :: b ++ x :: c) as Hxin.
  { apply elem_of_app. right. right. apply in_middle. }
  destruct (dll_neighbours _ _ _ _ _ _ Hd) as (nm & Hm & Hmp & _).
  assert (a ++ mark :: b ++ x :: c = (a ++ mark :: b) ++ x :: c) as El
    by (by rewrite <-app_assoc).
  rewrite El in Hd. split.
  - unfold lruList_MoveAfter.
    erewrite bind_run; [|eapply dll_own_in; [exact Hd|apply in_middle]].
    rewrite decide_False by (intros ?; done).
    rewrite decide_False by congruence.
    erewrite bind_run; [|eapply dll_own_in; [exact Hd|rewrite <-El; apply in_middle]].
    rewrite decide_False by (intros ?; done).
    destruct (dll_move h ll r (a ++ mark :: b) x c (a ++ [mark]) (b ++ c) Hd)
      as (h' & Hrun & Hd' & HD & _).
    { by rewrite <-!app_assoc. }
    rewrite last_snoc in Hrun. simpl in Hrun. rewrite <-app_assoc in Hd'.
    exists h'. done.
  - unfold lruList_MoveBefore.
    erewrite bind_run; [|eapply dll_own_in; [exact Hd|apply in_middle]].
    rewrite decide_False by (intros ?; done).
    rewrite decide_False by congruence.
    erewrite bind_run; [|eapply dll_own_in; [exact Hd|rewrite <-El; apply in_middle]].
    rewrite decide_False by (intros ?; done).
    erewrite bind_run; [|apply load_prev_run; unfold prv; rewrite Hm; exact Hmp].
    destruct (dll_move h ll r (a ++ mark :: b) x c a (mark :: b ++ c) Hd)
      as (h' & Hrun & Hd' & HD & _).
    { by rewrite <-!app_assoc. }
    exists h'. done.
Qed.

(** [MoveAfter] and [MoveBefore] when the node precedes the mark. *)
Lemma dll_Move_node_first h ll r a x b mark c :
  dll h ll r (a ++ x :: b ++ mark :: c) →
  (∃ h', lruList_MoveAfter (Some ll) (Some x) (Some mark) h = Some ((), h') ∧
         dll h' ll r (a ++ b ++ mark :: x :: c) ∧ (∀ y, data h' y = data h y)) ∧
  (∃ h', lruList_MoveBefore (Some ll) (Some x) (Some mark) h = Some ((), h') ∧
         dll h' ll r (a ++ b ++ x :: mark :: c) ∧ (∀ y, data h' y = data h y)).
Proof.
  intros Hd. pose proof Hd as [_ _ _ Hnd _].
  assert (x ≠ mark) as Hxm.
  { intros ->. apply NoDup_cons in Hnd as [_ Hnd]. apply NoDup_app in Hnd as (_ & _ & Hnd).
    apply NoDup_cons in Hnd as [Hnd _]. apply Hnd, in_middle. }
  assert (mark ∈ a ++ x :: b ++ mark :: c) as Hmin.
  { apply elem_of_app. right. right. apply in_middle. }
  assert (a ++ x :: b ++ mark :: c = (a ++ x :: b) ++ mark :: c) as El
    by (by rewrite <-app_assoc).
  pose proof Hd as Hd2. rewrite El in Hd2.
  destruct (dll_neighbours _ _ _ _ _ _ Hd2) as (nm & Hm & Hmp & _).
  split.
  - unfold lruList_MoveAfter.
    erewrite bind_run; [|eapply dll_own_in; [exact Hd|apply in_middle]].
    rewrite decide_False by (intros ?; done).
    rewrite decide_False by congruence.
    erewrite bind_run; [|eapply dll_own_in; [exact Hd|exact Hmin]].
    rewrite decide_False by (intros ?; done).
    destruct (dll_move h ll r a x (b ++ mark :: c) (a ++ b ++ [mark]) c Hd)
      as (h' & Hrun & Hd' & HD & _).
    { by rewrite <-!app_assoc. }
    rewrite !app_assoc, last_snoc in Hrun. simpl in Hrun.
    rewrite <-!app_assoc in Hd'. simpl in Hd'.
    exists h'. done.
  - unfold lruList_MoveBefore.
    erewrite bind_run; [|eapply dll_own_in; [exact Hd|apply in_middle]].
    rewrite decide_False by (intros ?; done).
    rewrite decide_False by congruence.
    erewrite bind_run; [|eapply dll_own_in; [exact Hd|exact Hmin]].
    rewrite decide_False by (intros ?; done).
    erewrite bind_run; [|apply load_prev_run; unfold prv; rewrite Hm; exact Hmp].
    destruct (snoc_view b) as [->|(b' & q & ->)].
    + rewrite last_snoc. simpl. unfold lruList_move. rewrite decide_True by done.
      exists h. done.
    + destruct (dll_move h ll r a x ((b' ++ [q]) ++ mark :: c) (a ++ b' ++ [q]) (mark :: c) Hd)
        as (h' & Hrun & Hd' & HD & _).
      { by rewrite <-!app_assoc. }
      rewrite !app_assoc, last_snoc in Hrun.
      rewrite app_comm_cons, !app_assoc, last_snoc. simpl in *.
      rewrite <-!app_assoc in Hd'. rewrite <-!app_assoc.
      exists h'. done.
Qed.

(** ** A node that is not in the list *)

(** Every operation that tests [lln.list] or [mark.list] against the
    list returns at once on a node of another list or of none. *)
Lemma foreign_node_noop h ll x :
  is_Some (nodeAt h !! x) → own h x ≠ Some ll →
  lruList_Remove (Some ll) (Some x) h = Some (Some x, h) ∧
  lruList_MoveToFront (Some ll) (Some x) h = Some ((), h) ∧
  lruList_MoveToBack (Some ll) (Some x) h = Some ((), h) ∧
  (∀ mark, lruList_MoveBefore (Some ll) (Some x) mark h = Some ((), h) ∧
           lruList_MoveAfter (Some ll) (Some x) mark h = Some ((), h)) ∧
  (∀ y, lruList_InsertBefore (Some ll) y (Some x) h = Some (None, h) ∧
        lruList_InsertAfter (Some ll) y (Some x) h = Some (None, h)).
Proof.
  intros Ax Hx.
  unfold lruList_Remove, lruList_MoveToFront, lruList_MoveToBack.
  repeat split; intros;
    unfold lruList_MoveBefore, lruList_MoveAfter, lruList_InsertBefore, lruList_InsertAfter;
    (erewrite bind_run; [|by apply load_list_run]);
    first [rewrite decide_True by done; done | rewrite decide_False by done; done].
Qed.

(** As a mark for a node of the list. *)
Lemma foreign_mark_noop h ll r l y x :
  dll h ll r l → y ∈ l → is_Some (nodeAt h !! x) → own h x ≠ Some ll →
  lruList_MoveBefore (Some ll) (Some y) (Some x) h = Some ((), h) ∧
  lruList_MoveAfter (Some ll) (Some y) (Some x) h = Some ((), h).
Proof.
  intros Hd Hy Ax Hx. unfold lruList_MoveBefore, lruList_MoveAfter.
  split.
  - erewrite bind_run; [|by eapply dll_own_in].
    rewrite decide_False by (intros ?; done).
    destruct (decide (Some y = Some x)); [done|].
    erewrite bind_run; [|by apply load_list_run].
    by rewrite decide_True.
  - erewrite bind_run; [|by eapply dll_own_in].
    rewrite decide_False by (intros ?; done).
    destruct (decide (Some y = Some x)); [done|].
    erewrite bind_run; [|by apply load_list_run].
    by rewrite decide_True.
Qed.

Lemma unowned_Next_Prev h x :
  is_Some (nodeAt h !! x) → own h x = None →
  lruListNode_Next (Some x) h = Some (None, h) ∧
  lruListNode_Prev (Some x) h = Some (None, h).
Proof.
  intros [n Hn] Hx. unfold own in Hx. rewrite Hn in Hx. simpl in Hx.
  unfold lruListNode_Next, lruListNode_Prev. split.
  - erewrite bind_run; [|by apply fmap_run, loadNode_run].
    erewrite bind_run; [|by apply fmap_run, loadNode_run].
    rewrite Hx. by rewrite decide_False by (intros ?; done).
  - erewrite bind_run; [|by apply fmap_run, loadNode_run].
    erewrite bind_run; [|by apply fmap_run, loadNode_run].
    rewrite Hx. by rewrite decide_False by (intros ?; done).
Qed.

(** ** Pushing a whole list *)

Lemma insert_nil_panics h ll at_ : lruList_insert ll None at_ h = None.
Proof. done. Qed.

Lemma PushBackList_loop_run h ll r l a i :
  dll h ll r l → a ∉ r :: l → is_Some (nodeAt h !! a) →
  ∃ h', dll h' ll r (l ++ [a]) ∧ (∀ y, data h' y = data h y) ∧
    PushBackList_loop (Some ll) (S i) (Some a) h =
      match i with O => Some ((), h') | S _ => None end.
Proof.
  intros Hd Ha Aa. destruct (dll_PushBack _ _ _ _ _ Hd Ha Aa) as (h' & Hrun & Hd' & HD & _).
  exists h'. split; [done|]. split; [done|].
  unfold lruList_PushBack in Hrun. cbn [PushBackList_loop].
  erewrite bind_run; [|by eapply dll_root].
  erewrite bind_run; [|by eapply load_prev_run, dll_root_prev].
  erewrite bind_run in Hrun; [|by eapply dll_root].
  erewrite bind_run in Hrun; [|by eapply load_prev_run, dll_root_prev].
  erewrite bind_run; [|exact Hrun].
  erewrite bind_run; [|by apply (dll_Next h' ll r l a [])].
  destruct i as [|i]; [done|]. cbn [PushBackList_loop head].
  erewrite bind_run; [|by eapply dll_root].
  erewrite bind_run; [|by eapply load_prev_run, dll_root_prev].
  done.
Qed.

Lemma PushFrontList_loop_run h ll r l a i :
  dll h ll r l → a ∉ r :: l → is_Some (nodeAt h !! a) →
  ∃ h', dll h' ll r (a :: l) ∧ (∀ y, data h' y = data h y) ∧
    PushFrontList_loop (Some ll) (S i) (Some a) h =
      match i with O => Some ((), h') | S _ => None end.
Proof.
  intros Hd Ha Aa. destruct (dll_PushFront _ _ _ _ _ Hd Ha Aa) as (h' & Hrun & Hd' & HD).
  exists h'. split; [done|]. split; [done|].
  unfold lruList_PushFront in Hrun. cbn [PushFrontList_loop].
  erewrite bind_run; [|by eapply dll_root].
  erewrite bind_run in Hrun; [|by eapply dll_root].
  erewrite bind_run; [|exact Hrun].
  erewrite bind_run; [|by apply (dll_Prev h' ll r [] a l)].
  destruct i as [|i]; [done|]. cbn [PushFrontList_loop last].
  erewrite bind_run; [|by eapply dll_root].
  done.
Qed.

(** ** The list interface: the properties *)

(** X1: for a list that links the nodes [l], [Len] is their number,
    [Front] and [Back] are the first and the last (nil when there is
    none), [Next] and [Prev] of a node are its neighbours (nil past
    either end), and iterating from [Front] along [Next], or from
    [Back] along [Prev], visits [l], or [l] reversed. *)
Theorem lruList_traversal h ll r l :
  dll h ll r l →
  lruList_Len (Some ll) h = Some (Z.of_nat (length l), h) ∧
  lruList_Front (Some ll) h = Some (head l, h) ∧
  lruList_Back (Some ll) h = Some (last l, h) ∧
  lruList_elements (Some ll) h = l ∧
  lruList_elements_back (Some ll) h = reverse l ∧
  ∀ l1 x l2, l = l1 ++ x :: l2 →
    lruListNode_Next (Some x) h = Some (head l2, h) ∧
    lruListNode_Prev (Some x) h = Some (last l1, h).
Proof.
  intros Hd. split; [by eapply dll_Len|]. split; [by eapply dll_Front|].
  split; [by eapply dll_Back|]. split; [by eapply dll_elements|].
  split; [by eapply dll_elements_back|].
  intros l1 x l2 ->. split; [by eapply dll_Next|by eapply dll_Prev].
Qed.

(** X2: [PushFront] links a node that is in no list as the first node
    and [PushBack] as the last; the nodes already there keep their
    order and [Len] grows by one. *)
Theorem lruList_Push_links_at_the_ends h ll r l x :
  dll h ll r l → x ∉ r :: l → is_Some (nodeAt h !! x) →
  (∃ h', lruList_PushFront (Some ll) (Some x) h = Some (Some x, h') ∧
         lruList_elements (Some ll) h' = x :: l ∧
         lruList_Len (Some ll) h' = Some (Z.of_nat (length l) + 1, h') ∧
         dll h' ll r (x :: l)) ∧
  (∃ h', lruList_PushBack (Some ll) (Some x) h = Some (Some x, h') ∧
         lruList_elements (Some ll) h' = l ++ [x] ∧
         lruList_Len (Some ll) h' = Some (Z.of_nat (length l) + 1, h') ∧
         dll h' ll r (l ++ [x])).
Proof.
  intros Hd Hx Ax. split.
  - destruct (dll_PushFront _ _ _ _ _ Hd Hx Ax) as (h' & Hrun & Hd' & _).
    exists h'. split; [done|]. split; [by eapply dll_elements|]. split; [|done].
    rewrite (dll_Len _ _ _ _ Hd'). do 2 f_equal. simpl length. lia.
  - destruct (dll_PushBack _ _ _ _ _ Hd Hx Ax) as (h' & Hrun & Hd' & _).
    exists h'. split; [done|]. split; [by eapply dll_elements|]. split; [|done].
    rewrite (dll_Len _ _ _ _ Hd'). do 2 f_equal. rewrite length_app. simpl length. lia.
Qed.

(** X3: with a mark that is in the list, [InsertAfter] links a node
    that is in no list right after the mark and [InsertBefore] right
    before it; both return the node. *)
Theorem lruList_Insert_next_to_mark h ll r l1 mark l2 x :
  dll h ll r (l1 ++ mark :: l2) → x ∉ r :: l1 ++ mark :: l2 → is_Some (nodeAt h !! x) →
  (∃ h', lruList_InsertAfter (Some ll) (Some x) (Some mark) h = Some (Some x, h') ∧
         lruList_elements (Some ll) h' = l1 ++ mark :: x :: l2 ∧
         dll h' ll r (l1 ++ mark :: x :: l2)) ∧
  (∃ h', lruList_InsertBefore (Some ll) (Some x) (Some mark) h = Some (Some x, h') ∧
         lruList_elements (Some ll) h' = l1 ++ x :: mark :: l2 ∧
         dll h' ll r (l1 ++ x :: mark :: l2)).
Proof.
  intros Hd Hx Ax. split.
  - destruct (dll_InsertAfter _ _ _ _ _ _ _ Hd Hx Ax) as (h' & Hrun & Hd' & _).
    exists h'. split; [done|]. split; [by eapply dll_elements|done].
  - destruct (dll_InsertBefore _ _ _ _ _ _ _ Hd Hx Ax) as (h' & Hrun & Hd' & _).
    exists h'. split; [done|]. split; [by eapply dll_elements|done].
Qed.

(** X4: [Remove] of a node of the list unlinks it and returns it: the
    other nodes keep their order, [Len] drops by one, and the node's
    [next], [prev] and [list] fields are nil while its key, value and
    expiry are untouched. *)
Theorem lruList_Remove_unlinks h ll r l1 x l2 :
  dll h ll r (l1 ++ x :: l2) →
  ∃ h', lruList_Remove (Some ll) (Some x) h = Some (Some x, h') ∧
    lruList_elements (Some ll) h' = l1 ++ l2 ∧
    lruList_Len (Some ll) h' = Some (Z.of_nat (length l1 + length l2), h') ∧
    dll h' ll r (l1 ++ l2) ∧
    nxt h' x = None ∧ prv h' x = None ∧ own h' x = None ∧ data h' x = data h x.
Proof.
  intros Hd. destruct (dll_Remove _ _ _ _ _ _ Hd) as (h' & Hrun & Hd' & HD & _ & Hn & Hp & Ho).
  exists h'. split; [done|]. split; [by eapply dll_elements|]. split.
  { rewrite (dll_Len _ _ _ _ Hd'). by rewrite length_app. }
  done.
Qed.

(** X5: [MoveToFront] makes a node of the list the first and
    [MoveToBack] the last; the other nodes keep their order. *)
Theorem lruList_MoveTo_ends h ll r l1 x l2 :
  dll h ll r (l1 ++ x :: l2) →
  (∃ h', lruList_MoveToFront (Some ll) (Some x) h = Some ((), h') ∧
         lruList_elements (Some ll) h' = x :: l1 ++ l2 ∧
         dll h' ll r (x :: l1 ++ l2)) ∧
  (∃ h', lruList_MoveToBack (Some ll) (Some x) h = Some ((), h') ∧
         lruList_elements (Some ll) h' = l1 ++ l2 ++ [x] ∧
         dll h' ll r (l1 ++ l2 ++ [x])).
Proof.
  intros Hd. split.
  - destruct (dll_MoveToFront _ _ _ _ _ _ Hd) as (h' & Hrun & Hd' & _).
    exists h'. split; [done|]. split; [by eapply dll_elements|done].
  - destruct (dll_MoveToBack _ _ _ _ _ _ Hd) as (h' & Hrun & Hd' & _).
    exists h'. split; [done|]. split; [by eapply dll_elements|done].
Qed.

(** X6: [MoveAfter] takes a node of the list out of its place and
    links it right after the mark, [MoveBefore] right before it,
    whether the mark comes before the node or after it; the other
    nodes keep their order. *)
Theorem lruList_Move_next_to_mark h ll r l x mark :
  dll h ll r l →
  (∀ a b c, l = a ++ mark :: b ++ x :: c →
     (∃ h', lruList_MoveAfter (Some ll) (Some x) (Some mark) h = Some ((), h') ∧
            lruList_elements (Some ll) h' = a ++ mark :: x :: b ++ c) ∧
     (∃ h', lruList_MoveBefore (Some ll) (Some x) (Some mark) h = Some ((), h') ∧
            lruList_elements (Some ll) h' = a ++ x :: mark :: b ++ c)) ∧
  (∀ a b c, l = a ++ x :: b ++ mark :: c →
     (∃ h', lruList_MoveAfter (Some ll) (Some x) (Some mark) h = Some ((), h') ∧
            lruList_elements (Some ll) h' = a ++ b ++ mark :: x :: c) ∧
     (∃ h', lruList_MoveBefore (Some ll) (Some x) (Some mark) h = Some ((), h') ∧
            lruList_elements (Some ll) h' = a ++ b ++ x :: mark :: c)).
Proof.
  intros Hd. split; intros a b c ->.
  - destruct (dll_Move_mark_first _ _ _ _ _ _ _ _ Hd)
      as [(h1 & R1 & D1 & _) (h2 & R2 & D2 & _)].
    split; [exists h1|exists h2]; (split; [done|by eapply dll_elements]).
  - destruct (dll_Move_node_first _ _ _ _ _ _ _ _ Hd)
      as [(h1 & R1 & D1 & _) (h2 & R2 & D2 & _)].
    split; [exists h1|exists h2]; (split; [done|by eapply dll_elements]).
Qed.

(** X7: once a node has been removed from the list, the list
    operations leave it alone: a second [Remove], [MoveToFront],
    [MoveToBack], [MoveBefore] and [MoveAfter] of it change nothing,
    [InsertBefore] and [InsertAfter] with it as the mark return nil and
    change nothing, moving a node of the list next to it changes
    nothing, and its [Next] and [Prev] are nil. *)
Theorem removed_node_is_inert h ll r l1 x l2 :
  dll h ll r (l1 ++ x :: l2) →
  ∃ h', lruList_Remove (Some ll) (Some x) h = Some (Some x, h') ∧
    lruList_Remove (Some ll) (Some x) h' = Some (Some x, h') ∧
    lruList_MoveToFront (Some ll) (Some x) h' = Some ((), h') ∧
    lruList_MoveToBack (Some ll) (Some x) h' = Some ((), h') ∧
    (∀ mark, lruList_MoveBefore (Some ll) (Some x) mark h' = Some ((), h') ∧
             lruList_MoveAfter (Some ll) (Some x) mark h' = Some ((), h')) ∧
    (∀ y, lruList_InsertBefore (Some ll) y (Some x) h' = Some (None, h') ∧
          lruList_InsertAfter (Some ll) y (Some x) h' = Some (None, h')) ∧
    (∀ y, y ∈ l1 ++ l2 →
          lruList_MoveBefore (Some ll) (Some y) (Some x) h' = Some ((), h') ∧
          lruList_MoveAfter (Some ll) (Some y) (Some x) h' = Some ((), h')) ∧
    lruListNode_Next (Some x) h' = Some (None, h') ∧
    lruListNode_Prev (Some x) h' = Some (None, h').
Proof.
  intros Hd. destruct (dll_Remove _ _ _ _ _ _ Hd) as (h' & Hrun & Hd' & HD & HA & Hn & Hp & Ho).
  assert (is_Some (nodeAt h' !! x)) as Ax.
  { apply HA. eapply dll_alloc; [exact Hd|]. right. apply in_middle. }
  assert (own h' x ≠ Some ll) as Hne by (by rewrite Ho).
  destruct (foreign_node_noop h' ll x Ax Hne) as (R1 & R2 & R3 & R4 & R5).
  destruct (unowned_Next_Prev h' x Ax Ho) as [R6 R7].
  exists h'. repeat (split; [done|]). split; [|done].
  intros y Hy. by eapply foreign_mark_noop.
Qed.

(** X8: [PushBackList] and [PushFrontList] link the nodes of the other
    list themselves, not copies.  With an empty other list they change
    nothing; with another list of one node, that node becomes the last
    (the first) node of the list; with another list of two nodes or
    more they panic, because the node just linked has no [Next]
    ([Prev]) in the list it came from any more. *)
Theorem lruList_PushList_links_one_node_or_panics h ll r l other ro lo :
  dll h ll r l → dll h other ro lo → (∀ y, y ∈ lo → y ∉ r :: l) →
  match lo with
  | [] =>
      lruList_PushBackList (Some ll) (Some other) h = Some ((), h) ∧
      lruList_PushFrontList (Some ll) (Some other) h = Some ((), h)
  | [a] =>
      (∃ h', lruList_PushBackList (Some ll) (Some other) h = Some ((), h') ∧
             lruList_elements (Some ll) h' = l ++ [a]) ∧
      (∃ h', lruList_PushFrontList (Some ll) (Some other) h = Some ((), h') ∧
             lruList_elements (Some ll) h' = a :: l)
  | _ :: _ :: _ =>
      lruList_PushBackList (Some ll) (Some other) h = None ∧
      lruList_PushFrontList (Some ll) (Some other) h = None
  end.
Proof.
  intros Hd Ho Hdis. unfold lruList_PushBackList, lruList_PushFrontList.
  rewrite !(bind_run _ _ _ _ _ (dll_Len _ _ _ _ Ho)).
  rewrite (bind_run _ _ _ _ _ (dll_Front _ _ _ _ Ho)).
  rewrite (bind_run _ _ _ _ _ (dll_Back _ _ _ _ Ho)).
  rewrite Nat2Z.id.
  destruct lo as [|a [|b lo]].
  - done.
  - assert (a ∉ r :: l) as Ha by (apply Hdis; by left).
    assert (is_Some (nodeAt h !! a)) as Aa by (eapply dll_alloc; [exact Ho|right; by left]).
    destruct (PushBackList_loop_run h ll r l a 0 Hd Ha Aa) as (h1 & D1 & _ & R1).
    destruct (PushFrontList_loop_run h ll r l a 0 Hd Ha Aa) as (h2 & D2 & _ & R2).
    split; [exists h1|exists h2]; (split; [done|by eapply dll_elements]).
  - assert (a ∉ r :: l) as Ha by (apply Hdis; by left).
    assert (is_Some (nodeAt h !! a)) as Aa by (eapply dll_alloc; [exact Ho|right; by left]).
    destruct (last (a :: b :: lo)) as [z|] eqn:Ez; [|by apply last_None in Ez].
    assert (z ∈ a :: b :: lo) as Hz by (by apply last_Some_elem_of).
    assert (is_Some (nodeAt h !! z)) as Az by (eapply dll_alloc; [exact Ho|by right]).
    destruct (PushBackList_loop_run h ll r l a (S (length lo)) Hd Ha Aa) as (h1 & _ & _ & R1).
    destruct (PushFrontList_loop_run h ll r l z (S (length lo)) Hd (Hdis z Hz) Az)
      as (h2 & _ & _ & R2).
    split; [exact R1|exact R2].
Qed.

(** ** Telemetry counters *)

(** X9: for each of the five counters, [setCounter] followed by
    [getCounter] reads the value stored and leaves the four other
    counters as they were; through a nil [*telemetry] both panic. *)
Theorem telemetry_set_then_get t mode value :
  (∃ t', telemetry_setCounter mode value (Some t) = Some ((), Some t') ∧
         telemetry_getCounter (Some t') mode = Some value ∧
         ∀ mode', mode' ≠ mode →
           telemetry_getCounter (Some t') mode' = telemetry_getCounter (Some t) mode') ∧
  telemetry_setCounter mode value None = None ∧
  telemetry_getCounter None mode = None.
Proof.
  split; [|done]. destruct t, mode; (eexists; split; [reflexivity|]);
    (split; [reflexivity|]); intros []; done.
Qed.

(** ** The shard on its entries *)

Lemma step_reachable s op s' :
  reachable s → op_enabled s op → runOp op s = Some ((), s') → reachable s'.
Proof. apply reach_step. Qed.


Lemma fmap_snd_removelast (al al' : list (loc * entry)) p :
  al = al' ++ [p] → al'.*2 = removelast al.*2.
Proof.
  intros ->. rewrite fmap_app. change ([p].*2) with [p.2]. by rewrite removelast_last.
Qed.

(** X11: [Set] of a key that is absent links the new entry first; when
    the count passed in has reached [maxItems] it then removes the last
    entry of the list (the new one itself if the shard was empty) and
    returns [evicted], otherwise it returns [added]. *)
Theorem Set_of_absent_key_inserts_and_evicts_last s cacheLen key value ttl :
  reachable s → shard_nodes s !! key = None →
  let full := bool_decide (shard_maxItems s ≤ cacheLen) in
  ∃ s', lruCacheShard_Set cacheLen key value ttl s = Some ((full, negb full), s') ∧
    shard_entries s' =
      if full then removelast ((key, value, ttl) :: shard_entries s)
      else (key, value, ttl) :: shard_entries s.
Proof.
  intros Hr Hk full. destruct (reachable_repr s Hr) as (ll & r & al & Hs).
  destruct (Set_new_run _ _ _ _ cacheLen key value ttl Hs Hk)
    as (s' & al' & Hrun & Hs' & _ & Hev).
  assert (bool_decide (cacheLen < shard_maxItems s) = negb full) as El.
  { unfold full. repeat case_bool_decide; simpl; try done; lia. }
  rewrite El in Hrun. fold full in Hrun, Hev.
  exists s'. split; [done|].
  rewrite (repr_entries _ _ _ _ Hs), (repr_entries _ _ _ _ Hs').
  destruct full.
  - destruct Hev as (a & e' & Eal & _).
    by rewrite (fmap_snd_removelast _ _ _ Eal).
  - by destruct Hev as [-> _].
Qed.

(** X12: [Set] of a key that is present replaces the value and the
    expiry of its entry and makes it the first; the other entries keep
    their order, nothing is evicted whatever the count passed in, and
    it returns neither [evicted] nor [added]. *)
Theorem Set_of_present_key_updates_in_place s cacheLen key value ttl :
  reachable s → is_Some (shard_nodes s !! key) →
  ∃ s', lruCacheShard_Set cacheLen key value ttl s = Some ((false, false), s') ∧
    shard_entries s' =
      (key, value, ttl) :: filter (λ e, entry_key e ≠ key) (shard_entries s) ∧
    length (shard_entries s') = length (shard_entries s) ∧
    shard_nodes s' = shard_nodes s.
Proof.
  intros Hr [p Hk]. destruct (reachable_repr s Hr) as (ll & r & al & Hs).
  destruct (repr_hit _ _ _ _ _ _ Hs Hk) as (al1 & a & e & al2 & -> & -> & <-).
  destruct (Set_upd_run _ _ _ _ _ _ _ cacheLen value ttl Hs) as (s' & Hrun & Hs' & _).
  exists s'. split; [done|].
  rewrite (repr_entries _ _ _ _ Hs), (repr_entries _ _ _ _ Hs').
  split; [|split].
  - rewrite (filter_key_middle _ _ _ _ _ _ _ Hs). done.
  - rewrite !length_fmap. simpl. rewrite !length_app. simpl. lia.
  - apply map_eq. intros k. apply option_eq. intros q.
    rewrite (repr_nodes _ _ _ _ Hs'), (repr_nodes _ _ _ _ Hs).
    split; intros (a' & e' & Hin & Hke & ->).
    + apply elem_of_cons in Hin as [[= -> ->]|Hin].
      * exists a, e. split; [apply in_middle|done].
      * exists a', e'. split; [|done]. apply in_middle_inv. by right.
    + apply in_middle_inv in Hin as [[= -> ->]|Hin].
      * exists a, (entry_key e, value, ttl). split; [by left|done].
      * exists a', e'. split; [by right|done].
Qed.

Lemma repr_head_reads s ll r a e al :
  shard_repr s ll r ((a, e) :: al) →
  (∃ s', lruCacheShard_Get (entry_key e) s = Some ((entry_value e, true), s')) ∧
  (∃ s', lruCacheShard_Peek (entry_key e) s = Some ((entry_value e, true), s')) ∧
  (∃ s', lruCacheShard_Contains (entry_key e) s = Some (true, s')).
Proof.
  intros Hs. split; [|split].
  - destruct (Get_hit_run s ll r [] a e al Hs) as (s' & Hrun & _). eauto.
  - destruct (Peek_hit_run s ll r _ a e Hs ltac:(by left)) as (s' & Hrun & _). eauto.
  - destruct (Contains_hit_run s ll r _ a e Hs ltac:(by left)) as (s' & Hrun & _). eauto.
Qed.

Lemma Set_readback s cacheLen key value ttl :
  reachable s → cacheLen < shard_maxItems s ∨ shard_nodes s ≠ ∅ →
  ∃ res s1, lruCacheShard_Set cacheLen key value ttl s = Some (res, s1) ∧
    head (shard_entries s1) = Some (key, value, ttl) ∧
    (∃ s2, lruCacheShard_Get key s1 = Some ((value, true), s2)) ∧
    (∃ s2, lruCacheShard_Peek key s1 = Some ((value, true), s2)) ∧
    (∃ s2, lruCacheShard_Contains key s1 = Some (true, s2)).
Proof.
  intros Hr Hok. destruct (reachable_repr s Hr) as (ll & r & al & Hs).
  assert (∀ res s1 a al1,
            lruCacheShard_Set cacheLen key value ttl s = Some (res, s1) →
            shard_repr s1 ll r ((a, (key, value, ttl)) :: al1) →
            ∃ res s1, lruCacheShard_Set cacheLen key value ttl s = Some (res, s1) ∧
              head (shard_entries s1) = Some (key, value, ttl) ∧
              (∃ s2, lruCacheShard_Get key s1 = Some ((value, true), s2)) ∧
              (∃ s2, lruCacheShard_Peek key s1 = Some ((value, true), s2)) ∧
              (∃ s2, lruCacheShard_Contains key s1 = Some (true, s2))) as Hfin.
  { intros res s1 a al1 Hrun Hs1. exists res, s1. split; [done|]. split.
    - by rewrite (repr_entries _ _ _ _ Hs1).
    - apply (repr_head_reads _ _ _ _ _ _ Hs1). }
  destruct (shard_nodes s !! key) as [p|] eqn:Hk.
  - destruct (repr_hit _ _ _ _ _ _ Hs Hk) as (al1 & a & e & al2 & -> & -> & <-).
    destruct (Set_upd_run _ _ _ _ _ _ _ cacheLen value ttl Hs) as (s' & Hrun & Hs' & _).
    eapply Hfin; eauto.
  - destruct (decide (cacheLen < shard_maxItems s)) as [Hlt|Hge].
    + destruct (Set_insert_run _ _ _ _ cacheLen key value ttl Hs Hk Hlt)
        as (s' & x & Hrun & Hs' & _).
      eapply Hfin; eauto.
    + destruct Hok as [?|Hne]; [done|].
      destruct (snoc_view al) as [->|(al0 & b & ->)].
      { exfalso. apply Hne. apply map_eq. intros k.
        rewrite (repr_nil_lookup _ _ _ k Hs). by rewrite lookup_empty. }
      destruct (Set_evict_run _ _ _ _ _ cacheLen key value ttl Hs Hk ltac:(lia))
        as (s' & x & Hrun & Hs' & _).
      eapply Hfin; eauto.
Qed.

(** X10: what [Set] stores can be read back: unless the shard is empty
    and the count passed in has reached [maxItems] (when the new entry
    is evicted at once), after [Set(key, value)] the entry is the first
    of the list and [Get], [Peek] and [Contains] of the key find it,
    the first two with the value stored. *)
Theorem Set_then_read_returns_the_value s cacheLen key value ttl :
  reachable s → cacheLen < shard_maxItems s ∨ shard_nodes s ≠ ∅ →
  ∃ res s1, lruCacheShard_Set cacheLen key value ttl s = Some (res, s1) ∧
    head (shard_entries s1) = Some (key, value, ttl) ∧
    (∃ s2, lruCacheShard_Get key s1 = Some ((value, true), s2)) ∧
    (∃ s2, lruCacheShard_Peek key s1 = Some ((value, true), s2)) ∧
    (∃ s2, lruCacheShard_Contains key s1 = Some (true, s2)).
Proof. apply Set_readback. Qed.

(** X13: [Get] of a key that is present returns its value and makes its
    entry the first, the other entries keeping their order; [Get] of a
    key that is absent returns the nil value and [false] and leaves the
    entries as they are. *)
Theorem Get_promotes_the_entry s key :
  reachable s →
  match shard_nodes s !! key with
  | Some _ =>
      ∃ e s', lruCacheShard_Get key s = Some ((entry_value e, true), s') ∧
        entry_key e = key ∧ e ∈ shard_entries s ∧
        shard_entries s' = e :: filter (λ e', entry_key e' ≠ key) (shard_entries s)
  | None =>
      ∃ s', lruCacheShard_Get key s = Some (([], false), s') ∧
        shard_entries s' = shard_entries s
  end.
Proof.
  intros Hr. destruct (reachable_repr s Hr) as (ll & r & al & Hs).
  destruct (shard_nodes s !! key) as [p|] eqn:Hk.
  - destruct (repr_hit _ _ _ _ _ _ Hs Hk) as (al1 & a & e & al2 & -> & -> & <-).
    destruct (Get_hit_run _ _ _ _ _ _ _ Hs) as (s' & Hrun & Hs' & _).
    exists e, s'. split; [done|]. split; [done|].
    rewrite (repr_entries _ _ _ _ Hs), (repr_entries _ _ _ _ Hs'). split.
    + apply (list_elem_of_fmap_2 snd _ (a, e)), in_middle.
    + by rewrite (filter_key_middle _ _ _ _ _ _ _ Hs).
  - destruct (Get_miss_run _ _ _ _ key Hs Hk) as (s' & Hrun & Hs' & _).
    exists s'. split; [done|].
    by rewrite (repr_entries _ _ _ _ Hs), (repr_entries _ _ _ _ Hs').
Qed.

Lemma repr_nodes_eq s s' ll r al :
  shard_repr s ll r al → shard_repr s' ll r al → shard_nodes s' = shard_nodes s.
Proof.
  intros Hs Hs'. apply map_eq. intros k. apply option_eq. intros q.
  by rewrite (repr_nodes _ _ _ _ Hs'), (repr_nodes _ _ _ _ Hs).
Qed.

(** X14: [Peek] and [Contains] read without reordering: they find a
    key exactly when the map holds it, [Peek] returns the value of its
    entry (the nil value when absent), and both leave the entries, their
    order and the map as they are. *)
Theorem Peek_and_Contains_do_not_reorder s key :
  reachable s →
  ∃ v found s1 s2,
    lruCacheShard_Peek key s = Some ((v, found), s1) ∧
    lruCacheShard_Contains key s = Some (found, s2) ∧
    found = bool_decide (is_Some (shard_nodes s !! key)) ∧
    (if found then ∃ ttl, (key, v, ttl) ∈ shard_entries s else v = []) ∧
    shard_entries s1 = shard_entries s ∧ shard_nodes s1 = shard_nodes s ∧
    shard_entries s2 = shard_entries s ∧ shard_nodes s2 = shard_nodes s.
Proof.
  intros Hr. destruct (reachable_repr s Hr) as (ll & r & al & Hs).
  destruct (shard_nodes s !! key) as [p|] eqn:Hk.
  - destruct (repr_hit _ _ _ _ _ _ Hs Hk) as (al1 & a & e & al2 & -> & -> & <-).
    destruct (Peek_hit_run _ _ _ _ a e Hs (in_middle _ _ _)) as (s1 & R1 & Hs1 & _).
    destruct (Contains_hit_run _ _ _ _ a e Hs (in_middle _ _ _)) as (s2 & R2 & Hs2 & _).
    exists (entry_value e), true, s1, s2. split; [done|]. split; [done|].
    split; [by rewrite bool_decide_true by eauto|].
    rewrite (repr_entries _ _ _ _ Hs), (repr_entries _ _ _ _ Hs1),
      (repr_entries _ _ _ _ Hs2).
    split; [|by rewrite (repr_nodes_eq _ _ _ _ _ Hs Hs1), (repr_nodes_eq _ _ _ _ _ Hs Hs2)].
    exists (entry_ttl e). destruct e as [[k v] t]. simpl.
    apply (list_elem_of_fmap_2 snd _ (a, (k, v, t))), in_middle.
  - destruct (Peek_miss_run _ _ _ _ key Hs Hk) as (s1 & R1 & Hs1 & _).
    destruct (Contains_miss_run _ _ _ _ key Hs Hk) as (s2 & R2 & Hs2 & _).
    exists [], false, s1, s2. split; [done|]. split; [done|].
    split; [by rewrite bool_decide_false by (by intros [? ?])|].
    rewrite (repr_entries _ _ _ _ Hs), (repr_entries _ _ _ _ Hs1),
      (repr_entries _ _ _ _ Hs2).
    by rewrite (repr_nodes_eq _ _ _ _ _ Hs Hs1), (repr_nodes_eq _ _ _ _ _ Hs Hs2).
Qed.

(** X15: [Purge] empties the shard: no entry is left, the map is
    empty and every key is absent afterwards; the configuration and the
    telemetry are kept, and no hook is called for the entries dropped. *)
Theorem Purge_empties_the_shard s :
  reachable s →
  ∃ s', lruCacheShard_Purge s = Some ((), s') ∧
    shard_entries s' = [] ∧ shard_nodes s' = ∅ ∧
    lruList_Len (shard_list s') (shard_mem s') = Some (0, shard_mem s') ∧
    shard_calls s' = shard_calls s ∧ same_cfg s s' ∧
    ∀ key, ∃ s'', lruCacheShard_Contains key s' = Some (false, s'').
Proof.
  intros Hr. destruct (reachable_repr s Hr) as (ll & r & al & Hs).
  destruct (Purge_run _ _ _ _ Hs) as (s' & ll' & r' & Hrun & Hs' & Hc & Hcalls).
  exists s'. split; [done|]. split; [by rewrite (repr_entries _ _ _ _ Hs')|].
  assert (shard_nodes s' = ∅) as He.
  { apply map_eq. intros k. rewrite (repr_nil_lookup _ _ _ k Hs'). by rewrite lookup_empty. }
  split; [done|]. split.
  { rewrite (repr_list _ _ _ _ Hs'). apply (dll_Len _ _ _ _ (repr_dll _ _ _ _ Hs')). }
  split; [done|]. split; [done|].
  intros key. destruct (Contains_miss_run _ _ _ _ key Hs') as (s'' & R & _); [|eauto].
  by rewrite He, lookup_empty.
Qed.

(** X17: no shard operation raises a telemetry counter: after any
    sequence of sets, gets, peeks, contains, removes, sweeps and
    purges on a new shard, [Telemetry()] returns counters that all
    read 0. *)
Theorem shard_counters_stay_zero s :
  reachable s →
  ∃ t, lruCacheShard_Telemetry s = Some (Some t, s) ∧
    GetAddCounter (Some t) = Some 0 ∧ GetUpdateCounter (Some t) = Some 0 ∧
    GetHitCounter (Some t) = Some 0 ∧ GetMissCounter (Some t) = Some 0 ∧
    GetEvictCounter (Some t) = Some 0.
Proof.
  intros Hr. assert (shard_telemetry s = Some newTelemetry) as Ht.
  { induction Hr as [config id s Hnew|s op s' Hr IH Hen Hrun].
    - destruct (newLRUCacheShard_run config id) as (s0 & ll & r & Hnew' & _ & _ & _ & _ & _ & Ht & _).
      congruence.
    - destruct (reachable_repr s Hr) as (ll & r & al & Hs).
      destruct (runOp_repr _ _ _ _ op Hs) as (s'' & _ & _ & _ & Hrun' & _ & Hc).
      assert (s'' = s') as -> by congruence.
      destruct Hc as (_ & _ & _ & _ & ->). done. }
  exists newTelemetry. unfold lruCacheShard_Telemetry, gets. rewrite Ht. done.
Qed.

Lemma expired_mono now now' e : now' ≤ now → expired now' e = true → expired now e = true.
Proof.
  unfold expired, Time_Before. intros Hle [H1 H2]%andb_true_iff.
  apply andb_true_iff. split; [|done].
  apply bool_decide_eq_true in H1. apply bool_decide_eq_true. lia.
Qed.

(** X16: a sweep leaves nothing for a second sweep at the same or an
    earlier instant: whatever the order in which the second one visits
    the keys, it returns 0 and leaves the entries and the map as they
    are. *)
Theorem CleanupShard_twice_removes_nothing s now order now' order' :
  reachable s → sweep_order s order → now' ≤ now →
  ∃ n s1 s2, CleanupShard_in order now s = Some (n, s1) ∧
    CleanupShard_in order' now' s1 = Some (0, s2) ∧
    shard_entries s2 = shard_entries s1 ∧ shard_nodes s2 = shard_nodes s1.
Proof.
  intros Hr Horder Hle. destruct (reachable_repr s Hr) as (ll & r & al & Hs).
  destruct (CleanupShard_loop_run now order s ll r al 0 Hs) as (s1 & evs & R1 & Hs1 & _).
  set (al1 := filter (λ p, ¬ swept now order p) al) in *.
  destruct (CleanupShard_loop_run now' order' s1 ll r al1 0 Hs1) as (s2 & evs' & R2 & Hs2 & _).
  assert (filter (λ p, ¬ swept now' order' p) al1 = al1) as Eal.
  { apply list_filter_all. intros [a e] [Hns Hin]%list_elem_of_filter [Hex _]. cbn in *.
    apply Hns. split; [by eapply expired_mono|]. cbn.
    rewrite Horder, (repr_keys_perm _ _ _ _ Hs).
    apply list_elem_of_fmap. exists e. split; [done|].
    apply list_elem_of_fmap. by exists (a, e). }
  rewrite Eal in R2, Hs2.
  eexists _, s1, s2. split; [exact R1|]. split.
  - unfold CleanupShard_in. rewrite R2. do 2 f_equal. lia.
  - split.
    + by rewrite (repr_entries _ _ _ _ Hs1), (repr_entries _ _ _ _ Hs2).
    + by eapply repr_nodes_eq.
Qed.

(** ** The default routing function *)

(** X18: [generateShardId] returns an index that is at least 0 and
    below its second argument whenever that is a positive [int64]; with
    0 as second argument it panics (division by zero). *)
Theorem generateShardId_below_its_modulus key :
  generateShardId key 0 = None ∧
  ∀ maxItems, 0 < maxItems < 2 ^ 63 →
    ∃ i, generateShardId key maxItems = Some i ∧ 0 ≤ i < maxItems.
Proof.
  split; [|intros m Hm; by apply generateShardId_range].
  unfold generateShardId, Sha1.Uint64.
  rewrite decide_True by (rewrite sha1_sum_length; lia). done.
Qed.

(** ** The cache: running an operation on the routed shard *)

Lemma gate_open c method : cache_open c → gate method (cache_status c) = None.
Proof. by intros [->| ->]. Qed.

Lemma onShard_run {A} (m : M lruCacheShard A) c i sh a sh' :
  cache_shards c !! i = Some sh → m sh = Some (a, sh') →
  onShard (Z.of_nat i) m c = Some (a, set_shards (<[i := sh']> (cache_shards c)) c).
Proof.
  intros Hsh Hm. unfold onShard. rewrite decide_True by lia. by rewrite Nat2Z.id, Hsh, Hm.
Qed.

Ltac run_cache :=
  unfold LRUCache_Status, setEntry, len_Add, gets, must, modify; unfold_m; cbn.

Lemma LRUCache_Get_run c key i sh r sh' :
  cache_open c → routed c key i sh → lruCacheShard_Get key sh = Some (r, sh') →
  LRUCache_Get key c = Some ((r.1, None), set_shards (<[i := sh']> (cache_shards c)) c).
Proof.
  intros Ho [Hi Hsh] Hrun. unfold LRUCache_Get. run_cache.
  rewrite (gate_open _ _ Ho), Hi. cbn. by rewrite (onShard_run _ _ _ _ _ _ Hsh Hrun).
Qed.

Lemma LRUCache_Peek_run c key i sh r sh' :
  cache_open c → routed c key i sh → lruCacheShard_Peek key sh = Some (r, sh') →
  LRUCache_Peek key c = Some ((r.1, None), set_shards (<[i := sh']> (cache_shards c)) c).
Proof.
  intros Ho [Hi Hsh] Hrun. unfold LRUCache_Peek. run_cache.
  rewrite (gate_open _ _ Ho), Hi. cbn. by rewrite (onShard_run _ _ _ _ _ _ Hsh Hrun).
Qed.

Lemma LRUCache_Contains_run c key i sh r sh' :
  cache_open c → routed c key i sh → lruCacheShard_Contains key sh = Some (r, sh') →
  LRUCache_Contains key c = Some ((r, None), set_shards (<[i := sh']> (cache_shards c)) c).
Proof.
  intros Ho [Hi Hsh] Hrun. unfold LRUCache_Contains. run_cache.
  rewrite (gate_open _ _ Ho), Hi. cbn. by rewrite (onShard_run _ _ _ _ _ _ Hsh Hrun).
Qed.


Lemma setEntry_routed c key value ttl i sh r sh' :
  routed c key i sh → lruCacheShard_Set (cache_len c) key value ttl sh = Some (r, sh') →
  ∃ c', setEntry key value ttl c = Some ((key, None), c') ∧
    cache_shards c' = <[i := sh']> (cache_shards c) ∧
    cache_status c' = cache_status c ∧ cache_maxItems c' = cache_maxItems c ∧
    cache_generateShardId c' = cache_generateShardId c ∧
    cache_telemetryOn c' = cache_telemetryOn c ∧
    cache_len c' = (if r.1 then int64 (int64 (cache_len c + -1) + 1)
                    else int64 (cache_len c + 1)) ∧
    cache_isCleanupTickerActive c' = cache_isCleanupTickerActive c.
Proof.
  intros [Hi Hsh] Hrun. run_cache. rewrite Hi. cbn.
  rewrite (onShard_run _ _ _ _ _ _ Hsh Hrun). cbn.
  destruct r as [[] ?]; cbn; eexists; (split; [reflexivity|]); done.
Qed.

Lemma LRUCache_Set_run c key value i sh r sh' :
  cache_open c → key ≠ "" → routed c key i sh →
  lruCacheShard_Set (cache_len c) key value 0 sh = Some (r, sh') →
  ∃ c', LRUCache_Set key value c = Some ((key, None), c') ∧
    cache_shards c' = <[i := sh']> (cache_shards c) ∧
    cache_status c' = cache_status c ∧ cache_maxItems c' = cache_maxItems c ∧
    cache_generateShardId c' = cache_generateShardId c ∧
    cache_telemetryOn c' = cache_telemetryOn c ∧
    cache_len c' = (if r.1 then int64 (int64 (cache_len c + -1) + 1)
                    else int64 (cache_len c + 1)) ∧
    cache_isCleanupTickerActive c' = cache_isCleanupTickerActive c.
Proof.
  intros Ho Hkey Hr Hrun.
  destruct (setEntry_routed _ _ _ _ _ _ _ _ Hr Hrun) as (c' & Hset & Hrest).
  exists c'. split; [|done]. unfold LRUCache_Set, LRUCache_Status, gets. unfold_m. cbn.
  rewrite (gate_open _ _ Ho). cbn. rewrite decide_False by done. cbn. by rewrite Hset.
Qed.

(** The expiry that [SetWithTTL] computes. *)
Lemma LRUCache_SetWithTTL_run c now key value duration i sh r sh' :
  cache_open c → key ≠ "" → routed c key i sh →
  let ttl := if decide (duration > 0)
             then now + int64 (int64 duration * 1000000000)
             else now + int64 (int64 (cache_expiryDurationInSeconds c) * 1000000000) in
  lruCacheShard_Set (cache_len c) key value ttl sh = Some (r, sh') →
  ∃ c', LRUCache_SetWithTTL now key value duration c = Some ((key, None), c') ∧
    cache_shards c' = <[i := sh']> (cache_shards c) ∧
    cache_status c' = cache_status c ∧ cache_maxItems c' = cache_maxItems c ∧
    cache_generateShardId c' = cache_generateShardId c ∧
    cache_telemetryOn c' = cache_telemetryOn c ∧
    cache_len c' = (if r.1 then int64 (int64 (cache_len c + -1) + 1)
                    else int64 (cache_len c + 1)) ∧
    cache_isCleanupTickerActive c' = cache_isCleanupTickerActive c.
Proof.
  intros Ho Hkey Hr ttl Hrun.
  destruct (setEntry_routed _ _ _ _ _ _ _ _ Hr Hrun) as (c' & Hset & Hrest).
  exists c'. split; [|done]. unfold LRUCache_SetWithTTL, LRUCache_Status, gets. unfold_m. cbn.
  rewrite (gate_open _ _ Ho). cbn. rewrite decide_False by done. cbn. fold ttl. by rewrite Hset.
Qed.

(** X23: through the cache, what [Set] stores can be read back: on a
    started cache whose routing function sends the key to one of its
    shards, unless that shard is empty and the cache counter has reached
    [maxItems], [Set(key, value)] returns the key and no error, touches
    no other shard, and [Get], [Peek] and [Contains] of the key then
    return the value, the value and [true], with no error. *)
Theorem LRUCache_Set_then_read c key value i sh :
  cache_open c → key ≠ "" → routed c key i sh → reachable sh →
  cache_len c < shard_maxItems sh ∨ shard_nodes sh ≠ ∅ →
  ∃ c1, LRUCache_Set key value c = Some ((key, None), c1) ∧
    (∀ j, j ≠ i → cache_shards c1 !! j = cache_shards c !! j) ∧
    (∃ c2, LRUCache_Get key c1 = Some ((value, None), c2)) ∧
    (∃ c2, LRUCache_Peek key c1 = Some ((value, None), c2)) ∧
    (∃ c2, LRUCache_Contains key c1 = Some ((true, None), c2)).
Proof.
  intros Ho Hkey Hr Hsh Hok. pose proof Hr as [Hi Hlook].
  destruct (Set_readback sh (cache_len c) key value 0 Hsh Hok)
    as (res & sh1 & Hset & _ & (s2 & Hget) & (s3 & Hpeek) & (s4 & Hcont)).
  destruct (LRUCache_Set_run _ _ _ _ _ _ _ Ho Hkey Hr Hset)
    as (c1 & Hrun & Hshards & Hst & Hmax & Hgen & _).
  assert (cache_open c1) as Ho1 by (unfold cache_open; by rewrite Hst).
  assert (routed c1 key i sh1) as Hr1.
  { split; [by rewrite Hgen, Hmax|]. rewrite Hshards. apply list_lookup_insert_eq.
    by eapply lookup_lt_Some. }
  exists c1. split; [done|]. split.
  { intros j Hj. rewrite Hshards. by apply list_lookup_insert_ne. }
  split; [|split].
  - eexists. by rewrite (LRUCache_Get_run _ _ _ _ _ _ Ho1 Hr1 Hget).
  - eexists. by rewrite (LRUCache_Peek_run _ _ _ _ _ _ Ho1 Hr1 Hpeek).
  - eexists. by rewrite (LRUCache_Contains_run _ _ _ _ _ _ Ho1 Hr1 Hcont).
Qed.


(** ** A new cache *)

Lemma newLRUCacheShard_new config id s :
  newLRUCacheShard config id = Some s →
  reachable s ∧ shard_id s = id ∧ shard_nodes s = ∅ ∧
  shard_maxItems s = cfg_MaxItems config ∧ shard_telemetryOn s = cfg_TelemetryOn config.
Proof.
  intros Hnew. split; [by eapply reach_new|].
  destruct (newLRUCacheShard_run config id) as (s0 & ll & r & Hnew' & Hs & Hid & Hm & _ & Ht & _).
  assert (s0 = s) as -> by congruence. split; [done|]. split; [|done].
  apply map_eq. intros k. rewrite (repr_nil_lookup _ _ _ k Hs). by rewrite lookup_empty.
Qed.

Lemma newShards_run config n :
  ∃ shards, newShards config n = Some shards ∧ length shards = n ∧
    ∀ i sh, shards !! i = Some sh → newLRUCacheShard config (Z.of_nat i) = Some sh.
Proof.
  unfold newShards.
  assert (is_Some (mapM (λ i : nat, newLRUCacheShard config (Z.of_nat i)) (seq 0 n)))
    as [shards Hm].
  { apply mapM_is_Some, Forall_forall. intros i _. cbn.
    destruct (newLRUCacheShard_run config (Z.of_nat i)) as (s & _ & _ & -> & _). eauto. }
  exists shards. split; [done|]. apply mapM_Some_1 in Hm. split.
  - apply Forall2_length in Hm. by rewrite length_seq in Hm.
  - intros i sh Hi. destruct (Forall2_lookup_r _ _ _ _ _ Hm Hi) as (x & Hx & Hf).
    apply lookup_seq in Hx as [-> _]. done.
Qed.

Lemma cache_size_zero shards :
  (∀ i sh, shards !! i = Some sh → shard_nodes sh = ∅) →
  foldr (λ sh acc, Z.of_nat (size (shard_nodes sh)) + acc) 0 shards = 0.
Proof.
  induction shards as [|sh shards IH]; intros H; [done|]. simpl.
  rewrite (H 0%nat sh eq_refl), IH; [done|]. intros i sh' Hi. by apply (H (S i)).
Qed.

Lemma NewLRUCache_run config :
  0 ≤ cfg_MaxShards config →
  ∃ c, NewLRUCache config = Some c ∧
    cache_status c = Started ∧ cache_isCleanupTickerActive c = true ∧
    cache_len c = 0 ∧ cache_size c = 0 ∧
    cache_maxShards c = cfg_MaxShards config ∧ cache_maxItems c = cfg_MaxItems config ∧
    Z.of_nat (length (cache_shards c)) = cfg_MaxShards config ∧
    ∀ i sh, cache_shards c !! i = Some sh →
      reachable sh ∧ shard_id sh = Z.of_nat i ∧ shard_nodes sh = ∅ ∧
      shard_maxItems sh = cfg_MaxItems config ∧
      shard_telemetryOn sh = cfg_TelemetryOn config.
Proof.
  intros Hge. unfold NewLRUCache. rewrite decide_False by lia.
  destruct (newShards_run config (Z.to_nat (cfg_MaxShards config)))
    as (shards & -> & Hlen & Hsh).
  eexists. split; [reflexivity|]. cbn.
  repeat (split; [done|]). split; [|split; [done|split; [done|split; [lia|]]]].
  + apply cache_size_zero. intros i sh Hi.
    by destruct (newLRUCacheShard_new _ _ _ (Hsh i sh Hi)) as (_ & _ & ? & _).
  + intros i sh Hi. by apply newLRUCacheShard_new, Hsh.
Qed.


(** ** Stopping, closing and purging *)

(** X20: after [Stop()] the six keyed operations return the error
    that names them and leave the cache as it is: no entry, no counter
    and no recency order changes; [Start()] lifts the refusal. *)
Theorem stopped_cache_refuses_keyed_operations c key value now duration :
  let c' := set_status Stopped c in
  LRUCache_Stop c = Some ((), c') ∧
  LRUCache_Set key value c' =
    Some (("", Some "cache is stopped, must be started before calling method Set()"), c') ∧
  LRUCache_SetWithTTL now key value duration c' =
    Some (("", Some "cache is stopped, must be started before calling method SetWithTTL()"), c') ∧
  LRUCache_Get key c' =
    Some (([], Some "cache is stopped, must be started before calling method Get()"), c') ∧
  LRUCache_Contains key c' =
    Some ((false, Some "cache is stopped, must be started before calling method Contains()"), c') ∧
  LRUCache_Peek key c' =
    Some (([], Some "cache is stopped, must be started before calling method Peek()"), c') ∧
  LRUCache_Remove key c' =
    Some ((false, Some "cache is stopped, must be started before calling method Remove()"), c') ∧
  (LRUCache_Start c' = Some ((), set_status Started c) ∧ cache_open (set_status Started c)).
Proof. repeat split; try reflexivity. by right. Qed.

(** X21: [Close()] drops the shards and leaves the status [Closed]:
    every operation then returns the error "cache is closed" and changes
    nothing.  [Start()] after [Close()] lifts the refusal without
    bringing the shards back, so that every keyed operation panics. *)
Theorem closed_cache_refuses_and_restart_panics c key value now duration :
  ∃ c', LRUCache_Close c = Some ((), c') ∧
    cache_status c' = Closed ∧ cache_shards c' = [] ∧
    LRUCache_Set key value c' = Some (("", Some "cache is closed"), c') ∧
    LRUCache_SetWithTTL now key value duration c' = Some (("", Some "cache is closed"), c') ∧
    LRUCache_Get key c' = Some (([], Some "cache is closed"), c') ∧
    LRUCache_Contains key c' = Some ((false, Some "cache is closed"), c') ∧
    LRUCache_Peek key c' = Some (([], Some "cache is closed"), c') ∧
    LRUCache_Remove key c' = Some ((false, Some "cache is closed"), c') ∧
    LRUCache_Purge c' = Some (Some "cache is closed", c') ∧
    LRUCache_Telemetry c' = Some ((None, Some "cache is closed"), c') ∧
    LRUCache_TelemetryReset c' = Some (Some "cache is closed", c') ∧
    (LRUCache_Start;; LRUCache_Set key value) c' = None ∧
    (LRUCache_Start;; LRUCache_SetWithTTL now key value duration) c' = None ∧
    (LRUCache_Start;; LRUCache_Get key) c' = None ∧
    (LRUCache_Start;; LRUCache_Contains key) c' = None ∧
    (LRUCache_Start;; LRUCache_Peek key) c' = None ∧
    (LRUCache_Start;; LRUCache_Remove key) c' = None.
Proof.
  eexists. split; [reflexivity|]. do 11 (split; [reflexivity|]).
  assert (∀ {A} (m : M lruCacheShard A) i c0,
            cache_shards c0 = [] → onShard i m c0 = None) as Hnil.
  { intros A m i c0 E. unfold onShard. rewrite E. by destruct (decide _). }
  repeat split.
  all: unfold LRUCache_Start, LRUCache_Set, LRUCache_SetWithTTL, LRUCache_Get,
         LRUCache_Contains, LRUCache_Peek, LRUCache_Remove; run_cache.
  all: repeat case_decide; cbn;
         try (destruct (cache_generateKey c value) as [k|]; cbn; [|done]);
         repeat match goal with
         | |- context [cache_generateShardId ?c0 ?k ?m] =>
             destruct (cache_generateShardId c0 k m) as [?|]; cbn; [|done]
         end;
         by rewrite Hnil.
Qed.

Lemma set_shards_id c : set_shards (cache_shards c) c = c.
Proof. by destruct c. Qed.

Lemma Purge_total sh :
  ∃ sh', lruCacheShard_Purge sh = Some ((), sh') ∧ shard_nodes sh' = ∅ ∧
         (reachable sh → reachable sh') ∧ shard_maxItems sh' = shard_maxItems sh.
Proof.
  destruct (newLRUList_run (shard_mem sh)) as (ll & r & h' & Hnew & _).
  assert (∃ sh', lruCacheShard_Purge sh = Some ((), sh') ∧ shard_nodes sh' = ∅ ∧
                 shard_maxItems sh' = shard_maxItems sh)
    as (sh' & Hrun & He & Hm).
  { unfold lruCacheShard_Purge, inMem, zoom, modify. unfold_m. rewrite Hnew. cbn.
    eexists. split; [reflexivity|done]. }
  exists sh'. split; [done|]. split; [done|]. split; [|done]. intros Hr.
  by apply (reach_step sh OpPurge sh' Hr I).
Qed.

Lemma forShards_Purge_run n : ∀ i c,
  (i + n = length (cache_shards c))%nat →
  ∃ shards', forShards lruCacheShard_Purge i n c = Some ((), set_shards shards' c) ∧
    length shards' = length (cache_shards c) ∧
    (Forall reachable (cache_shards c) → Forall reachable shards') ∧
    (∀ m, Forall (λ sh, shard_maxItems sh = m) (cache_shards c) →
          Forall (λ sh, shard_maxItems sh = m) shards') ∧
    ∀ j sh', shards' !! j = Some sh' →
      if decide (i ≤ j)%nat then shard_nodes sh' = ∅ else cache_shards c !! j = Some sh'.
Proof.
  induction n as [|n IH]; intros i c Hlen.
  - exists (cache_shards c). cbn. rewrite set_shards_id. repeat split; [done|done|].
    intros j sh' Hj. rewrite decide_False; [done|].
    apply lookup_lt_Some in Hj. lia.
  - destruct (lookup_lt_is_Some_2 (cache_shards c) i ltac:(lia)) as [sh Hsh].
    destruct (Purge_total sh) as (sh1 & Hrun & He & Hreach & Hmax).
    cbn [forShards]. erewrite bind_run; [|eapply onShard_run; [exact Hsh|exact Hrun]].
    destruct (IH (S i) (set_shards (<[i := sh1]> (cache_shards c)) c))
      as (shards' & Hrec & Hlen' & Hr' & Hm' & Hall).
    { cbn. rewrite length_insert. lia. }
    exists shards'. split; [exact Hrec|]. cbn in Hlen', Hr', Hm', Hall.
    rewrite length_insert in Hlen'. split; [done|]. split; [|split].
    + intros HF. apply Hr'. apply Forall_insert; [done|].
      apply Hreach. by eapply Forall_lookup_1.
    + intros m HF. apply Hm'. apply Forall_insert; [done|].
      rewrite Hmax. by eapply (Forall_lookup_1 _ _ _ _ HF).
    + intros j sh' Hj. specialize (Hall j sh' Hj).
      destruct (decide (S i ≤ j)%nat).
      * by rewrite decide_True by lia.
      * destruct (decide (j = i)) as [->|Hne].
        -- rewrite decide_True by lia. rewrite list_lookup_insert_eq in Hall by lia.
           by injection Hall as <-.
        -- rewrite decide_False by lia. by rewrite list_lookup_insert_ne in Hall.
Qed.

(** X22: [Purge] is refused on a started cache and on a closed one,
    with an error and no change; on a stopped cache it empties every
    shard and returns no error, leaving the status, the number of
    shards and the counter [len] as they were. *)
Theorem LRUCache_Purge_needs_a_stopped_cache c :
  match cache_status c with
  | Closed => LRUCache_Purge c = Some (Some "cache is closed", c)
  | Started =>
      LRUCache_Purge c =
        Some (Some "cache is started, must be stopped before calling method Purge()", c)
  | _ =>
      ∃ c', LRUCache_Purge c = Some (None, c') ∧ cache_size c' = 0 ∧
        (∀ j sh, cache_shards c' !! j = Some sh → shard_nodes sh = ∅) ∧
        length (cache_shards c') = length (cache_shards c) ∧
        cache_status c' = cache_status c ∧ cache_len c' = cache_len c
  end.
Proof.
  assert (cache_status c ≠ Closed → cache_status c ≠ Started →
          ∃ c', LRUCache_Purge c = Some (None, c') ∧ cache_size c' = 0 ∧
            (∀ j sh, cache_shards c' !! j = Some sh → shard_nodes sh = ∅) ∧
            length (cache_shards c') = length (cache_shards c) ∧
            cache_status c' = cache_status c ∧ cache_len c' = cache_len c) as Hgo.
  { intros H1 H2.
    destruct (forShards_Purge_run (length (cache_shards c)) 0 c eq_refl)
      as (shards' & Hrun & Hlen & _ & _ & Hall).
    assert (∀ j sh, shards' !! j = Some sh → shard_nodes sh = ∅) as He.
    { intros j sh Hj. specialize (Hall j sh Hj). by rewrite decide_True in Hall by lia. }
    exists (set_shards shards' c). split.
    - unfold LRUCache_Purge. run_cache.
      destruct (cache_status c); try done; by rewrite Hrun.
    - split; [by apply cache_size_zero|]. done. }
  destruct (cache_status c) eqn:E.
  - by apply Hgo.
  - unfold LRUCache_Purge. run_cache. by rewrite E.
  - by apply Hgo.
  - unfold LRUCache_Purge. run_cache. by rewrite E.
Qed.

(** ** No panic when the routing stays inside the shards *)

Lemma then_unit_inv {S A} (m : M S A) s s' :
  (m;; mret ()) s = Some ((), s') → ∃ a, m s = Some (a, s').
Proof.
  unfold_m. destruct (m s) as [[a s1]|]; [|done]. intros [= ->]. eauto.
Qed.



Lemma safe_route c key :
  cache_safe c → ∃ i sh, routed c key i sh ∧ reachable sh.
Proof.
  intros (HF & Hroute & _). destruct (Hroute key) as (i & Hi & Hlt).
  destruct (lookup_lt_is_Some_2 _ _ Hlt) as [sh Hsh].
  exists i, sh. split; [done|]. by eapply Forall_lookup_1.
Qed.

Lemma safe_insert c c' i sh' :
  cache_safe c → reachable sh' →
  cache_shards c' = <[i := sh']> (cache_shards c) →
  cache_maxItems c' = cache_maxItems c →
  cache_generateShardId c' = cache_generateShardId c →
  cache_telemetryOn c' = cache_telemetryOn c →
  cache_safe c'.
Proof.
  intros (HF & Hroute & Ht) Hr Es Em Eg Et. split; [|split].
  - rewrite Es. destruct (decide (i < length (cache_shards c))%nat).
    + by apply Forall_insert.
    + by rewrite list_insert_ge by lia.
  - intros key. rewrite Es, Em, Eg, length_insert. apply Hroute.
  - by rewrite Et.
Qed.

Lemma safe_status c st : cache_safe c → cache_safe (set_status st c).
Proof. by intros (? & ? & ?). Qed.

Lemma status_cases c : cache_open c ∨ cache_status c = Stopped ∨ cache_status c = Closed.
Proof. unfold cache_open. destruct (cache_status c); auto. Qed.

(** ** The periodic sweep over the shards *)





(** ** Running whole sequences of operations *)





(** ** The hooks *)

Lemma emitted_off s c : shard_telemetryOn s = false → emitted s c = [].
Proof. unfold emitted. by intros ->. Qed.

Lemma runOp_calls s ll r al op s' :
  shard_repr s ll r al → runOp op s = Some ((), s') → shard_telemetryOn s = false →
  shard_calls s' = shard_calls s.
Proof.
  intros Hs Hrun Hoff.
  assert (∀ s'' evs, runOp op s = Some ((), s'') → shard_calls s'' = shard_calls s ++ evs →
            evs = [] → shard_calls s' = shard_calls s) as Hfin.
  { intros s'' evs Hrun' Hc ->. rewrite app_nil_r in Hc. congruence. }
  destruct op as [cacheLen key value ttl|key|key|key|key|order now|]; cbn [runOp] in *.
  - destruct (shard_nodes s !! key) as [p|] eqn:Hk.
    + destruct (repr_hit _ _ _ _ _ _ Hs Hk) as (al1 & a & e & al2 & -> & -> & <-).
      destruct (Set_upd_run _ _ _ _ _ _ _ cacheLen value ttl Hs) as (s1 & R & _ & _ & Hc).
      eapply Hfin; [by erewrite bind_run|exact Hc|by apply emitted_off].
    + destruct (Set_new_run _ _ _ _ cacheLen key value ttl Hs Hk)
        as (s1 & al' & R & _ & _ & Hev).
      destruct (bool_decide (shard_maxItems s ≤ cacheLen)).
      * destruct Hev as (a & e' & _ & Hc & _).
        eapply Hfin; [by erewrite bind_run|exact Hc|by rewrite !emitted_off].
      * destruct Hev as [_ Hc].
        eapply Hfin; [by erewrite bind_run|exact Hc|by apply emitted_off].
  - destruct (shard_nodes s !! key) as [p|] eqn:Hk.
    + destruct (repr_hit _ _ _ _ _ _ Hs Hk) as (al1 & a & e & al2 & -> & -> & <-).
      destruct (Get_hit_run _ _ _ _ _ _ _ Hs) as (s1 & R & _ & _ & Hc).
      eapply Hfin; [by erewrite bind_run|exact Hc|by apply emitted_off].
    + destruct (Get_miss_run _ _ _ _ key Hs Hk) as (s1 & R & _ & _ & Hc).
      eapply Hfin; [by erewrite bind_run|exact Hc|by apply emitted_off].
  - destruct (shard_nodes s !! key) as [p|] eqn:Hk.
    + destruct (repr_hit _ _ _ _ _ _ Hs Hk) as (al1 & a & e & al2 & -> & -> & <-).
      destruct (Peek_hit_run _ _ _ _ a e Hs (in_middle _ _ _)) as (s1 & R & _ & _ & Hc).
      eapply Hfin; [by erewrite bind_run|exact Hc|by apply emitted_off].
    + destruct (Peek_miss_run _ _ _ _ key Hs Hk) as (s1 & R & _ & _ & Hc).
      eapply Hfin; [by erewrite bind_run|exact Hc|by apply emitted_off].
  - destruct (shard_nodes s !! key) as [p|] eqn:Hk.
    + destruct (repr_hit _ _ _ _ _ _ Hs Hk) as (al1 & a & e & al2 & -> & -> & <-).
      destruct (Contains_hit_run _ _ _ _ a e Hs (in_middle _ _ _)) as (s1 & R & _ & _ & Hc).
      eapply Hfin; [by erewrite bind_run|exact Hc|by apply emitted_off].
    + destruct (Contains_miss_run _ _ _ _ key Hs Hk) as (s1 & R & _ & _ & Hc).
      eapply Hfin; [by erewrite bind_run|exact Hc|by apply emitted_off].
  - destruct (shard_nodes s !! key) as [p|] eqn:Hk.
    + destruct (repr_hit _ _ _ _ _ _ Hs Hk) as (al1 & a & e & al2 & -> & -> & <-).
      destruct (Remove_hit_run _ _ _ _ _ _ _ Hs) as (s1 & R & _ & Hc & _).
      eapply Hfin; [by erewrite bind_run|exact Hc|by apply emitted_off].
    + destruct (Remove_miss_run _ _ _ _ key Hs Hk) as (s1 & R & _ & _ & Hc & _).
      eapply Hfin; [by erewrite bind_run|exact Hc|by apply emitted_off].
  - destruct (CleanupShard_loop_run now order s ll r al 0 Hs)
      as (s1 & evs & R & _ & _ & Hc & _ & Hlen).
    eapply Hfin; [by unfold CleanupShard_in; erewrite bind_run|exact Hc|].
    rewrite Hoff in Hlen. destruct evs; [done|simpl in Hlen; lia].
  - destruct (Purge_run _ _ _ _ Hs) as (s1 & ll' & r' & R & _ & _ & Hc).
    assert (s1 = s') as -> by congruence. done.
Qed.

Lemma reachable_silent s :
  reachable s → shard_telemetryOn s = false → shard_calls s = [].
Proof.
  induction 1 as [config id s Hnew|s op s' Hr IH Hen Hrun]; intros Hoff.
  - destruct (newLRUCacheShard_run config id) as (s0 & ll & r & Hnew' & _ & _ & _ & _ & _ & _ & Hc).
    congruence.
  - destruct (reachable_repr s Hr) as (ll & r & al & Hs).
    destruct (runOp_repr _ _ _ _ op Hs) as (s'' & _ & _ & _ & Hrun' & _ & Hcfg).
    assert (s'' = s') as -> by congruence.
    destruct Hcfg as (_ & _ & _ & Ht & _). rewrite Ht in Hoff.
    rewrite (runOp_calls _ _ _ _ _ _ Hs Hrun Hoff). by apply IH.
Qed.

(** X27: the shard calls its hooks only with telemetry on.  With
    telemetry off no operation ever calls one.  With telemetry on,
    [Get], [Peek] and [Contains] each call exactly one: the hit hook,
    with the node the map holds for the key, when the key is present,
    and the miss hook, with the key, when it is absent. *)
Theorem hooks_follow_the_telemetry_switch s key :
  reachable s →
  (shard_telemetryOn s = false → shard_calls s = []) ∧
  let c := match shard_nodes s !! key with
           | Some p => λ lg, CallOnHit lg p
           | None => λ lg, CallOnMiss lg key
           end in
  ∃ r1 s1 r2 s2 r3 s3,
    lruCacheShard_Get key s = Some (r1, s1) ∧
    lruCacheShard_Peek key s = Some (r2, s2) ∧
    lruCacheShard_Contains key s = Some (r3, s3) ∧
    shard_calls s1 = shard_calls s ++ (if shard_telemetryOn s then [c (shard_loggingOn s)] else []) ∧
    shard_calls s2 = shard_calls s ++ (if shard_telemetryOn s then [c (shard_loggingOn s)] else []) ∧
    shard_calls s3 = shard_calls s ++ (if shard_telemetryOn s then [c (shard_loggingOn s)] else []).
Proof.
  intros Hr. split; [by apply reachable_silent|].
  destruct (reachable_repr s Hr) as (ll & r & al & Hs).
  destruct (shard_nodes s !! key) as [p|] eqn:Hk; cbn.
  - destruct (repr_hit _ _ _ _ _ _ Hs Hk) as (al1 & a & e & al2 & -> & -> & <-).
    destruct (Get_hit_run _ _ _ _ _ _ _ Hs) as (s1 & R1 & _ & _ & C1).
    destruct (Peek_hit_run _ _ _ _ a e Hs (in_middle _ _ _)) as (s2 & R2 & _ & _ & C2).
    destruct (Contains_hit_run _ _ _ _ a e Hs (in_middle _ _ _)) as (s3 & R3 & _ & _ & C3).
    eexists _, s1, _, s2, _, s3. done.
  - destruct (Get_miss_run _ _ _ _ key Hs Hk) as (s1 & R1 & _ & _ & C1).
    destruct (Peek_miss_run _ _ _ _ key Hs Hk) as (s2 & R2 & _ & _ & C2).
    destruct (Contains_miss_run _ _ _ _ key Hs Hk) as (s3 & R3 & _ & _ & C3).
    eexists _, s1, _, s2, _, s3. done.
Qed.

(** ** The default key generator *)

(** X28: with the default key generator, [Set] and [SetWithTTL] of
    the empty key panic on a cache that is open: the generator hashes
    the value and then asserts the digest, a byte slice, to the key
    type, a string. *)
Theorem default_key_generator_panics c value now duration :
  cache_open c → cache_generateKey c = generateKey →
  LRUCache_Set "" value c = None ∧
  LRUCache_SetWithTTL now "" value duration c = None.
Proof.
  intros Ho Hg. unfold LRUCache_Set, LRUCache_SetWithTTL. run_cache.
  rewrite !(gate_open _ _ Ho), Hg. done.
Qed.

(** ** The capacity *)

Lemma cache_size_nonneg c : 0 ≤ cache_size c.
Proof.
  unfold cache_size. induction (cache_shards c) as [|sh l IH]; simpl; lia.
Qed.

Lemma int64_small x : - 2 ^ 63 ≤ x < 2 ^ 63 → int64 x = x.
Proof. intros H. unfold int64. rewrite Z.mod_small by lia. lia. Qed.

Lemma shard_step_cfg s op s' :
  reachable s → runOp op s = Some ((), s') → shard_maxItems s' = shard_maxItems s.
Proof.
  intros Hr Hrun. destruct (reachable_repr s Hr) as (ll & r & al & Hs).
  destruct (runOp_repr _ _ _ _ op Hs) as (s'' & _ & _ & _ & Hrun' & _ & Hc).
  assert (s'' = s') as -> by congruence. by destruct Hc as (_ & -> & _).
Qed.

Lemma read_keeps_size s op :
  match op with OpGet _ | OpPeek _ | OpContains _ => True | _ => False end →
  reachable s →
  ∃ s', runOp op s = Some ((), s') ∧ reachable s' ∧
    size (shard_nodes s') = size (shard_nodes s) ∧
    shard_maxItems s' = shard_maxItems s.
Proof.
  intros Hop Hr. destruct (reachable_repr s Hr) as (ll & r & al & Hs).
  assert (∀ s' al', runOp op s = Some ((), s') → shard_repr s' ll r al' →
            length al' = length al →
            ∃ s', runOp op s = Some ((), s') ∧ reachable s' ∧
              size (shard_nodes s') = size (shard_nodes s) ∧
              shard_maxItems s' = shard_maxItems s) as Hfin.
  { intros s' al' Hrun Hs' Hlen. exists s'. split; [done|].
    split; [eapply reach_step; [done| |done]; by destruct op|].
    split; [|by eapply shard_step_cfg].
    by rewrite (repr_size _ _ _ _ Hs), (repr_size _ _ _ _ Hs'). }
  destruct op as [| key | key | key | | |]; try done; cbn [runOp].
  - destruct (shard_nodes s !! key) as [p|] eqn:Hk.
    + destruct (repr_hit _ _ _ _ _ _ Hs Hk) as (al1 & a & e & al2 & -> & -> & <-).
      destruct (Get_hit_run _ _ _ _ _ _ _ Hs) as (s' & Hrun & Hs' & _).
      eapply Hfin; [cbn [runOp]; by erewrite bind_run|exact Hs'|].
      simpl. rewrite !length_app. simpl. lia.
    + destruct (Get_miss_run _ _ _ _ key Hs Hk) as (s' & Hrun & Hs' & _).
      eapply Hfin; [cbn [runOp]; by erewrite bind_run|exact Hs'|done].
  - destruct (shard_nodes s !! key) as [p|] eqn:Hk.
    + destruct (repr_hit _ _ _ _ _ _ Hs Hk) as (al1 & a & e & al2 & -> & -> & <-).
      destruct (Peek_hit_run _ _ _ _ a e Hs (in_middle _ _ _)) as (s' & Hrun & Hs' & _).
      eapply Hfin; [cbn [runOp]; by erewrite bind_run|exact Hs'|done].
    + destruct (Peek_miss_run _ _ _ _ key Hs Hk) as (s' & Hrun & Hs' & _).
      eapply Hfin; [cbn [runOp]; by erewrite bind_run|exact Hs'|done].
  - destruct (shard_nodes s !! key) as [p|] eqn:Hk.
    + destruct (repr_hit _ _ _ _ _ _ Hs Hk) as (al1 & a & e & al2 & -> & -> & <-).
      destruct (Contains_hit_run _ _ _ _ a e Hs (in_middle _ _ _)) as (s' & Hrun & Hs' & _).
      eapply Hfin; [cbn [runOp]; by erewrite bind_run|exact Hs'|done].
    + destruct (Contains_miss_run _ _ _ _ key Hs Hk) as (s' & Hrun & Hs' & _).
      eapply Hfin; [cbn [runOp]; by erewrite bind_run|exact Hs'|done].
Qed.

Lemma capacity_weaken m k c : within_capacity m (k + 1) c → within_capacity m k c.
Proof.
  intros (H1 & H2 & H3 & H4 & H5). split; [done|]. split; [done|]. split; [done|].
  split; [done|lia].
Qed.

(** The cache after the routed shard has run [Set]. *)
Lemma capacity_after_Set m k c c' i sh sh' key value ttl :
  within_capacity m (k + 1) c → 0 ≤ k →
  routed c key i sh → reachable sh →
  let absent := bool_decide (shard_nodes sh !! key = None) in
  let full := bool_decide (shard_maxItems sh ≤ cache_len c) in
  lruCacheShard_Set (cache_len c) key value ttl sh
    = Some ((absent && full, absent && negb full), sh') →
  reachable sh' →
  Z.of_nat (size (shard_nodes sh')) =
    Z.of_nat (size (shard_nodes sh)) + (if absent && negb full then 1 else 0) →
  cache_shards c' = <[i := sh']> (cache_shards c) →
  cache_maxItems c' = cache_maxItems c →
  cache_generateShardId c' = cache_generateShardId c →
  cache_telemetryOn c' = cache_telemetryOn c →
  cache_len c' = (if absent && full then int64 (int64 (cache_len c + -1) + 1)
                  else int64 (cache_len c + 1)) →
  within_capacity m k c'.
Proof.
  intros (Hsafe & Hmax & Hsl & Hsm & Hlen) Hk [Hi Hsh] Hr absent full Hrun Hr' Hsize
    Es Em Eg Et El.
  pose proof (cache_size_nonneg c) as Hnn.
  assert (shard_maxItems sh = m) as Hm by (by eapply (Forall_lookup_1 _ _ _ _ Hmax)).
  assert (shard_maxItems sh' = m) as Hm'.
  { rewrite <-Hm. apply (shard_step_cfg sh (OpSet (cache_len c) key value ttl)); [done|].
    cbn [runOp]. by erewrite bind_run. }
  assert (cache_size c' = cache_size c + (if absent && negb full then 1 else 0)) as Esize.
  { unfold cache_size. rewrite Es, (cache_size_insert _ _ sh) by done. lia. }
  split; [by eapply safe_insert|]. split.
  { rewrite Es. by apply Forall_insert. }
  rewrite Esize, El. unfold full in *. rewrite Hm in *.
  destruct absent; simpl; [case_bool_decide; simpl|].
  - rewrite !int64_small by (rewrite ?int64_small; lia). lia.
  - rewrite !int64_small by lia. lia.
  - rewrite !int64_small by lia. lia.
Qed.

Lemma capacity_after_read m k c i sh sh' :
  within_capacity m (k + 1) c → cache_shards c !! i = Some sh → reachable sh' →
  size (shard_nodes sh') = size (shard_nodes sh) →
  shard_maxItems sh' = shard_maxItems sh →
  within_capacity m k (set_shards (<[i := sh']> (cache_shards c)) c).
Proof.
  intros (Hsafe & Hmax & Hsl & Hsm & Hlen) Hsh Hr' Hsize Hm.
  assert (cache_size (set_shards (<[i := sh']> (cache_shards c)) c) = cache_size c) as Es.
  { unfold cache_size. cbn. rewrite (cache_size_insert _ _ sh) by done. lia. }
  split; [by eapply safe_insert|]. split.
  { cbn. apply Forall_insert; [done|]. rewrite Hm. by eapply (Forall_lookup_1 _ _ _ _ Hmax). }
  rewrite Es. cbn. split; [lia|]. split; lia.
Qed.

Lemma capacity_step m k c op :
  within_capacity m (k + 1) c → 0 ≤ k → never_removes op →
  ∃ c', runCacheOp op c = Some ((), c') ∧ within_capacity m k c'.
Proof.
  intros Hcap Hk Hop. pose proof Hcap as (Hsafe & Hmax & Hsl & Hsm & Hlen).
  pose proof Hsafe as (HF & Hroute & Htel).
  destruct op as [key value|now key value duration|key|key|key|key| | | |clock| |];
    cbn [runCacheOp never_removes] in *; try done.
  - destruct (status_cases c) as [Ho|[Hst|Hst]].
    + destruct (safe_route c key Hsafe) as (i & sh & Hr & Hsh).
      destruct (Set_flags sh (cache_len c) key value 0 Hsh) as (sh' & Hrun & Hsh' & Hsize).
      destruct (LRUCache_Set_run _ _ _ _ _ _ _ Ho Hop Hr Hrun)
        as (c' & Hc & Es & _ & Em & Eg & Et & El & _).
      exists c'. split; [by erewrite bind_run|].
      by eapply (capacity_after_Set m k c c' i sh sh' key value 0).
    + exists c. split; [|by apply capacity_weaken].
      unfold LRUCache_Set. run_cache. by rewrite Hst.
    + exists c. split; [|by apply capacity_weaken].
      unfold LRUCache_Set. run_cache. by rewrite Hst.
  - destruct (status_cases c) as [Ho|[Hst|Hst]].
    + destruct (safe_route c key Hsafe) as (i & sh & Hr & Hsh).
      set (ttl := if decide (duration > 0)
                  then now + int64 (int64 duration * 1000000000)
                  else now + int64 (int64 (cache_expiryDurationInSeconds c) * 1000000000)).
      destruct (Set_flags sh (cache_len c) key value ttl Hsh) as (sh' & Hrun & Hsh' & Hsize).
      destruct (LRUCache_SetWithTTL_run _ now _ value duration _ _ _ _ Ho Hop Hr Hrun)
        as (c' & Hc & Es & _ & Em & Eg & Et & El & _).
      exists c'. split; [by erewrite bind_run|].
      by eapply (capacity_after_Set m k c c' i sh sh' key value ttl).
    + exists c. split; [|by apply capacity_weaken].
      unfold LRUCache_SetWithTTL. run_cache. by rewrite Hst.
    + exists c. split; [|by apply capacity_weaken].
      unfold LRUCache_SetWithTTL. run_cache. by rewrite Hst.
  - destruct (status_cases c) as [Ho|[Hst|Hst]].
    + destruct (safe_route c key Hsafe) as (i & sh & Hr & Hsh).
      destruct (read_keeps_size sh (OpGet key) I Hsh) as (sh' & Hrun & Hsh' & Hsize & Hm).
      cbn [runOp] in Hrun. apply then_unit_inv in Hrun as [a Hrun].
      exists (set_shards (<[i := sh']> (cache_shards c)) c).
      split; [by erewrite bind_run; [|by eapply LRUCache_Get_run]|].
      eapply capacity_after_read; [done|apply Hr|done..].
    + exists c. split; [|by apply capacity_weaken].
      unfold LRUCache_Get. run_cache. by rewrite Hst.
    + exists c. split; [|by apply capacity_weaken].
      unfold LRUCache_Get. run_cache. by rewrite Hst.
  - destruct (status_cases c) as [Ho|[Hst|Hst]].
    + destruct (safe_route c key Hsafe) as (i & sh & Hr & Hsh).
      destruct (read_keeps_size sh (OpContains key) I Hsh) as (sh' & Hrun & Hsh' & Hsize & Hm).
      cbn [runOp] in Hrun. apply then_unit_inv in Hrun as [a Hrun].
      exists (set_shards (<[i := sh']> (cache_shards c)) c).
      split; [by erewrite bind_run; [|by eapply LRUCache_Contains_run]|].
      eapply capacity_after_read; [done|apply Hr|done..].
    + exists c. split; [|by apply capacity_weaken].
      unfold LRUCache_Contains. run_cache. by rewrite Hst.
    + exists c. split; [|by apply capacity_weaken].
      unfold LRUCache_Contains. run_cache. by rewrite Hst.
  - destruct (status_cases c) as [Ho|[Hst|Hst]].
    + destruct (safe_route c key Hsafe) as (i & sh & Hr & Hsh).
      destruct (read_keeps_size sh (OpPeek key) I Hsh) as (sh' & Hrun & Hsh' & Hsize & Hm).
      cbn [runOp] in Hrun. apply then_unit_inv in Hrun as [a Hrun].
      exists (set_shards (<[i := sh']> (cache_shards c)) c).
      split; [by erewrite bind_run; [|by eapply LRUCache_Peek_run]|].
      eapply capacity_after_read; [done|apply Hr|done..].
    + exists c. split; [|by apply capacity_weaken].
      unfold LRUCache_Peek. run_cache. by rewrite Hst.
    + exists c. split; [|by apply capacity_weaken].
      unfold LRUCache_Peek. run_cache. by rewrite Hst.
  - destruct (forShards_Purge_run (length (cache_shards c)) 0 c eq_refl)
      as (shards' & Hrun & Hlen' & HF' & Hm' & Hall).
    pose proof (cache_size_nonneg c) as Hnn.
    assert (within_capacity m k (set_shards shards' c)) as Hcap'.
    { split; [split; [by apply HF'|split; [|done]]|].
      - cbn. rewrite Hlen'. apply Hroute.
      - split; [by apply Hm'|].
        assert (cache_size (set_shards shards' c) = 0) as ->.
        { apply cache_size_zero. intros j sh Hj. specialize (Hall j sh Hj).
          by rewrite decide_True in Hall by lia. }
        cbn. split; [lia|]. split; lia. }
    unfold LRUCache_Purge. run_cache.
    destruct (cache_status c); try (exists c; split; [done|by apply capacity_weaken]);
      rewrite Hrun; cbn; eexists; (split; [reflexivity|exact Hcap']).
  - eexists. split; [reflexivity|]. apply capacity_weaken in Hcap.
    destruct Hcap as (H1 & H2 & H3 & H4 & H5).
    split; [by apply safe_status|]. split; [done|]. split; [done|]. split; done.
  - eexists. split; [reflexivity|]. apply capacity_weaken in Hcap.
    destruct Hcap as (H1 & H2 & H3 & H4 & H5).
    split; [by apply safe_status|]. split; [done|]. split; [done|]. split; done.
  - exists c. split; [|by apply capacity_weaken]. unfold LRUCache_Telemetry. run_cache.
    destruct (cache_status c); cbn; rewrite ?Htel; done.
  - exists c. split; [|by apply capacity_weaken]. unfold LRUCache_TelemetryReset. run_cache.
    destruct (cache_status c); cbn; rewrite ?Htel; done.
Qed.

Lemma capacity_run m ops : ∀ c,
  within_capacity m (Z.of_nat (length ops)) c → Forall never_removes ops →
  ∃ c', runCacheOps ops c = Some ((), c') ∧ within_capacity m 0 c'.
Proof.
  induction ops as [|op ops IH]; intros c Hcap Hops.
  - by exists c.
  - apply Forall_cons in Hops as [Hop Hops].
    destruct (capacity_step m (Z.of_nat (length ops)) c op) as (c1 & Hrun & Hcap1);
      [|lia|done|].
    { replace (Z.of_nat (length ops) + 1) with (Z.of_nat (length (op :: ops)))
        by (simpl length; lia). done. }
    destruct (IH c1 Hcap1 Hops) as (c' & Hrec & Hcap').
    exists c'. split; [|done]. cbn [runCacheOps foldr]. by erewrite bind_run.
Qed.

(** X29: the capacity holds as long as no entry is removed one by one:
    on a new cache whose routing function sends every key to one of the
    shards, after any sequence of [Set] and [SetWithTTL] (of keys that
    are not empty), [Get], [Contains], [Peek], [Purge], [Start], [Stop],
    [Telemetry] and [TelemetryReset], the shards hold at most [MaxItems]
    entries in all, and no more than the counter [Len()] says. *)
Theorem capacity_without_removal config ops :
  (∀ key, ∃ i : nat,
     cfg_GenerateShardId config key (cfg_MaxItems config) = Some (Z.of_nat i) ∧
     Z.of_nat i < cfg_MaxShards config) →
  Forall never_removes ops → Z.of_nat (length ops) < 2 ^ 63 - 1 →
  ∃ c c', NewLRUCache config = Some c ∧ runCacheOps ops c = Some ((), c') ∧
    cache_size c' ≤ Z.max 0 (cfg_MaxItems config) ∧ cache_size c' ≤ cache_len c'.
Proof.
  intros Hroute Hops Hlen.
  assert (0 ≤ cfg_MaxShards config) as Hge.
  { destruct (Hroute "") as (i & _ & Hi). lia. }
  destruct (NewLRUCache_run config Hge)
    as (c & Hnew & Hst & _ & Hl & Hs & _ & Hm & Hn & Hsh).
  assert (within_capacity (cfg_MaxItems config) (Z.of_nat (length ops)) c) as Hcap.
  { split; [split; [|split]|split; [|split; [|split]]].
    - apply Forall_lookup. intros i sh Hi. by apply (Hsh i sh Hi).
    - intros key. destruct (Hroute key) as (i & Hi & Hlt). exists i.
      split; [|lia]. unfold NewLRUCache in Hnew. destruct (decide _); [done|].
      destruct (newShards _ _); [|done]. cbn in Hnew. injection Hnew as <-. done.
    - by eapply NewLRUCache_telemetryOn.
    - apply Forall_lookup. intros i sh Hi. by apply (Hsh i sh Hi).
    - lia.
    - lia.
    - lia. }
  destruct (capacity_run _ ops c Hcap Hops) as (c' & Hrun & _ & _ & H1 & H2 & _).
  by exists c, c'.
Qed.

(** ** An expiry from [SetWithTTL] to the sweep *)






(** ** The list properties at concrete inputs *)

Ltac by_evaluation := apply (bool_decide_unpack _); vm_compute; exact I.

Lemma lruList_traversal_witness :
  dll demoStore 0 0 [1; 2; 3]%N ∧
  lruList_Len (Some 0%N) demoStore = Some (3, demoStore) ∧
  lruList_Front (Some 0%N) demoStore = Some (Some 1%N, demoStore) ∧
  lruList_Back (Some 0%N) demoStore = Some (Some 3%N, demoStore) ∧
  lruList_elements_back (Some 0%N) demoStore = [3; 2; 1]%N ∧
  lruListNode_Next (Some 3%N) demoStore = Some (None, demoStore) ∧
  lruListNode_Prev (Some 3%N) demoStore = Some (Some 2%N, demoStore).
Proof.
  assert (dll demoStore 0 0 [1; 2; 3]%N) as Hd by by_evaluation.
  split; [exact Hd|].
  destruct (lruList_traversal _ _ _ _ Hd) as (H1 & H2 & H3 & _ & H5 & H6).
  split; [exact H1|]. split; [exact H2|]. split; [exact H3|]. split; [exact H5|].
  exact (H6 [1; 2]%N 3%N [] eq_refl).
Defined.

Lemma lruList_Push_links_at_the_ends_witness :
  dll demoStore 0 0 [1; 2; 3]%N ∧ (4%N ∉ [0; 1; 2; 3]%N) ∧ is_Some (nodeAt demoStore !! 4%N) ∧
  (∃ h', lruList_PushFront (Some 0%N) (Some 4%N) demoStore = Some (Some 4%N, h') ∧
         lruList_elements (Some 0%N) h' = [4; 1; 2; 3]%N) ∧
  (∃ h', lruList_PushBack (Some 0%N) (Some 4%N) demoStore = Some (Some 4%N, h') ∧
         lruList_elements (Some 0%N) h' = [1; 2; 3; 4]%N).
Proof.
  assert (dll demoStore 0 0 [1; 2; 3]%N) as Hd by by_evaluation.
  assert (4%N ∉ [0; 1; 2; 3]%N) as Hx by by_evaluation.
  assert (is_Some (nodeAt demoStore !! 4%N)) as Ax by (vm_compute; eauto).
  split; [exact Hd|]. split; [exact Hx|]. split; [exact Ax|].
  destruct (lruList_Push_links_at_the_ends _ _ _ _ _ Hd Hx Ax)
    as [(h1 & R1 & E1 & _) (h2 & R2 & E2 & _)].
  split; [exists h1|exists h2]; (split; [assumption|assumption]).
Defined.

Lemma lruList_Insert_next_to_mark_witness :
  dll demoStore 0 0 ([1] ++ 2 :: [3])%N ∧ (4%N ∉ (0 :: [1] ++ 2 :: [3])%N) ∧
  is_Some (nodeAt demoStore !! 4%N) ∧
  (∃ h', lruList_InsertAfter (Some 0%N) (Some 4%N) (Some 2%N) demoStore = Some (Some 4%N, h') ∧
         lruList_elements (Some 0%N) h' = [1; 2; 4; 3]%N) ∧
  (∃ h', lruList_InsertBefore (Some 0%N) (Some 4%N) (Some 2%N) demoStore = Some (Some 4%N, h') ∧
         lruList_elements (Some 0%N) h' = [1; 4; 2; 3]%N).
Proof.
  assert (dll demoStore 0 0 ([1] ++ 2 :: [3])%N) as Hd by by_evaluation.
  assert (4%N ∉ (0 :: [1] ++ 2 :: [3])%N) as Hx by by_evaluation.
  assert (is_Some (nodeAt demoStore !! 4%N)) as Ax by (vm_compute; eauto).
  split; [exact Hd|]. split; [exact Hx|]. split; [exact Ax|].
  destruct (lruList_Insert_next_to_mark _ _ _ _ _ _ _ Hd Hx Ax)
    as [(h1 & R1 & E1 & _) (h2 & R2 & E2 & _)].
  split; [exists h1|exists h2]; (split; [assumption|assumption]).
Defined.

Lemma lruList_Remove_unlinks_witness :
  dll demoStore 0 0 ([1] ++ 2 :: [3])%N ∧
  ∃ h', lruList_Remove (Some 0%N) (Some 2%N) demoStore = Some (Some 2%N, h') ∧
        lruList_elements (Some 0%N) h' = [1; 3]%N ∧
        lruList_Len (Some 0%N) h' = Some (2, h') ∧
        nodeAt h' !! 2%N = Some zeroNode.
Proof.
  assert (dll demoStore 0 0 ([1] ++ 2 :: [3])%N) as Hd by by_evaluation.
  split; [exact Hd|].
  destruct (lruList_Remove_unlinks _ _ _ _ _ _ Hd) as (h' & R & E & L & _).
  exists h'. split; [exact R|]. split; [exact E|]. split; [exact L|].
  assert (Some (Some 2%N, h') = lruList_Remove (Some 0%N) (Some 2%N) demoStore) as Eh
    by (symmetry; exact R).
  vm_compute in Eh. injection Eh as ->. vm_compute. reflexivity.
Defined.

Lemma lruList_MoveTo_ends_witness :
  dll demoStore 0 0 ([1] ++ 2 :: [3])%N ∧
  (∃ h', lruList_MoveToFront (Some 0%N) (Some 2%N) demoStore = Some ((), h') ∧
         lruList_elements (Some 0%N) h' = [2; 1; 3]%N) ∧
  (∃ h', lruList_MoveToBack (Some 0%N) (Some 2%N) demoStore = Some ((), h') ∧
         lruList_elements (Some 0%N) h' = [1; 3; 2]%N).
Proof.
  assert (dll demoStore 0 0 ([1] ++ 2 :: [3])%N) as Hd by by_evaluation.
  split; [exact Hd|].
  destruct (lruList_MoveTo_ends _ _ _ _ _ _ Hd) as [(h1 & R1 & E1 & _) (h2 & R2 & E2 & _)].
  split; [exists h1|exists h2]; (split; [assumption|assumption]).
Defined.

Lemma lruList_Move_next_to_mark_witness :
  dll demoStore 0 0 [1; 2; 3]%N ∧
  (∃ h', lruList_MoveAfter (Some 0%N) (Some 3%N) (Some 1%N) demoStore = Some ((), h') ∧
         lruList_elements (Some 0%N) h' = [1; 3; 2]%N) ∧
  (∃ h', lruList_MoveBefore (Some 0%N) (Some 3%N) (Some 1%N) demoStore = Some ((), h') ∧
         lruList_elements (Some 0%N) h' = [3; 1; 2]%N) ∧
  (∃ h', lruList_MoveAfter (Some 0%N) (Some 1%N) (Some 3%N) demoStore = Some ((), h') ∧
         lruList_elements (Some 0%N) h' = [2; 3; 1]%N) ∧
  (∃ h', lruList_MoveBefore (Some 0%N) (Some 1%N) (Some 3%N) demoStore = Some ((), h') ∧
         lruList_elements (Some 0%N) h' = [2; 1; 3]%N).
Proof.
  assert (dll demoStore 0 0 [1; 2; 3]%N) as Hd by by_evaluation.
  split; [exact Hd|].
  destruct (lruList_Move_next_to_mark _ _ _ _ 3%N 1%N Hd) as [H1 _].
  destruct (lruList_Move_next_to_mark _ _ _ _ 1%N 3%N Hd) as [_ H2].
  destruct (H1 [] [2]%N [] eq_refl) as [Ha Hb].
  destruct (H2 [] [2]%N [] eq_refl) as [Hc Hd'].
  split; [exact Ha|]. split; [exact Hb|]. split; [exact Hc|exact Hd'].
Defined.

Lemma removed_node_is_inert_witness :
  dll demoStore 0 0 ([1] ++ 2 :: [3])%N ∧
  ∃ h', lruList_Remove (Some 0%N) (Some 2%N) demoStore = Some (Some 2%N, h') ∧
        lruList_Remove (Some 0%N) (Some 2%N) h' = Some (Some 2%N, h') ∧
        lruList_MoveToFront (Some 0%N) (Some 2%N) h' = Some ((), h') ∧
        lruList_InsertAfter (Some 0%N) (Some 4%N) (Some 2%N) h' = Some (None, h') ∧
        lruList_MoveBefore (Some 0%N) (Some 3%N) (Some 2%N) h' = Some ((), h') ∧
        lruListNode_Next (Some 2%N) h' = Some (None, h').
Proof.
  assert (dll demoStore 0 0 ([1] ++ 2 :: [3])%N) as Hd by by_evaluation.
  split; [exact Hd|].
  destruct (removed_node_is_inert _ _ _ _ _ _ Hd)
    as (h' & R0 & R1 & R2 & _ & _ & R5 & R6 & R7 & _).
  exists h'. split; [exact R0|]. split; [exact R1|]. split; [exact R2|].
  split; [exact (proj2 (R5 (Some 4%N)))|].
  split; [|exact R7].
  apply (R6 3%N). by_evaluation.
Defined.

Lemma lruList_PushList_links_one_node_or_panics_witness :
  dll demoStore 0 0 [1; 2; 3]%N ∧ dll demoStore 1 5 [6; 7]%N ∧
  (∀ y, y ∈ [6; 7]%N → y ∉ [0; 1; 2; 3]%N) ∧
  lruList_PushBackList (Some 0%N) (Some 1%N) demoStore = None ∧
  lruList_PushFrontList (Some 0%N) (Some 1%N) demoStore = None.
Proof.
  assert (dll demoStore 0 0 [1; 2; 3]%N) as Hd by by_evaluation.
  assert (dll demoStore 1 5 [6; 7]%N) as Ho by by_evaluation.
  assert (∀ y, y ∈ [6; 7]%N → y ∉ [0; 1; 2; 3]%N) as Hdis.
  { apply Forall_forall. by_evaluation. }
  split; [exact Hd|]. split; [exact Ho|]. split; [exact Hdis|].
  exact (lruList_PushList_links_one_node_or_panics _ _ _ _ _ _ _ Hd Ho Hdis).
Defined.

(** ** The shard and cache properties at concrete inputs *)

(** The shard that holds B (most recent) and A. *)
Ltac reach_BA :=
  apply (reach_step (demoShard [OpSet 0 "A" [1] 0]) (OpSet 1 "B" [2] 7));
    [|exact I|vm_compute; reflexivity];
  apply (reach_step (demoShard []) (OpSet 0 "A" [1] 0));
    [|exact I|vm_compute; reflexivity];
  apply (reach_new demoConfig 0); vm_compute; reflexivity.

Lemma Set_then_read_returns_the_value_witness :
  reachable (demoShard [OpSet 0 "A" [1] 0; OpSet 1 "B" [2] 7]) ∧
  shard_nodes (demoShard [OpSet 0 "A" [1] 0; OpSet 1 "B" [2] 7]) ≠ ∅ ∧
  ∃ res s1,
    lruCacheShard_Set 2 "C" [3] 9 (demoShard [OpSet 0 "A" [1] 0; OpSet 1 "B" [2] 7])
      = Some (res, s1) ∧
    head (shard_entries s1) = Some ("C", [3], 9) ∧
    (∃ s2, lruCacheShard_Get "C" s1 = Some (([3], true), s2)) ∧
    (∃ s2, lruCacheShard_Peek "C" s1 = Some (([3], true), s2)) ∧
    (∃ s2, lruCacheShard_Contains "C" s1 = Some (true, s2)).
Proof.
  assert (reachable (demoShard [OpSet 0 "A" [1] 0; OpSet 1 "B" [2] 7])) as H by reach_BA.
  assert (shard_nodes (demoShard [OpSet 0 "A" [1] 0; OpSet 1 "B" [2] 7]) ≠ ∅) as Hne.
  { intros E. apply (f_equal (λ m, m !! "A")) in E. vm_compute in E. discriminate. }
  split; [exact H|]. split; [exact Hne|].
  exact (Set_then_read_returns_the_value _ 2 "C" [3] 9 H (or_intror Hne)).
Defined.

Lemma Set_of_absent_key_inserts_and_evicts_last_witness :
  reachable (demoShard [OpSet 0 "A" [1] 0; OpSet 1 "B" [2] 7]) ∧
  shard_nodes (demoShard [OpSet 0 "A" [1] 0; OpSet 1 "B" [2] 7]) !! "C" = None ∧
  (∃ s', lruCacheShard_Set 2 "C" [3] 9 (demoShard [OpSet 0 "A" [1] 0; OpSet 1 "B" [2] 7])
           = Some ((true, false), s') ∧
         shard_entries s' = [("C", [3], 9); ("B", [2], 7)]) ∧
  (∃ s', lruCacheShard_Set 1 "C" [3] 9 (demoShard [OpSet 0 "A" [1] 0; OpSet 1 "B" [2] 7])
           = Some ((false, true), s') ∧
         shard_entries s' = [("C", [3], 9); ("B", [2], 7); ("A", [1], 0)]).
Proof.
  assert (reachable (demoShard [OpSet 0 "A" [1] 0; OpSet 1 "B" [2] 7])) as H by reach_BA.
  assert (shard_nodes (demoShard [OpSet 0 "A" [1] 0; OpSet 1 "B" [2] 7]) !! "C" = None) as Hk
    by (vm_compute; reflexivity).
  assert (shard_entries (demoShard [OpSet 0 "A" [1] 0; OpSet 1 "B" [2] 7])
          = [("B", [2], 7); ("A", [1], 0)]) as He by (vm_compute; reflexivity).
  assert (shard_maxItems (demoShard [OpSet 0 "A" [1] 0; OpSet 1 "B" [2] 7]) = 2) as Hm
    by (vm_compute; reflexivity).
  split; [exact H|]. split; [exact Hk|]. split.
  - destruct (Set_of_absent_key_inserts_and_evicts_last _ 2 "C" [3] 9 H Hk) as (s' & R & E).
    rewrite Hm, He in *. exists s'. split; [exact R|exact E].
  - destruct (Set_of_absent_key_inserts_and_evicts_last _ 1 "C" [3] 9 H Hk) as (s' & R & E).
    rewrite Hm, He in *. exists s'. split; [exact R|exact E].
Defined.

Lemma Set_of_present_key_updates_in_place_witness :
  reachable (demoShard [OpSet 0 "A" [1] 0; OpSet 1 "B" [2] 7]) ∧
  is_Some (shard_nodes (demoShard [OpSet 0 "A" [1] 0; OpSet 1 "B" [2] 7]) !! "A") ∧
  ∃ s', lruCacheShard_Set 2 "A" [5] 9 (demoShard [OpSet 0 "A" [1] 0; OpSet 1 "B" [2] 7])
          = Some ((false, false), s') ∧
        shard_entries s' = [("A", [5], 9); ("B", [2], 7)].
Proof.
  assert (reachable (demoShard [OpSet 0 "A" [1] 0; OpSet 1 "B" [2] 7])) as H by reach_BA.
  assert (is_Some (shard_nodes (demoShard [OpSet 0 "A" [1] 0; OpSet 1 "B" [2] 7]) !! "A"))
    as Hk by (vm_compute; eauto).
  assert (shard_entries (demoShard [OpSet 0 "A" [1] 0; OpSet 1 "B" [2] 7])
          = [("B", [2], 7); ("A", [1], 0)]) as He by (vm_compute; reflexivity).
  split; [exact H|]. split; [exact Hk|].
  destruct (Set_of_present_key_updates_in_place _ 2 "A" [5] 9 H Hk) as (s' & R & E & _).
  rewrite He in E. exists s'. split; [exact R|exact E].
Defined.

Lemma Get_promotes_the_entry_witness :
  reachable (demoShard [OpSet 0 "A" [1] 0; OpSet 1 "B" [2] 7]) ∧
  (∃ e s', lruCacheShard_Get "A" (demoShard [OpSet 0 "A" [1] 0; OpSet 1 "B" [2] 7])
             = Some ((entry_value e, true), s') ∧
           entry_key e = "A" ∧
           shard_entries s' =
             e :: filter (λ e', entry_key e' ≠ "A") [("B", [2], 7); ("A", [1], 0)]) ∧
  (∃ s', lruCacheShard_Get "Z" (demoShard [OpSet 0 "A" [1] 0; OpSet 1 "B" [2] 7])
           = Some (([], false), s') ∧
         shard_entries s' = [("B", [2], 7); ("A", [1], 0)]).
Proof.
  assert (reachable (demoShard [OpSet 0 "A" [1] 0; OpSet 1 "B" [2] 7])) as H by reach_BA.
  assert (shard_entries (demoShard [OpSet 0 "A" [1] 0; OpSet 1 "B" [2] 7])
          = [("B", [2], 7); ("A", [1], 0)]) as He by (vm_compute; reflexivity).
  split; [exact H|]. split.
  - pose proof (Get_promotes_the_entry _ "A" H) as G.
    assert (shard_nodes (demoShard [OpSet 0 "A" [1] 0; OpSet 1 "B" [2] 7]) !! "A"
            = Some (Some 1%N)) as Hk by (vm_compute; reflexivity).
    rewrite Hk, He in G. destruct G as (e & s' & R & K & _ & E).
    exists e, s'. split; [exact R|]. split; [exact K|exact E].
  - pose proof (Get_promotes_the_entry _ "Z" H) as G.
    assert (shard_nodes (demoShard [OpSet 0 "A" [1] 0; OpSet 1 "B" [2] 7]) !! "Z" = None)
      as Hk by (vm_compute; reflexivity).
    rewrite Hk, He in G. exact G.
Defined.

Lemma Peek_and_Contains_do_not_reorder_witness :
  reachable (demoShard [OpSet 0 "A" [1] 0; OpSet 1 "B" [2] 7]) ∧
  ∃ v found s1 s2,
    lruCacheShard_Peek "A" (demoShard [OpSet 0 "A" [1] 0; OpSet 1 "B" [2] 7])
      = Some ((v, found), s1) ∧
    lruCacheShard_Contains "A" (demoShard [OpSet 0 "A" [1] 0; OpSet 1 "B" [2] 7])
      = Some (found, s2) ∧
    found = true ∧
    shard_entries s1 = [("B", [2], 7); ("A", [1], 0)] ∧
    shard_entries s2 = [("B", [2], 7); ("A", [1], 0)].
Proof.
  assert (reachable (demoShard [OpSet 0 "A" [1] 0; OpSet 1 "B" [2] 7])) as H by reach_BA.
  assert (shard_entries (demoShard [OpSet 0 "A" [1] 0; OpSet 1 "B" [2] 7])
          = [("B", [2], 7); ("A", [1], 0)]) as He by (vm_compute; reflexivity).
  assert (bool_decide (is_Some (shard_nodes
            (demoShard [OpSet 0 "A" [1] 0; OpSet 1 "B" [2] 7]) !! "A")) = true) as Hb
    by (vm_compute; reflexivity).
  split; [exact H|].
  destruct (Peek_and_Contains_do_not_reorder _ "A" H)
    as (v & found & s1 & s2 & R1 & R2 & F & _ & E1 & _ & E2 & _).
  rewrite Hb in F. rewrite He in E1, E2.
  exists v, found, s1, s2. split; [exact R1|]. split; [exact R2|].
  split; [exact F|]. split; [exact E1|exact E2].
Defined.

Lemma Purge_empties_the_shard_witness :
  reachable (demoShard [OpSet 0 "A" [1] 0; OpSet 1 "B" [2] 7]) ∧
  ∃ s', lruCacheShard_Purge (demoShard [OpSet 0 "A" [1] 0; OpSet 1 "B" [2] 7])
          = Some ((), s') ∧
        shard_entries s' = [] ∧ shard_nodes s' = ∅ ∧
        shard_calls s' = [CallOnAdd true (Some 1%N); CallOnAdd true (Some 2%N)] ∧
        ∃ s'', lruCacheShard_Contains "A" s' = Some (false, s'').
Proof.
  assert (reachable (demoShard [OpSet 0 "A" [1] 0; OpSet 1 "B" [2] 7])) as H by reach_BA.
  assert (shard_calls (demoShard [OpSet 0 "A" [1] 0; OpSet 1 "B" [2] 7])
          = [CallOnAdd true (Some 1%N); CallOnAdd true (Some 2%N)]) as Hc
    by (vm_compute; reflexivity).
  split; [exact H|].
  destruct (Purge_empties_the_shard _ H) as (s' & R & E & N & _ & C & _ & Hall).
  rewrite Hc in C.
  exists s'. split; [exact R|]. split; [exact E|]. split; [exact N|].
  split; [exact C|exact (Hall "A")].
Defined.

Lemma CleanupShard_twice_removes_nothing_witness :
  reachable (demoShard [OpSet 0 "A" [1] 0; OpSet 1 "B" [2] 7]) ∧
  sweep_order (demoShard [OpSet 0 "A" [1] 0; OpSet 1 "B" [2] 7]) ["A"; "B"] ∧ 8 ≤ 9 ∧
  ∃ n s1 s2,
    CleanupShard_in ["A"; "B"] 9 (demoShard [OpSet 0 "A" [1] 0; OpSet 1 "B" [2] 7])
      = Some (n, s1) ∧
    CleanupShard_in ["B"; "A"] 8 s1 = Some (0, s2) ∧
    shard_entries s2 = shard_entries s1 ∧ shard_nodes s2 = shard_nodes s1.
Proof.
  assert (reachable (demoShard [OpSet 0 "A" [1] 0; OpSet 1 "B" [2] 7])) as H by reach_BA.
  assert (sweep_order (demoShard [OpSet 0 "A" [1] 0; OpSet 1 "B" [2] 7]) ["A"; "B"]) as Ho.
  { unfold sweep_order.
    assert ((map_to_list (shard_nodes (demoShard [OpSet 0 "A" [1] 0; OpSet 1 "B" [2] 7]))).*1
            ≡ₚ ["A"; "B"]) as ->; [|reflexivity].
    vm_compute. first [reflexivity | apply perm_swap]. }
  assert (8 ≤ 9) as Hle by lia.
  split; [exact H|]. split; [exact Ho|]. split; [exact Hle|].
  exact (CleanupShard_twice_removes_nothing _ 9 ["A"; "B"] 8 ["B"; "A"] H Ho Hle).
Defined.

Lemma shard_counters_stay_zero_witness :
  reachable (demoShard [OpSet 0 "A" [1] 0; OpSet 1 "B" [2] 7]) ∧
  ∃ t, lruCacheShard_Telemetry (demoShard [OpSet 0 "A" [1] 0; OpSet 1 "B" [2] 7])
         = Some (Some t, demoShard [OpSet 0 "A" [1] 0; OpSet 1 "B" [2] 7]) ∧
       GetAddCounter (Some t) = Some 0 ∧ GetUpdateCounter (Some t) = Some 0 ∧
       GetHitCounter (Some t) = Some 0 ∧ GetMissCounter (Some t) = Some 0 ∧
       GetEvictCounter (Some t) = Some 0.
Proof.
  assert (reachable (demoShard [OpSet 0 "A" [1] 0; OpSet 1 "B" [2] 7])) as H by reach_BA.
  split; [exact H|]. exact (shard_counters_stay_zero _ H).
Defined.

Lemma hooks_follow_the_telemetry_switch_witness :
  reachable (demoShard [OpSet 0 "A" [1] 0; OpSet 1 "B" [2] 7]) ∧
  ∃ r1 s1 r2 s2 r3 s3,
    lruCacheShard_Get "A" (demoShard [OpSet 0 "A" [1] 0; OpSet 1 "B" [2] 7]) = Some (r1, s1) ∧
    lruCacheShard_Peek "A" (demoShard [OpSet 0 "A" [1] 0; OpSet 1 "B" [2] 7]) = Some (r2, s2) ∧
    lruCacheShard_Contains "A" (demoShard [OpSet 0 "A" [1] 0; OpSet 1 "B" [2] 7])
      = Some (r3, s3) ∧
    shard_calls s1 = [CallOnAdd true (Some 1%N); CallOnAdd true (Some 2%N);
                      CallOnHit true (Some 1%N)] ∧
    shard_calls s2 = shard_calls s1 ∧ shard_calls s3 = shard_calls s1.
Proof.
  assert (reachable (demoShard [OpSet 0 "A" [1] 0; OpSet 1 "B" [2] 7])) as H by reach_BA.
  split; [exact H|].
  destruct (hooks_follow_the_telemetry_switch _ "A" H)
    as (_ & r1 & s1 & r2 & s2 & r3 & s3 & R1 & R2 & R3 & C1 & C2 & C3).
  exists r1, s1, r2, s2, r3, s3. split; [exact R1|]. split; [exact R2|]. split; [exact R3|].
  rewrite C2, C3, C1. split; [|split; reflexivity]. vm_compute. reflexivity.
Defined.

(** The cache: one shard, every key routed to it. *)

Lemma LRUCache_Set_then_read_witness :
  cache_open demoCache ∧ "k" ≠ "" ∧ routed demoCache "k" 0 (demoShard []) ∧
  reachable (demoShard []) ∧ cache_len demoCache < shard_maxItems (demoShard []) ∧
  ∃ c1, LRUCache_Set "k" [1] demoCache = Some (("k", None), c1) ∧
    (∃ c2, LRUCache_Get "k" c1 = Some (([1], None), c2)) ∧
    (∃ c2, LRUCache_Peek "k" c1 = Some (([1], None), c2)) ∧
    (∃ c2, LRUCache_Contains "k" c1 = Some ((true, None), c2)).
Proof.
  assert (cache_open demoCache) as Ho by (right; vm_compute; reflexivity).
  assert ("k" ≠ "") as Hk by discriminate.
  assert (routed demoCache "k" 0 (demoShard [])) as Hr
    by (split; vm_compute; reflexivity).
  assert (reachable (demoShard [])) as H
    by (apply (reach_new demoConfig 0); vm_compute; reflexivity).
  assert (cache_len demoCache < shard_maxItems (demoShard [])) as Hlt
    by (vm_compute; reflexivity).
  split; [exact Ho|]. split; [exact Hk|]. split; [exact Hr|]. split; [exact H|].
  split; [exact Hlt|].
  destruct (LRUCache_Set_then_read demoCache "k" [1] 0 _ Ho Hk Hr H (or_introl Hlt))
    as (c1 & R & _ & G & P & C).
  exists c1. split; [exact R|]. split; [exact G|]. split; [exact P|exact C].
Defined.




Lemma default_key_generator_panics_witness :
  cache_open demoCache ∧ cache_generateKey demoCache = generateKey ∧
  LRUCache_Set "" [1] demoCache = None ∧
  LRUCache_SetWithTTL 1000 "" [1] 5 demoCache = None.
Proof.
  assert (cache_open demoCache) as Ho by (right; vm_compute; reflexivity).
  assert (cache_generateKey demoCache = generateKey) as Hg by reflexivity.
  split; [exact Ho|]. split; [exact Hg|].
  exact (default_key_generator_panics demoCache [1] 1000 5 Ho Hg).
Defined.

Lemma capacity_without_removal_witness :
  (∀ key, ∃ i : nat,
     cfg_GenerateShardId demoConfig key (cfg_MaxItems demoConfig) = Some (Z.of_nat i) ∧
     Z.of_nat i < cfg_MaxShards demoConfig) ∧
  ∃ c c', NewLRUCache demoConfig = Some c ∧
    runCacheOps [COSet "a" [1]; COSet "b" [2]; COSet "c" [3]; COSet "a" [4];
                 COGet "b"; COSetWithTTL 1000 "d" [5] 1; COStop; COPurge; COStart;
                 COSet "e" [6]] c = Some ((), c') ∧
    cache_size c' ≤ Z.max 0 (cfg_MaxItems demoConfig) ∧ cache_size c' ≤ cache_len c'.
Proof.
  assert (∀ key, ∃ i : nat,
     cfg_GenerateShardId demoConfig key (cfg_MaxItems demoConfig) = Some (Z.of_nat i) ∧
     Z.of_nat i < cfg_MaxShards demoConfig) as Hroute.
  { intros key. exists 0%nat. split; [reflexivity|]. cbn. lia. }
  split; [exact Hroute|].
  apply (capacity_without_removal demoConfig _ Hroute).
  - repeat (constructor; [first [exact I | discriminate]|]). constructor.
  - cbn. lia.
Defined.

